(** * NexusLearn-AI: the content viewers' parsers and sessions

    A shallow embedding of the parse steps of
    [frontend/src/components/{MindMapViewer,QuizViewer,FlashcardsViewer,TimelineViewer}.jsx]
    and of the quiz session handlers, with the properties of the
    normalization layer stated and proved (or refuted) over it.

    JavaScript strings are sequences of UTF-16 code units; they are
    modelled as lists of code units ([N]).  The regular expressions of the
    source are written in a small abstract syntax and run by a backtracking
    matcher that follows the ECMAScript priorities (leftmost match, greedy
    quantifiers, ordered alternation). *)

From Stdlib Require Import List NArith ZArith Lia Bool Ascii.
From Stdlib Require String.
Import String.StringSyntax.
Delimit Scope string_scope with string.
From Stdlib Require Import DecimalString DecimalNat FinFun Sorted.
Import ListNotations.

Set Implicit Arguments.
Set Warnings "-register-all".

(* ================================================================== *)
(** * Code units and strings *)
(* ================================================================== *)

Module Str.

Definition char := N.
Definition jstring := list char.

(** An ASCII literal of the source as a list of code units. *)
Definition lit (s : String.string) : jstring :=
  map N_of_ascii (String.list_ascii_of_string s).

Arguments lit s%_string.

(** A literal in which an apostrophe stands for a double quote, for
    writing JSON texts. *)
Definition qlit (s : String.string) : jstring :=
  map (fun c => if (c =? 39)%N then 34%N else c) (lit s).

Arguments qlit s%_string.

Definition LF : char := 10%N.

Definition in_range (lo hi c : char) : bool :=
  ((lo <=? c) && (c <=? hi))%N.

(** ECMAScript WhiteSpace and LineTerminator code points: what [\s]
    matches and what [trim] removes. *)
Definition is_line_terminator (c : char) : bool :=
  ((c =? 10) || (c =? 13) || (c =? 8232) || (c =? 8233))%N.

Definition is_space (c : char) : bool :=
  (in_range 9 13 c || (c =? 32) || (c =? 160) || (c =? 5760)
   || in_range 8192 8202 c || (c =? 8232) || (c =? 8233) || (c =? 8239)
   || (c =? 8287) || (c =? 12288) || (c =? 65279))%N.

Definition is_digit (c : char) : bool := in_range 48%N 57%N c.

Definition is_upper (c : char) : bool := in_range 65%N 90%N c.
Definition is_lower (c : char) : bool := in_range 97%N 122%N c.

(** [\w], used by [\b]. *)
Definition is_word (c : char) : bool :=
  (is_upper c || is_lower c || is_digit c || (c =? 95))%N.

Fixpoint dropWhile (p : char -> bool) (s : jstring) : jstring :=
  match s with
  | [] => []
  | c :: s' => if p c then dropWhile p s' else s
  end.

(** [String.prototype.trim]. *)
Definition trim (s : jstring) : jstring :=
  rev (dropWhile is_space (rev (dropWhile is_space s))).

(** Truthiness of a string: non-empty. *)
Definition truthy (s : jstring) : bool :=
  match s with [] => false | _ :: _ => true end.

Fixpoint eqb (a b : jstring) : bool :=
  match a, b with
  | [], [] => true
  | x :: a', y :: b' => (x =? y)%N && eqb a' b'
  | _, _ => false
  end.

(** [s.split(sep)] for a one-character string separator. *)
Fixpoint split_char (sep : char) (cur : jstring) (s : jstring) : list jstring :=
  match s with
  | [] => [rev cur]
  | c :: s' =>
      if (c =? sep)%N then rev cur :: split_char sep [] s'
      else split_char sep (c :: cur) s'
  end.

Definition split_lines (s : jstring) : list jstring := split_char LF [] s.

(** [arr.join(sep)]. *)
Fixpoint join (sep : jstring) (l : list jstring) : jstring :=
  match l with
  | [] => []
  | [x] => x
  | x :: l' => x ++ sep ++ join sep l'
  end.

(** [l.trim()] used as a filter predicate: the line is kept when its
    trimmed form is a non-empty string. *)
Definition nonblank (s : jstring) : bool := truthy (trim s).

(** A string has ink when one of its code units is not white space. *)
Definition ink (s : jstring) : bool := existsb (fun c => negb (is_space c)) s.

(** Empty, or with ink. *)
Definition inked (s : jstring) : Prop := s = [] \/ ink s = true.

Fixpoint is_prefix (p s : jstring) : bool :=
  match p, s with
  | [], _ => true
  | x :: p', y :: s' => (x =? y)%N && is_prefix p' s'
  | _ :: _, [] => false
  end.

(** [s.replace(pat, '')] with a string pattern: the first occurrence of
    [pat] is removed. *)
Fixpoint remove_first (pat s : jstring) : jstring :=
  if is_prefix pat s then skipn (length pat) s
  else match s with
       | [] => []
       | c :: s' => c :: remove_first pat s'
       end.

(** [String(n)] for a non-negative integer. *)
Definition of_nat (n : nat) : jstring :=
  lit (NilZero.string_of_uint (Nat.to_uint n)).

(** [toUpperCase] on a code unit, ASCII letters only (the one call site
    applies it to a match of [[A-D]] under the [i] flag). *)
Definition upcase (c : char) : char :=
  if is_lower c then (c - 32)%N else c.

End Str.

Import Str.

(* ================================================================== *)
(** * Regular expressions *)
(* ================================================================== *)

Module Re.

(** Character sets: a literal, a range, the escapes [\s] and [\d], the dot,
    unions (a bracket class) and a negated class. *)
Inductive cset :=
| CChar (c : char)
| CRange (lo hi : char)
| CSpace
| CDigit
| CDot
| COr (a b : cset)
| CNot (a : cset).

(** Patterns.  Quantifiers apply to one-character sets, which is all the
    source uses, except the optional groups [(?:json)?] and
    [(\s+Answer)?], written with [ROpt]; their bodies never match the
    empty string, so trying the body first and the empty match second is
    the ECMAScript order. *)
Inductive regex :=
| REps
| RSet (cs : cset)
| RRep (cs : cset) (mn : nat) (mx : option nat)
| ROpt (r : regex)
| RSeq (r1 r2 : regex)
| RAlt (r1 r2 : regex)
| RGroup (n : nat) (r : regex)
| RBol
| REol
| RWordB
| RAhead (r : regex).

Record flags := { icase : bool; multiline : bool }.

Definition noflags := {| icase := false; multiline := false |}.
Definition fl_i := {| icase := true; multiline := false |}.
Definition fl_m := {| icase := false; multiline := true |}.

(** Canonicalize of the [i] flag.  Every pattern character of the source
    is ASCII, and ECMAScript never folds a code unit above 127 onto one
    below 128, so folding ASCII letters is exact for these patterns. *)
Definition canon (c : char) : char := upcase c.

Fixpoint cs_mem (ic : bool) (cs : cset) (c : char) : bool :=
  match cs with
  | CChar p => if ic then (canon p =? canon c)%N else (p =? c)%N
  | CRange lo hi =>
      if ic then in_range lo hi (canon c)
                || (is_upper (canon c) && in_range lo hi (canon c + 32)%N)
      else in_range lo hi c
  | CSpace => is_space c
  | CDigit => is_digit c
  | CDot => negb (is_line_terminator c)
  | COr a b => cs_mem ic a c || cs_mem ic b c
  | CNot a => negb (cs_mem ic a c)
  end.

(** The matcher state: the input as a zipper (the consumed part reversed)
    and the captures closed so far. *)
Record mstate := MState {
  before : jstring;
  after : jstring;
  caps : list (nat * jstring)
}.

Definition start_at (b a : jstring) : mstate :=
  {| before := b; after := a; caps := [] |}.

Definition pos (st : mstate) : nat := length (before st).

Definition at_bol (fl : flags) (st : mstate) : bool :=
  match before st with
  | [] => true
  | c :: _ => multiline fl && is_line_terminator c
  end.

Definition at_eol (fl : flags) (st : mstate) : bool :=
  match after st with
  | [] => true
  | c :: _ => multiline fl && is_line_terminator c
  end.

Definition word_before (st : mstate) : bool :=
  match before st with [] => false | c :: _ => is_word c end.
Definition word_after (st : mstate) : bool :=
  match after st with [] => false | c :: _ => is_word c end.

(** Greedy repetition of a one-character set: as many as allowed first,
    then one fewer, down to the minimum. *)
Fixpoint greedy (p : char -> bool) (mn : nat) (mx : option nat)
    (b a : jstring) (cp : list (nat * jstring))
    (k : mstate -> option mstate) : option mstate :=
  let stop := match mn with
              | 0 => k (MState b a cp)
              | S _ => None
              end in
  match mx with
  | Some 0 => stop
  | _ =>
      match a with
      | c :: a' =>
          if p c then
            match greedy p (Nat.pred mn) (option_map Nat.pred mx) (c :: b) a' cp k with
            | Some r => Some r
            | None => stop
            end
          else stop
      | [] => stop
      end
  end.

Definition close_group (n : nat) (st0 st : mstate) : mstate :=
  {| before := before st; after := after st;
     caps := (n, rev (firstn (pos st - pos st0) (before st))) :: caps st |}.

Fixpoint rmatch (fl : flags) (r : regex) (st : mstate)
    (k : mstate -> option mstate) : option mstate :=
  match r with
  | REps => k st
  | RSet cs =>
      match after st with
      | c :: a' =>
          if cs_mem (icase fl) cs c
          then k (MState (c :: before st) a' (caps st))
          else None
      | [] => None
      end
  | RRep cs mn mx =>
      greedy (cs_mem (icase fl) cs) mn mx (before st) (after st) (caps st) k
  | ROpt r1 =>
      match rmatch fl r1 st k with
      | Some x => Some x
      | None => k st
      end
  | RSeq r1 r2 => rmatch fl r1 st (fun st1 => rmatch fl r2 st1 k)
  | RAlt r1 r2 =>
      match rmatch fl r1 st k with
      | Some x => Some x
      | None => rmatch fl r2 st k
      end
  | RGroup n r1 => rmatch fl r1 st (fun st1 => k (close_group n st st1))
  | RBol => if at_bol fl st then k st else None
  | REol => if at_eol fl st then k st else None
  | RWordB => if xorb (word_before st) (word_after st) then k st else None
  | RAhead r1 =>
      match rmatch fl r1 st Some with
      | Some st1 => k (MState (before st) (after st) (caps st1))
      | None => None
      end
  end.

(** One attempt at a given position. *)
Definition match_at (fl : flags) (r : regex) (b a : jstring) : option mstate :=
  rmatch fl r (start_at b a) Some.

(** [RegExp.prototype.exec] without [g]: the leftmost position with a
    match, the end position included.  The result is the text before the
    match (reversed) and the final state. *)
Fixpoint search_from (fl : flags) (r : regex) (b a : jstring)
    : option (jstring * mstate) :=
  match match_at fl r b a with
  | Some st => Some (b, st)
  | None =>
      match a with
      | [] => None
      | c :: a' => search_from fl r (c :: b) a'
      end
  end.

Definition search (fl : flags) (r : regex) (s : jstring) :=
  search_from fl r [] s.

(** [s.match(re)] used as a condition. *)
Definition test (fl : flags) (r : regex) (s : jstring) : bool :=
  match search fl r s with Some _ => true | None => false end.

(** The matched text [m[0]] of a search result. *)
Definition matched (res : jstring * mstate) : jstring :=
  rev (firstn (pos (snd res) - length (fst res)) (before (snd res))).

(** The capture [m[n]]. *)
Fixpoint capture (n : nat) (cp : list (nat * jstring)) : option jstring :=
  match cp with
  | [] => None
  | (i, s) :: cp' => if Nat.eqb i n then Some s else capture n cp'
  end.

(** [s.replace(re, '')] without [g]: the first match is removed. *)
Definition remove_match (fl : flags) (r : regex) (s : jstring) : jstring :=
  match search fl r s with
  | Some (b, st) => rev b ++ after st
  | None => s
  end.

(** [s.replace(re, '')] with [g]: every match is removed, scanning left to
    right; after an empty match the scan moves on by one code unit.
    [skip] counts the code units of the current match still to drop. *)
Fixpoint remove_all_go (fl : flags) (r : regex) (b a : jstring) (skip : nat)
    : jstring :=
  match skip with
  | S n =>
      match a with
      | [] => []
      | c :: a' => remove_all_go fl r (c :: b) a' n
      end
  | 0 =>
      match match_at fl r b a with
      | Some st =>
          match a with
          | [] => []
          | c :: a' =>
              match pos st - length b with
              | 0 => c :: remove_all_go fl r (c :: b) a' 0
              | S n => remove_all_go fl r (c :: b) a' n
              end
          end
      | None =>
          match a with
          | [] => []
          | c :: a' => c :: remove_all_go fl r (c :: b) a' 0
          end
      end
  end.

Definition remove_all (fl : flags) (r : regex) (s : jstring) : jstring :=
  remove_all_go fl r [] s 0.

(** [s.split(re)] for a pattern without capturing groups
    (RegExp.prototype[Symbol.split]): a match is tried at each position
    [q] before the end; a match that ends where the current piece starts
    is ignored; otherwise the piece is closed and the scan resumes at the
    end of the match.  [cur] is the current piece, reversed. *)
Fixpoint split_go (fl : flags) (r : regex) (b a : jstring)
    (cur : jstring) (skip : nat) : list jstring :=
  match a with
  | [] => [rev cur]
  | c :: a' =>
      match skip with
      | S n => split_go fl r (c :: b) a' cur n
      | 0 =>
          match match_at fl r b a with
          | Some st =>
              match Nat.min (pos st) (length b + length a) - length b, cur with
              | 0, [] => split_go fl r (c :: b) a' [c] 0
              | 0, _ :: _ => rev cur :: split_go fl r (c :: b) a' [c] 0
              | S n, _ => rev cur :: split_go fl r (c :: b) a' [] n
              end
          | None => split_go fl r (c :: b) a' (c :: cur) 0
          end
      end
  end.

Definition split (fl : flags) (r : regex) (s : jstring) : list jstring :=
  match s with
  | [] => match match_at fl r [] [] with
          | Some _ => []
          | None => [[]]
          end
  | _ :: _ => split_go fl r [] s [] 0
  end.

(** Pattern-building helpers. *)
Fixpoint rseq (l : list regex) : regex :=
  match l with
  | [] => REps
  | [r] => r
  | r :: l' => RSeq r (rseq l')
  end.

Fixpoint ralt (l : list regex) : regex :=
  match l with
  | [] => REps
  | [r] => r
  | r :: l' => RAlt r (ralt l')
  end.

Definition rchar (c : char) : regex := RSet (CChar c).

(** A literal word of the pattern. *)
Definition rlit (s : String.string) : regex := rseq (map rchar (lit s)).

Definition ch (s : String.string) : char :=
  match lit s with c :: _ => c | [] => 0%N end.

Arguments rlit s%_string.
Arguments ch s%_string.

Fixpoint cunion (l : list cset) : cset :=
  match l with
  | [] => CRange 1%N 0%N
  | [c] => c
  | c :: l' => COr c (cunion l')
  end.

Definition star (cs : cset) : regex := RRep cs 0 None.
Definition plus (cs : cset) : regex := RRep cs 1 None.
Definition opt (cs : cset) : regex := RRep cs 0 (Some 1).
Definition rep (cs : cset) (mn mx : nat) : regex := RRep cs mn (Some mx).

End Re.

Import Re.

(* ================================================================== *)
(** * MindMapViewer.jsx: the outline text grammar *)
(* ================================================================== *)

Module MindMap.

(** A React Flow node as [parseTextMindMap] builds it.  [fontSize] and
    [fontWeight] are absent from the default node. *)
Record node := {
  id : jstring;
  label : jstring;
  position_x : nat;
  position_y : nat;
  type : jstring;
  background : jstring;
  fontSize : option jstring;
  fontWeight : option jstring
}.

(** An edge; [type], [animated] and [style] are constants of the source. *)
Record edge := {
  edge_id : jstring;
  source : jstring;
  target : jstring
}.

Record mindmap := { nodes : list node; edges : list edge }.

(** The loop state of [lines.forEach]: the two output arrays, the id
    counter, and the hierarchy tracking.  [nodeStack] is a JavaScript
    array: an index that was never assigned is a hole ([None]). *)
Record pstate := {
  st_nodes : list node;
  st_edges : list edge;
  nodeId : nat;
  nodeStack : list (option jstring);
  currentLevel : nat
}.

(** The pattern [^(\s* )] of the indentation (quoted patterns have a
    blank between a star and a closing parenthesis). *)
Definition re_indent : regex := RSeq RBol (RGroup 1 (star CSpace)).

(** The bullet pattern [^[-*...]\s*]: the class holds the five code
    units [-], [*], U+00E2, U+20AC and U+00A2. *)
Definition re_bullet : regex :=
  rseq [RBol;
        RSet (cunion [CChar (ch "-"); CChar (ch "*"); CChar 226%N;
                      CChar 8364%N; CChar 162%N]);
        star CSpace].

(** [match ? match[1].length : 0] *)
Definition indent_of (line : jstring) : nat :=
  match search noflags re_indent line with
  | Some (_, st) =>
      match capture 1 (caps st) with
      | Some s => length s
      | None => 0
      end
  | None => 0
  end.

Definition level_of (line : jstring) : nat := indent_of line / 2.

(** [line.trim().replace(re_bullet, '')] *)
Definition clean_text (line : jstring) : jstring :=
  remove_match noflags re_bullet (trim line).

Definition node_id (n : nat) : jstring := lit "node-" ++ of_nat n.
Definition edge_name (n : nat) : jstring := lit "edge-" ++ of_nat n.

Definition mk_node (i : jstring) (text : jstring) (level index : nat) : node :=
  {| id := i;
     label := text;
     position_x := level * 250;
     position_y := index * 100;
     type := if Nat.eqb level 0 then lit "input" else lit "default";
     background := if Nat.eqb level 0 then lit "#6366f1"
                   else if Nat.eqb level 1 then lit "#8b5cf6"
                   else lit "#a78bfa";
     fontSize := Some (if Nat.eqb level 0 then lit "16px" else lit "14px");
     fontWeight := Some (if Nat.eqb level 0 then lit "bold" else lit "normal") |}.

(** [nodeStack.push(id)] *)
Definition push (stack : list (option jstring)) (i : jstring) :=
  stack ++ [Some i].

(** [nodeStack.splice(n)]: everything from index [n] on is removed. *)
Definition splice (n : nat) (stack : list (option jstring)) := firstn n stack.

(** [nodeStack[n] = id]: an index past the end extends the array, the
    indices in between staying holes. *)
Definition assign (n : nat) (i : jstring) (stack : list (option jstring)) :=
  if Nat.ltb n (length stack)
  then firstn n stack ++ Some i :: skipn (S n) stack
  else stack ++ repeat None (n - length stack) ++ [Some i].

(** [nodeStack[n]] as a condition and a value: a hole, an index out of
    range and the empty string are all falsy. *)
Definition stack_get (n : nat) (stack : list (option jstring)) : option jstring :=
  match nth_error stack n with
  | Some (Some s) => if truthy s then Some s else None
  | _ => None
  end.

(** The "Track hierarchy" step. *)
Definition track (level : nat) (i : jstring) (st : pstate) : list (option jstring) :=
  if Nat.ltb (currentLevel st) level then push (nodeStack st) i
  else if Nat.ltb level (currentLevel st)
       then push (splice (level + 1) (nodeStack st)) i
       else assign level i (nodeStack st).

(** The "Create edge to parent" step. *)
Definition parent_edge (level : nat) (i : jstring)
    (stack : list (option jstring)) (es : list edge) : list edge :=
  match level with
  | 0 => es
  | S l =>
      match stack_get l stack with
      | Some p => es ++ [{| edge_id := edge_name (length es);
                            source := p; target := i |}]
      | None => es
      end
  end.

(** The body of [lines.forEach((line, index) => ...)]. *)
Definition step (st : pstate) (line : jstring) (index : nat) : pstate :=
  let level := level_of line in
  let text := clean_text line in
  if negb (truthy text) then st
  else
    let i := node_id (nodeId st) in
    let stack := track level i st in
    {| st_nodes := st_nodes st ++ [mk_node i text level index];
       st_edges := parent_edge level i stack (st_edges st);
       nodeId := S (nodeId st);
       nodeStack := stack;
       currentLevel := level |}.

Fixpoint forEach (st : pstate) (lines : list jstring) (index : nat) : pstate :=
  match lines with
  | [] => st
  | line :: rest => forEach (step st line index) rest (S index)
  end.

Definition init : pstate :=
  {| st_nodes := []; st_edges := []; nodeId := 0;
     nodeStack := []; currentLevel := 0 |}.

Definition default_node : node :=
  {| id := lit "node-0";
     label := lit "Mind Map";
     position_x := 250;
     position_y := 50;
     type := lit "input";
     background := lit "#6366f1";
     fontSize := None;
     fontWeight := None |}.

Definition parseTextMindMap (text : jstring) : mindmap :=
  let lines := filter nonblank (split_lines text) in
  let st := forEach init lines 0 in
  {| nodes := match st_nodes st with
              | [] => [default_node]
              | _ :: _ => st_nodes st
              end;
     edges := st_edges st |}.

(** The depth a node was parsed at, read back from its column. *)
Definition depth (n : node) : nat := position_x n / 250.

(** An edge as a pair of labels, for reading results. *)
Definition label_of (m : mindmap) (i : jstring) : option jstring :=
  option_map label (find (fun n => Str.eqb (id n) i) (nodes m)).

Definition edge_labels (m : mindmap) : list (option jstring * option jstring) :=
  map (fun e => (label_of m (source e), label_of m (target e))) (edges m).

Definition incoming (m : mindmap) (i : jstring) : list edge :=
  filter (fun e => Str.eqb (target e) i) (edges m).

(** The parent the data model asks for: the nearest node before
    position [k], in document order, whose depth is one less than that of
    the node at [k]; none for a node of depth 0. *)
Definition nearest_parent (ns : list node) (k : nat) : option jstring :=
  match nth_error ns k with
  | Some n =>
      match depth n with
      | 0 => None
      | S d =>
          option_map id
            (find (fun p => Nat.eqb (depth p) d) (rev (firstn k ns)))
      end
  | None => None
  end.

(** The sources of the edges that end in the node at position [k]. *)
Definition parents_of (m : mindmap) (k : nat) : list jstring :=
  match nth_error (nodes m) k with
  | Some n => map source (incoming m (id n))
  | None => []
  end.

Fixpoint list_eqb (a b : list jstring) : bool :=
  match a, b with
  | [], [] => true
  | x :: a', y :: b' => Str.eqb x y && list_eqb a' b'
  | _, _ => false
  end.

(** The parent invariant of the data model at position [k]: a node of
    depth 0 has no incoming edge, any other node has exactly one, from
    its nearest parent. *)
Definition parent_ok (m : mindmap) (k : nat) : bool :=
  match nth_error (nodes m) k with
  | Some n =>
      match depth n, nearest_parent (nodes m) k with
      | 0, _ => list_eqb (parents_of m k) []
      | S _, Some p => list_eqb (parents_of m k) [p]
      | S _, None => false
      end
  | None => true
  end.

Definition parent_invariant (m : mindmap) : bool :=
  forallb (parent_ok m) (seq 0 (length (nodes m))).

(** The ids given out so far. *)
Definition ids (st : pstate) : list jstring := map id (st_nodes st).

(** The loop invariant of [lines.forEach]: the ids are the first
    [nodeId] names, edges and stack entries refer to them, and no two
    edges end in the same node. *)
Record Inv (st : pstate) : Prop := {
  inv_ids : ids st = map node_id (seq 0 (nodeId st));
  inv_edges : forall e, In e (st_edges st) ->
                In (source e) (ids st) /\ In (target e) (ids st);
  inv_stack : forall s, In (Some s) (nodeStack st) -> In s (ids st);
  inv_targets : NoDup (map target (st_edges st))
}.

End MindMap.


(* ================================================================== *)
(** * QuizViewer.jsx: the quiz text grammar *)
(* ================================================================== *)

Module Quiz.

Record question := {
  q_question : jstring;
  q_options : list jstring;
  q_correctAnswer : Z;
  q_explanation : jstring
}.

Definition c_star : cset := CChar (ch "*").
Definition c_letter : cset := COr (CRange (ch "a") (ch "d")) (CRange (ch "A") (ch "D")).

(** The three alternatives of the question-line pattern (flag [i]):
    [^\*?\*?Question\s*\d*[\*\:]], [\*?\d+\.] and [^Q\d*:]; only the
    first and the third are anchored.  [tail] is [REps] for the test and
    [\s*] for the replacement. *)
Definition re_question_with (tail : regex) : regex :=
  ralt [rseq [RBol; opt c_star; opt c_star; rlit "Question"; star CSpace;
              star CDigit; RSet (COr c_star (CChar (ch ":"))); tail];
        rseq [opt c_star; plus CDigit; rchar (ch "."); tail];
        rseq [RBol; rlit "Q"; star CDigit; rchar (ch ":"); tail]].

Definition re_question : regex := re_question_with REps.
Definition re_question_strip : regex := re_question_with (star CSpace).

(** The option-line pattern (no flag): [^\*?[a-dA-D][\)\.\:]] or
    [\*?\([a-dA-D]\)]. *)
Definition re_option_with (tail : regex) : regex :=
  ralt [rseq [RBol; opt c_star; RSet c_letter;
              RSet (cunion [CChar (ch ")"); CChar (ch "."); CChar (ch ":")]);
              tail];
        rseq [opt c_star; rchar (ch "("); RSet c_letter; rchar (ch ")"); tail]].

Definition re_option : regex := re_option_with REps.
Definition re_option_strip : regex := re_option_with (star CSpace).

(** The answer-line pattern (flag [i]):
    [^\*{0,2}(Answer|Correct(\s+Answer)?)\*{0,2}[\s:\*]], with the
    final class repeated ([+]) in the replacement. *)
Definition c_answer_sep : cset := cunion [CSpace; CChar (ch ":"); c_star].

Definition re_answer_with (last : regex) : regex :=
  rseq [RBol; rep c_star 0 2;
        RGroup 1 (RAlt (rlit "Answer")
                       (RSeq (rlit "Correct")
                             (ROpt (RGroup 2 (RSeq (plus CSpace) (rlit "Answer"))))));
        rep c_star 0 2; last].

Definition re_answer : regex := re_answer_with (RSet c_answer_sep).
Definition re_answer_strip : regex := re_answer_with (plus c_answer_sep).

(** [/\*\*/g] *)
Definition re_bold : regex := RSeq (rchar (ch "*")) (rchar (ch "*")).

(** [/\b[A-D]\b/i] *)
Definition re_letter : regex :=
  rseq [RWordB; RSet (CRange (ch "A") (ch "D")); RWordB].

(** The explanation pattern (flag [i]): [^\*{0,2}Explanation\*{0,2}:]. *)
Definition re_explanation_with (tail : regex) : regex :=
  rseq [RBol; rep c_star 0 2; rlit "Explanation"; rep c_star 0 2;
        rchar (ch ":"); tail].

Definition re_explanation : regex := re_explanation_with REps.
Definition re_explanation_strip : regex := re_explanation_with (star CSpace).

(** [/(?=^\d+\.)/m] *)
Definition re_numbered : regex :=
  RAhead (rseq [RBol; plus CDigit; rchar (ch ".")]).

(** [/\n\s*\n/] *)
Definition re_blank_line : regex := rseq [rchar LF; star CSpace; rchar LF].

(** The text left of an answer line once the label and the bold markers
    are removed. *)
Definition answer_text (line : jstring) : jstring :=
  trim (remove_all noflags re_bold (remove_match fl_i re_answer_strip line)).

(** [answerText.match(/\b[A-D]\b/i)], then
    [letterMatch[0].toUpperCase().charCodeAt(0) - 65]. *)
Definition letter_index (answerText : jstring) : option Z :=
  match search fl_i re_letter answerText with
  | Some res =>
      match map upcase (matched res) with
      | c :: _ => Some (Z.of_N c - 65)%Z
      | [] => None
      end
  | None => None
  end.

(** The branch of the [if]/[else if] chain a (trimmed) line takes. *)
Inductive line_kind := KQuestion | KOption | KAnswer | KExplanation | KOther.

Definition classify (line : jstring) : line_kind :=
  if test fl_i re_question line then KQuestion
  else if test noflags re_option line then KOption
  else if test fl_i re_answer line then KAnswer
  else if test fl_i re_explanation line then KExplanation
  else KOther.

(** The variables of one section: [question], [options], [correctAnswer],
    [explanation]. *)
Definition init : question :=
  {| q_question := []; q_options := []; q_correctAnswer := (-1)%Z;
     q_explanation := [] |}.

(** One iteration of the [for] loop over the lines of a section. *)
Definition line_step (st : question) (raw : jstring) : question :=
  let line := trim raw in
  match classify line with
  | KQuestion =>
      {| q_question := trim (remove_match fl_i re_question_strip line);
         q_options := q_options st;
         q_correctAnswer := q_correctAnswer st;
         q_explanation := q_explanation st |}
  | KOption =>
      {| q_question := q_question st;
         q_options := q_options st
                      ++ [trim (remove_match noflags re_option_strip line)];
         q_correctAnswer := q_correctAnswer st;
         q_explanation := q_explanation st |}
  | KAnswer =>
      match letter_index (answer_text line) with
      | Some i =>
          {| q_question := q_question st;
             q_options := q_options st;
             q_correctAnswer := i;
             q_explanation := q_explanation st |}
      | None => st
      end
  | KExplanation =>
      {| q_question := q_question st;
         q_options := q_options st;
         q_correctAnswer := q_correctAnswer st;
         q_explanation := trim (remove_match fl_i re_explanation_strip line) |}
  | KOther => st
  end.

(** Whether a line of a section takes the answer branch, and the index
    it resolves there (none when no letter is found). *)
Definition is_answer_line (raw : jstring) : bool :=
  match classify (trim raw) with
  | KAnswer => true
  | _ => false
  end.

Definition resolved (raw : jstring) : option Z :=
  match classify (trim raw) with
  | KAnswer => letter_index (answer_text (trim raw))
  | _ => None
  end.

(** The answer a section ends with: the last resolved one. *)
Definition last_resolved (lines : list jstring) (start : Z) : Z :=
  fold_left (fun acc l => match resolved l with Some i => i | None => acc end)
    lines start.

Definition section_lines (section : jstring) : list jstring :=
  filter nonblank (split_lines section).

(** What a section pushes once its lines are read: nothing, or one
    question, with the default answer 0 when none was marked. *)
Definition emit (st : question) : option question :=
  if truthy (q_question st) && Nat.leb 2 (length (q_options st)) then
    Some {| q_question := q_question st;
            q_options := q_options st;
            q_correctAnswer := if Z.eqb (q_correctAnswer st) (-1) then 0%Z
                               else q_correctAnswer st;
            q_explanation := q_explanation st |}
  else None.

(** The body of [sections.forEach]. *)
Definition parse_section (section : jstring) : option question :=
  let lines := section_lines section in
  if Nat.ltb (length lines) 2 then None
  else emit (fold_left line_step lines init).

Definition sections_of (text : jstring) : list jstring :=
  let sections := split fl_m re_numbered text in
  if Nat.eqb (length sections) 1 then split noflags re_blank_line text
  else sections.

Fixpoint collect (sections : list jstring) : list question :=
  match sections with
  | [] => []
  | s :: rest =>
      match parse_section s with
      | Some q => q :: collect rest
      | None => collect rest
      end
  end.

Definition parseTextQuiz (text : jstring) : list question :=
  collect (sections_of text).

End Quiz.

(* ================================================================== *)
(** * FlashcardsViewer.jsx: the flashcard text grammar *)
(* ================================================================== *)

Module Flashcards.

Record card := { front : jstring; back : jstring }.

(** The front marker (flag [i]): [^(Q|Question):], followed by [\s*] in
    the replacement. *)
Definition re_q_with (tail : regex) : regex :=
  rseq [RBol; RGroup 1 (RAlt (rlit "Q") (rlit "Question")); rchar (ch ":"); tail].
Definition re_q : regex := re_q_with REps.
Definition re_q_strip : regex := re_q_with (star CSpace).

(** The back marker (flag [i]): [^(A|Answer):]. *)
Definition re_a_with (tail : regex) : regex :=
  rseq [RBol; RGroup 1 (RAlt (rlit "A") (rlit "Answer")); rchar (ch ":"); tail].
Definition re_a : regex := re_a_with REps.
Definition re_a_strip : regex := re_a_with (star CSpace).

(** [/^\d+\.\s*/] *)
Definition re_numbering : regex :=
  rseq [RBol; plus CDigit; rchar (ch "."); star CSpace].

(** [/\n\s*\n/] *)
Definition re_blank_line : regex := rseq [rchar LF; star CSpace; rchar LF].

Definition section_lines (section : jstring) : list jstring :=
  filter nonblank (split_lines section).

(** The innermost loop (index [k]): the lines after the answer marker
    are appended to [back] up to the next question marker. *)
Fixpoint scan_back (back : jstring) (lines : list jstring) : jstring :=
  match lines with
  | [] => back
  | l :: rest =>
      if negb (test fl_i re_q l) then scan_back (back ++ [LF] ++ l) rest
      else back
  end.

(** The middle loop (index [j]): lines are appended to [front] until an
    answer marker is found; [back] stays empty when there is none. *)
Fixpoint scan_front (front : jstring) (lines : list jstring) : jstring * jstring :=
  match lines with
  | [] => (front, [])
  | l :: rest =>
      if test fl_i re_a l
      then (front, scan_back (remove_match fl_i re_a_strip l) rest)
      else scan_front (front ++ [LF] ++ l) rest
  end.

(** The outer loop (index [i]): the first line whose trimmed form carries
    the question marker decides the card. *)
Fixpoint scan_lines (lines : list jstring) : jstring * jstring :=
  match lines with
  | [] => ([], [])
  | l :: rest =>
      let line := trim l in
      if test fl_i re_q line
      then scan_front (remove_match fl_i re_q_strip line) rest
      else scan_lines rest
  end.

(** The body of the first [sections.forEach]. *)
Definition primary_card (section : jstring) : option card :=
  let lines := section_lines section in
  if Nat.leb 2 (length lines) then
    let (f, b) := scan_lines lines in
    if truthy f && truthy b
    then Some {| front := trim f; back := trim b |}
    else None
  else None.

(** The body of the second [sections.forEach]. *)
Definition fallback_card (section : jstring) : option card :=
  let lines := section_lines section in
  if Nat.leb 2 (length lines) then
    match lines with
    | l0 :: rest =>
        Some {| front := remove_match noflags re_numbering l0;
                back := join [LF] rest |}
    | [] => None
    end
  else None.

Fixpoint collect (f : jstring -> option card) (sections : list jstring) : list card :=
  match sections with
  | [] => []
  | s :: rest =>
      match f s with
      | Some c => c :: collect f rest
      | None => collect f rest
      end
  end.

Definition sample_card : card :=
  {| front := lit "Sample Question"; back := lit "Sample Answer" |}.

Definition parseTextFlashcards (text : jstring) : list card :=
  let sections := split noflags re_blank_line text in
  let cards := collect primary_card sections in
  let cards := match cards with
               | [] => collect fallback_card sections
               | _ :: _ => cards
               end in
  match cards with
  | [] => [sample_card]
  | _ :: _ => cards
  end.

(** The cards of the first pass alone. *)
Definition primary_cards (text : jstring) : list card :=
  collect primary_card (split noflags re_blank_line text).

End Flashcards.

(* ================================================================== *)
(** * TimelineViewer.jsx: the timeline text grammar *)
(* ================================================================== *)

Module Timeline.

Record event := { date : jstring; title : jstring; description : jstring }.

(** [/\n\s*\n/] *)
Definition re_blank_line : regex := rseq [rchar LF; star CSpace; rchar LF].

(** The backend format [^\[([^\]]+)\]:\s*(.+)]. *)
Definition re_backend : regex :=
  rseq [RBol; rchar (ch "["); RGroup 1 (plus (CNot (CChar (ch "]"))));
        rchar (ch "]"); rchar (ch ":"); star CSpace; RGroup 2 (plus CDot)].

Definition c_AZ : cset := CRange (ch "A") (ch "Z").
Definition c_az : cset := CRange (ch "a") (ch "z").

(** The date at the start of a line: one group with four alternatives,
    [\d{4}], [\d{1,2}\/\d{1,2}\/\d{2,4}],
    [[A-Z][a-z]+\s+\d{1,2},?\s+\d{4}] and [\d{1,2}\s+[A-Z][a-z]+\s+\d{4}]. *)
Definition re_date : regex :=
  RSeq RBol
    (RGroup 1
       (ralt [rep CDigit 4 4;
              rseq [rep CDigit 1 2; rchar (ch "/"); rep CDigit 1 2;
                    rchar (ch "/"); rep CDigit 2 4];
              rseq [RSet c_AZ; plus c_az; plus CSpace; rep CDigit 1 2;
                    opt (CChar (ch ",")); plus CSpace; rep CDigit 4 4];
              rseq [rep CDigit 1 2; plus CSpace; RSet c_AZ; plus c_az;
                    plus CSpace; rep CDigit 4 4]])).

(** [/^[\s:-]+/] *)
Definition re_separators : regex :=
  RSeq RBol (plus (cunion [CSpace; CChar (ch ":"); CChar (ch "-")])).

(** [/^#+\s*/] *)
Definition re_heading : regex :=
  rseq [RBol; plus (CChar (ch "#")); star CSpace].

(** The bullet pattern [^[-*.]\s*] whose class holds [-], [*] and the
    bullet U+2022. *)
Definition re_bullet : regex :=
  rseq [RBol; RSet (cunion [CChar (ch "-"); CChar (ch "*"); CChar 8226%N]);
        star CSpace].

(** [/^\d+\.\s*/] *)
Definition re_numbering : regex :=
  rseq [RBol; plus CDigit; rchar (ch "."); star CSpace].

Definition block_lines (block : jstring) : list jstring :=
  filter nonblank (split_lines block).

(** [lines.slice(1).join(' ').trim()] *)
Definition rest_description (rest : list jstring) : jstring :=
  trim (join (lit " ") rest).

Definition group (n : nat) (res : jstring * mstate) : jstring :=
  match capture n (caps (snd res)) with
  | Some s => s
  | None => []
  end.

(** The three variables [date], [title], [description] of a block, as
    the [if]/[else] cascade on its first line sets them. *)
Definition block_fields (l0 : jstring) (rest : list jstring)
    : jstring * jstring * jstring :=
  match search noflags re_backend l0 with
  | Some bf => (group 1 bf, group 2 bf, rest_description rest)
  | None =>
      match search noflags re_date l0 with
      | Some dm =>
          (group 1 dm,
           trim (remove_match noflags re_separators
                   (remove_first (matched dm) l0)),
           rest_description rest)
      | None => (lit "Date Unknown", l0, rest_description rest)
      end
  end.

(** The body of [blocks.forEach]. *)
Definition block_event (block : jstring) : option event :=
  match block_lines block with
  | [] => None
  | l0 :: rest =>
      let '(d, t, desc) := block_fields l0 rest in
      if truthy t
      then Some {| date := if truthy d then d else lit "Unknown";
                   title := t; description := desc |}
      else None
  end.

Fixpoint collect (blocks : list jstring) : list event :=
  match blocks with
  | [] => []
  | b :: rest =>
      match block_event b with
      | Some e => e :: collect rest
      | None => collect rest
      end
  end.

Definition block_events (text : jstring) : list event :=
  collect (filter nonblank (split noflags re_blank_line text)).

(** The second pass: headings set [currentDate], bullets and numbered
    lines push an event. *)
Definition bullet_step (st : jstring * list event) (line : jstring)
    : jstring * list event :=
  let (currentDate, events) := st in
  let trimmed := trim line in
  let ev t := {| date := if truthy currentDate then currentDate else lit "Unknown";
                 title := t; description := [] |} in
  if test noflags re_heading trimmed
  then (remove_match noflags re_heading trimmed, events)
  else if test noflags re_bullet trimmed
  then (currentDate, events ++ [ev (remove_match noflags re_bullet trimmed)])
  else if test noflags re_numbering trimmed
  then (currentDate, events ++ [ev (remove_match noflags re_numbering trimmed)])
  else st.

Definition bullet_events (text : jstring) : list event :=
  snd (fold_left bullet_step (filter nonblank (split_lines text)) ([], [])).

Definition sample_event : event :=
  {| date := lit "Sample Date"; title := lit "Sample Event";
     description := lit "Sample Description" |}.

Definition parseTextTimeline (text : jstring) : list event :=
  let events := block_events text in
  let events := match events with
                | [] => bullet_events text
                | _ :: _ => events
                end in
  match events with
  | [] => [sample_event]
  | _ :: _ => events
  end.

End Timeline.

(* ================================================================== *)
(** * JSON values and [JSON.parse] *)
(* ================================================================== *)

Module Json.

(** A number is kept as the decimal it was written as, [m * 10^e]; the
    rounding to a binary64 float is not modelled (every numeral the
    statements below use is a small integer). *)
Inductive json :=
| JNull
| JBool (b : bool)
| JNum (m : Z) (e : Z)
| JStr (s : jstring)
| JArr (l : list json)
| JObj (l : list (jstring * json)).

Inductive error := SyntaxError | TypeError.

(** The outcome of a JavaScript computation that may throw. *)
Inductive outcome (A : Type) :=
| Returned (a : A)
| Thrown (e : error).

Arguments Returned {A} a.
Arguments Thrown {A} e.

Definition bind {A B} (x : outcome A) (f : A -> outcome B) : outcome B :=
  match x with
  | Returned a => f a
  | Thrown e => Thrown e
  end.

(** [try { body } catch (error) { handler }]: what the body returns, or
    the outcome of the handler when the body throws. *)
Definition try_catch {A} (body : outcome A) (handler : error -> outcome A)
    : outcome A :=
  match body with
  | Returned a => Returned a
  | Thrown e => handler e
  end.

(** [arr.map(f)] where [f] may throw. *)
Fixpoint map_outcome {A B} (f : A -> outcome B) (l : list A) : outcome (list B) :=
  match l with
  | [] => Returned []
  | x :: l' =>
      bind (f x) (fun y => bind (map_outcome f l') (fun ys => Returned (y :: ys)))
  end.

(** JSON white space: tab, line feed, carriage return, space. *)
Definition is_ws (c : char) : bool :=
  ((c =? 9) || (c =? 10) || (c =? 13) || (c =? 32))%N.

Definition skip_ws (s : jstring) : jstring := dropWhile is_ws s.

Definition hex_digit (c : char) : option N :=
  if is_digit c then Some (c - 48)%N
  else if in_range 97%N 102%N c then Some (c - 87)%N
  else if in_range 65%N 70%N c then Some (c - 55)%N
  else None.

Definition hex4 (a b c d : char) : option char :=
  match hex_digit a, hex_digit b, hex_digit c, hex_digit d with
  | Some x, Some y, Some z, Some w => Some (((x * 16 + y) * 16 + z) * 16 + w)%N
  | _, _, _, _ => None
  end.

Definition escape (c : char) : option char :=
  if (c =? 34)%N then Some 34%N
  else if (c =? 92)%N then Some 92%N
  else if (c =? 47)%N then Some 47%N
  else if (c =? 98)%N then Some 8%N
  else if (c =? 102)%N then Some 12%N
  else if (c =? 110)%N then Some 10%N
  else if (c =? 114)%N then Some 13%N
  else if (c =? 116)%N then Some 9%N
  else None.

(** The characters of a string after its opening quote; [acc] is
    reversed. *)
Fixpoint parse_chars (s : jstring) (acc : jstring) : option (jstring * jstring) :=
  match s with
  | [] => None
  | c :: r =>
      if (c =? 34)%N then Some (rev acc, r)
      else if (c =? 92)%N then
        match r with
        | e :: r1 =>
            if (e =? 117)%N then
              match r1 with
              | h1 :: h2 :: h3 :: h4 :: r2 =>
                  match hex4 h1 h2 h3 h4 with
                  | Some u => parse_chars r2 (u :: acc)
                  | None => None
                  end
              | _ => None
              end
            else
              match escape e with
              | Some u => parse_chars r1 (u :: acc)
              | None => None
              end
        | [] => None
        end
      else if (c <? 32)%N then None
      else parse_chars r (c :: acc)
  end.

(** A run of digits: its value, its length, and the rest. *)
Fixpoint digits (s : jstring) (v : Z) (n : nat) : Z * nat * jstring :=
  match s with
  | c :: r => if is_digit c then digits r (v * 10 + Z.of_N (c - 48)) (S n)
              else (v, n, s)
  | [] => (v, n, s)
  end.

(** [-? int frac? exp?]; the integer part has no leading zero. *)
Definition parse_number (s : jstring) : option (json * jstring) :=
  let (neg, s1) := match s with
                   | c :: r => if (c =? 45)%N then (true, r) else (false, s)
                   | [] => (false, s)
                   end in
  let '(iv, ilen, s2) := digits s1 0%Z 0 in
  let leading_zero := match s1 with
                      | c :: _ => (c =? 48)%N && Nat.ltb 1 ilen
                      | [] => false
                      end in
  if Nat.eqb ilen 0 || leading_zero then None
  else
    let frac := match s2 with
                | c :: r =>
                    if (c =? 46)%N then
                      let '(fv, flen, s3) := digits r iv 0 in
                      if Nat.eqb flen 0 then None else Some (fv, flen, s3)
                    else Some (iv, 0, s2)
                | [] => Some (iv, 0, s2)
                end in
    match frac with
    | None => None
    | Some (m, flen, s3) =>
        let sign (z : Z) := if neg then (- z)%Z else z in
        let plain := Some (JNum (sign m) (- Z.of_nat flen), s3) in
        match s3 with
        | c :: r =>
            if (c =? 101)%N || (c =? 69)%N then
              let (eneg, r1) := match r with
                                | d :: r' =>
                                    if (d =? 45)%N then (true, r')
                                    else if (d =? 43)%N then (false, r')
                                    else (false, r)
                                | [] => (false, r)
                                end in
              let '(ev, elen, s4) := digits r1 0%Z 0 in
              if Nat.eqb elen 0 then None
              else Some (JNum (sign m)
                           ((if eneg then - ev else ev) - Z.of_nat flen), s4)
            else plain
        | [] => plain
        end
    end.

(** Defining the property [key] of an object: the value is replaced
    where the key already is, and added at the end otherwise.  (The
    order in which properties are enumerated plays no role below.) *)
Fixpoint set (key : jstring) (v : json) (props : list (jstring * json))
    : list (jstring * json) :=
  match props with
  | [] => [(key, v)]
  | (k, x) :: props' =>
      if Str.eqb k key then (k, v) :: props'
      else (k, x) :: set key v props'
  end.

(** The literals [null], [true] and [false]. *)
Definition literal (w : jstring) (v : json) (s : jstring)
    : option (json * jstring) :=
  if is_prefix w s then Some (v, skipn (length w) s) else None.

(** Recursive descent over the JSON grammar.  The fuel bounds the chain
    of nested calls; [JSON_parse] gives twice the length of the text,
    past which more fuel changes nothing ([JsonFacts.JSON_parse_fuel]). *)
Fixpoint parse_value (fuel : nat) (s : jstring) : option (json * jstring) :=
  match fuel with
  | 0 => None
  | S f =>
      match skip_ws s with
      | [] => None
      | c :: r =>
          if (c =? 34)%N then
            match parse_chars r [] with
            | Some (str, r') => Some (JStr str, r')
            | None => None
            end
          else if (c =? 91)%N then
            match skip_ws r with
            | [] => None
            | c' :: r' =>
                if (c' =? 93)%N then Some (JArr [], r')
                else parse_elements f r []
            end
          else if (c =? 123)%N then
            match skip_ws r with
            | [] => None
            | c' :: r' =>
                if (c' =? 125)%N then Some (JObj [], r')
                else parse_members f r []
            end
          else if (c =? 110)%N then literal (lit "null") JNull (c :: r)
          else if (c =? 116)%N then literal (lit "true") (JBool true) (c :: r)
          else if (c =? 102)%N then literal (lit "false") (JBool false) (c :: r)
          else parse_number (c :: r)
      end
  end

with parse_elements (fuel : nat) (s : jstring) (acc : list json)
    : option (json * jstring) :=
  match fuel with
  | 0 => None
  | S f =>
      match parse_value f s with
      | Some (v, r) =>
          match skip_ws r with
          | [] => None
          | c :: r' =>
              if (c =? 44)%N then parse_elements f r' (v :: acc)
              else if (c =? 93)%N then Some (JArr (rev (v :: acc)), r')
              else None
          end
      | None => None
      end
  end

with parse_members (fuel : nat) (s : jstring) (acc : list (jstring * json))
    : option (json * jstring) :=
  match fuel with
  | 0 => None
  | S f =>
      match skip_ws s with
      | [] => None
      | q :: r =>
          if (q =? 34)%N then
            match parse_chars r [] with
            | Some (key, r1) =>
                match skip_ws r1 with
                | [] => None
                | c :: r2 =>
                    if (c =? 58)%N then
                      match parse_value f r2 with
                      | Some (v, r3) =>
                          match skip_ws r3 with
                          | [] => None
                          | d :: r4 =>
                              if (d =? 44)%N
                              then parse_members f r4 (set key v acc)
                              else if (d =? 125)%N
                              then Some (JObj (set key v acc), r4)
                              else None
                          end
                      | None => None
                      end
                    else None
                end
            | None => None
            end
          else None
      end
  end.

(** [JSON.parse(text)]: one value, white space around it, nothing else;
    anything else throws a SyntaxError. *)
Definition JSON_parse (text : jstring) : outcome json :=
  match parse_value (2 * length text + 2) text with
  | Some (v, r) =>
      match skip_ws r with
      | [] => Returned v
      | _ :: _ => Thrown SyntaxError
      end
  | None => Thrown SyntaxError
  end.

(** [o[key]] for an own property of an object. *)
Fixpoint lookup (key : jstring) (l : list (jstring * json)) : option json :=
  match l with
  | [] => None
  | (k, v) :: l' => if Str.eqb k key then Some v else lookup key l'
  end.

(** [q.key] for a parsed value [q]: a TypeError on [null], [undefined]
    ([None]) when [q] has no such property. *)
Definition get (q : json) (key : jstring) : outcome (option json) :=
  match q with
  | JNull => Thrown TypeError
  | JObj l => Returned (lookup key l)
  | _ => Returned None
  end.

(** [a ?? b]: [undefined] and [null] give way to [b]. *)
Definition nullish_or (a : option json) (b : option json) : option json :=
  match a with
  | None | Some JNull => b
  | Some _ => a
  end.

(** The own enumerable properties [{...q}] copies: those of an object,
    the indexed elements of an array or a string, none otherwise. *)
Fixpoint indexed (i : nat) (l : list json) : list (jstring * json) :=
  match l with
  | [] => []
  | x :: l' => (of_nat i, x) :: indexed (S i) l'
  end.

Definition spread (q : json) : list (jstring * json) :=
  match q with
  | JObj l => l
  | JArr l => indexed 0 l
  | JStr s => indexed 0 (map (fun c => JStr [c]) s)
  | _ => []
  end.

Definition of_int (z : Z) : json := JNum z 0.

(** [x === n] for a parsed value [x] and a non-negative integer [n]. *)
Definition strict_eq_nat (x : json) (n : nat) : bool :=
  match x with
  | JNum m e =>
      if (0 <=? e)%Z then (m * 10 ^ e =? Z.of_nat n)%Z
      else (m =? Z.of_nat n * 10 ^ (- e))%Z
  | _ => false
  end.

End Json.

(* ================================================================== *)
(** * The parse step of each viewer *)
(* ================================================================== *)

Import Json.

Module QuizViewer.

Definition fl_gm : flags := {| icase := false; multiline := true |}.

(** The opening fence (flags [gm]): three backquotes at the start of a
    line, [(?:json)?], [\s*] and a line feed. *)
Definition re_fence_open : regex :=
  rseq [RBol; rlit "```"; ROpt (rlit "json"); star CSpace; rchar LF].

(** The closing fence (flags [gm]): a line feed, three backquotes, [\s*]
    and the end of a line. *)
Definition re_fence_close : regex :=
  rseq [rchar LF; rlit "```"; star CSpace; REol].

Definition cleanContent (content : jstring) : jstring :=
  trim (remove_all fl_gm re_fence_close
          (remove_all fl_gm re_fence_open (trim content))).

(** The callback of [data.map]:
    [{ ...q, correctAnswer: q.correctAnswer ?? q.correct_answer ?? 0 }]. *)
Definition normalize (q : json) : outcome json :=
  bind (get q (lit "correctAnswer")) (fun a =>
  match nullish_or a None with
  | Some v => Returned (JObj (set (lit "correctAnswer") v (spread q)))
  | None =>
      bind (get q (lit "correct_answer")) (fun b =>
      let v := match nullish_or b (Some (of_int 0)) with
               | Some v => v
               | None => of_int 0
               end in
      Returned (JObj (set (lit "correctAnswer") v (spread q))))
  end).

(** The value [normalize] stores: [correctAnswer] unless it is missing or
    null, else [correct_answer] unless it is missing or null, else 0. *)
Definition chosen_answer (l : list (jstring * json)) : json :=
  match nullish_or (lookup (lit "correctAnswer") l) None with
  | Some v => v
  | None =>
      match nullish_or (lookup (lit "correct_answer") l) None with
      | Some v => v
      | None => of_int 0
      end
  end.

(** The object literal [parseTextQuiz] pushes. *)
Definition of_question (q : Quiz.question) : json :=
  JObj [(lit "question", JStr (Quiz.q_question q));
        (lit "options", JArr (map JStr (Quiz.q_options q)));
        (lit "correctAnswer", of_int (Quiz.q_correctAnswer q));
        (lit "explanation", JStr (Quiz.q_explanation q))].

(** The [try] block. *)
Definition json_path (content : jstring) : outcome (list json) :=
  bind (JSON_parse (cleanContent content)) (fun data =>
  match data with
  | JArr l => map_outcome normalize l
  | _ => Returned []
  end).

(** The [useMemo] callback: the [questions] array. *)
Definition questions (content : jstring) : outcome (list json) :=
  try_catch (json_path content)
    (fun _ => Returned (map of_question (Quiz.parseTextQuiz content))).

(** The fields the renderer and the handlers read. *)
Definition correctAnswer (q : json) : option json :=
  match q with JObj l => lookup (lit "correctAnswer") l | _ => None end.

Definition options (q : json) : option json :=
  match q with JObj l => lookup (lit "options") l | _ => None end.

(** [options.length] when [options] is an array. *)
Definition options_length (q : json) : option nat :=
  match options q with
  | Some (JArr l) => Some (length l)
  | _ => None
  end.

(** [0 <= correctAnswer < options.length] for a question of the array. *)
Definition valid_answer (q : json) : bool :=
  match correctAnswer q, options_length q with
  | Some (JNum m e), Some n =>
      (0 <=? e)%Z && (0 <=? m)%Z && (m * 10 ^ e <? Z.of_nat n)%Z
  | _, _ => false
  end.

End QuizViewer.

Module TimelineViewer.

Definition of_event (e : Timeline.event) : json :=
  JObj [(lit "date", JStr (Timeline.date e));
        (lit "title", JStr (Timeline.title e));
        (lit "description", JStr (Timeline.description e))].

Definition json_path (content : jstring) : outcome (list json) :=
  bind (JSON_parse content) (fun data =>
  match data with
  | JArr l => Returned l
  | _ => Returned []
  end).

Definition events (content : jstring) : outcome (list json) :=
  try_catch (json_path content)
    (fun _ => Returned (map of_event (Timeline.parseTextTimeline content))).

End TimelineViewer.

Module FlashcardsViewer.

Definition of_card (c : Flashcards.card) : json :=
  JObj [(lit "front", JStr (Flashcards.front c));
        (lit "back", JStr (Flashcards.back c))].

Definition json_path (content : jstring) : outcome (list json) :=
  bind (JSON_parse content) (fun data =>
  match data with
  | JArr l => Returned l
  | _ => Returned []
  end).

Definition flashcards (content : jstring) : outcome (list json) :=
  try_catch (json_path content)
    (fun _ => Returned (map of_card (Flashcards.parseTextFlashcards content))).

(** [card.front] and [card.back] when they are strings. *)
Definition field (key : jstring) (c : json) : option jstring :=
  match c with
  | JObj l => match lookup key l with
              | Some (JStr s) => Some s
              | _ => None
              end
  | _ => None
  end.

(** A card whose front and back are strings that are non-empty after
    trimming. *)
Definition valid_card (c : json) : bool :=
  match field (lit "front") c, field (lit "back") c with
  | Some f, Some b => nonblank f && nonblank b
  | _, _ => false
  end.

End FlashcardsViewer.

Module MindMapViewer.

(** What the [useMemo] callback returns: the decoded JSON value as it
    is, or the graph of the text grammar. *)
Inductive parsed :=
| FromJson (data : json)
| FromText (m : MindMap.mindmap).

Definition parse (content : jstring) : outcome parsed :=
  try_catch (bind (JSON_parse content) (fun d => Returned (FromJson d)))
    (fun _ => Returned (FromText (MindMap.parseTextMindMap content))).

(** [const { nodes, edges } = ...]: destructuring [null] throws. *)
Inductive fields :=
| JsonFields (nodes edges : option json)
| TextFields (m : MindMap.mindmap).

Definition destructure (p : parsed) : outcome fields :=
  match p with
  | FromJson d =>
      bind (get d (lit "nodes")) (fun n =>
      bind (get d (lit "edges")) (fun e => Returned (JsonFields n e)))
  | FromText m => Returned (TextFields m)
  end.

Definition initial (content : jstring) : outcome fields :=
  bind (parse content) destructure.

End MindMapViewer.

(* ================================================================== *)
(** * The quiz session: the state and the handlers of QuizViewer *)
(* ================================================================== *)

Module Session.

Record state := {
  currentIndex : nat;
  selectedAnswer : option nat;
  showResult : bool;
  score : nat;
  completed : bool;
  answeredQuestions : list nat
}.

Definition initial : state :=
  {| currentIndex := 0; selectedAnswer := None; showResult := false;
     score := 0; completed := false; answeredQuestions := [] |}.

(** [answeredQuestions.includes(currentIndex)] *)
Definition includes (l : list nat) (i : nat) : bool := existsb (Nat.eqb i) l.

Section Handlers.

Variable questions : list json.

(** [selectedAnswer === currentQuestion.correctAnswer]; [None] when
    [questions[currentIndex]] is [undefined] and the access throws. *)
Definition isCorrect (s : state) (sel : nat) : option bool :=
  match nth_error questions (currentIndex s) with
  | Some q =>
      match QuizViewer.correctAnswer q with
      | Some v => Some (strict_eq_nat v sel)
      | None => Some false
      end
  | None => None
  end.

Definition handleAnswerSelect (index : nat) (s : state) : state :=
  if showResult s then s
  else {| currentIndex := currentIndex s; selectedAnswer := Some index;
          showResult := showResult s; score := score s;
          completed := completed s;
          answeredQuestions := answeredQuestions s |}.

(** [setShowResult(true)] is queued before the answer is compared, so it
    takes effect in every case in which a selection exists. *)
Definition handleSubmitAnswer (s : state) : state :=
  match selectedAnswer s with
  | None => s
  | Some sel =>
      match isCorrect s sel with
      | Some true =>
          if negb (includes (answeredQuestions s) (currentIndex s)) then
            {| currentIndex := currentIndex s; selectedAnswer := selectedAnswer s;
               showResult := true; score := score s + 1;
               completed := completed s;
               answeredQuestions := answeredQuestions s ++ [currentIndex s] |}
          else
            {| currentIndex := currentIndex s; selectedAnswer := selectedAnswer s;
               showResult := true; score := score s;
               completed := completed s;
               answeredQuestions := answeredQuestions s |}
      | _ =>
          {| currentIndex := currentIndex s; selectedAnswer := selectedAnswer s;
             showResult := true; score := score s;
             completed := completed s;
             answeredQuestions := answeredQuestions s |}
      end
  end.

Definition handleNextQuestion (s : state) : state :=
  if Nat.ltb (currentIndex s) (length questions - 1) then
    {| currentIndex := currentIndex s + 1; selectedAnswer := None;
       showResult := false; score := score s; completed := completed s;
       answeredQuestions := answeredQuestions s |}
  else
    {| currentIndex := currentIndex s; selectedAnswer := selectedAnswer s;
       showResult := showResult s; score := score s; completed := true;
       answeredQuestions := answeredQuestions s |}.

Definition handleRestart (s : state) : state := initial.

(** The events a user can raise. *)
Inductive event :=
| Select (index : nat)
| Submit
| Next
| Restart.

Definition handle (s : state) (e : event) : state :=
  match e with
  | Select i => handleAnswerSelect i s
  | Submit => handleSubmitAnswer s
  | Next => handleNextQuestion s
  | Restart => handleRestart s
  end.

Definition run (s : state) (es : list event) : state := fold_left handle es s.

(** The condition under which [handleSubmitAnswer] scores. *)
Definition scores (s : state) : bool :=
  match selectedAnswer s with
  | Some sel =>
      match isCorrect s sel with
      | Some true => negb (includes (answeredQuestions s) (currentIndex s))
      | _ => false
      end
  | None => false
  end.

(** What every reachable state satisfies: the score counts the scored
    question indices, which are distinct indices of the quiz. *)
Record Inv (s : state) : Prop := {
  inv_score : score s = length (answeredQuestions s);
  inv_nodup : NoDup (answeredQuestions s);
  inv_range : forall i, In i (answeredQuestions s) -> i < length questions
}.

(** Selecting and submitting on one question. *)
Definition answering (e : event) : bool :=
  match e with
  | Select _ | Submit => true
  | Next | Restart => false
  end.

End Handlers.

End Session.

(* ================================================================== *)
(** * The flashcard session: the state and the handlers of
      FlashcardsViewer *)
(* ================================================================== *)

Module FlashcardSession.

(** [currentIndex] is a JavaScript number: with an empty deck the
    remainder by [flashcards.length] is [NaN]. *)
Inductive index :=
| Idx (i : nat)
| NaN.

Record state := { currentIndex : index; isFlipped : bool }.

Definition initial : state := {| currentIndex := Idx 0; isFlipped := false |}.

(** Truthiness of a decoded value, for [flashcards[currentIndex] || ...]. *)
Definition truthy_value (v : json) : bool :=
  match v with
  | JNull => false
  | JBool b => b
  | JNum m _ => negb (m =? 0)%Z
  | JStr s => truthy s
  | JArr _ | JObj _ => true
  end.

Section Deck.

Variable flashcards : list json.

(** [(prev + 1) % flashcards.length] *)
Definition next_index (i : index) : index :=
  match i with
  | Idx n => if Nat.eqb (length flashcards) 0 then NaN
             else Idx ((n + 1) mod length flashcards)
  | NaN => NaN
  end.

(** [(prev - 1 + flashcards.length) % flashcards.length]; the dividend is
    never negative for a deck that is not empty. *)
Definition prev_index (i : index) : index :=
  match i with
  | Idx n => if Nat.eqb (length flashcards) 0 then NaN
             else Idx ((n + length flashcards - 1) mod length flashcards)
  | NaN => NaN
  end.

Definition nextCard (s : state) : state :=
  {| currentIndex := next_index (currentIndex s); isFlipped := false |}.

Definition prevCard (s : state) : state :=
  {| currentIndex := prev_index (currentIndex s); isFlipped := false |}.

Definition flipCard (s : state) : state :=
  {| currentIndex := currentIndex s; isFlipped := negb (isFlipped s) |}.

(** [flashcards[currentIndex] || { front: 'No flashcards', ... }]:
    [None] stands for the placeholder object. *)
Definition currentCard (s : state) : option json :=
  match currentIndex s with
  | Idx n =>
      match nth_error flashcards n with
      | Some c => if truthy_value c then Some c else None
      | None => None
      end
  | NaN => None
  end.

Inductive event := NextCard | PrevCard | FlipCard.

Definition handle (s : state) (e : event) : state :=
  match e with
  | NextCard => nextCard s
  | PrevCard => prevCard s
  | FlipCard => flipCard s
  end.

Definition run (s : state) (es : list event) : state := fold_left handle es s.

(** The index is a position of the deck. *)
Definition in_deck (s : state) : Prop :=
  exists n, currentIndex s = Idx n /\ n < length flashcards.

End Deck.

End FlashcardSession.

(* ================================================================== *)
(** * Runs of the quiz session *)
(* ================================================================== *)

Module SessionRuns.

Import Session.

(** Answering every question in turn: select, submit, move on. *)
Definition answer_all (answers : list nat) : list event :=
  flat_map (fun a => [Select a; Submit; Next]) answers.

(** [a] is the index the question [q] holds as its correctAnswer. *)
Definition is_answer_of (q : json) (a : nat) : Prop :=
  exists v, QuizViewer.correctAnswer q = Some v /\ strict_eq_nat v a = true.

(** What the handlers keep true of the position in the quiz. *)
Record Placed (questions : list json) (s : state) : Prop := {
  placed_index : currentIndex s < length questions;
  placed_completed : completed s = true -> currentIndex s = length questions - 1;
  placed_revealed : showResult s = true -> selectedAnswer s <> None
}.

End SessionRuns.

(* ================================================================== *)
(** * The JSON path of the quiz, element by element *)
(* ================================================================== *)

Module QuizJson.

Definition is_null (q : json) : bool :=
  match q with JNull => true | _ => false end.

(** [undefined] or [null]. *)
Definition nullish (o : option json) : bool :=
  match o with
  | None | Some JNull => true
  | Some _ => false
  end.

Definition key_correctAnswer : jstring := lit "correctAnswer".
Definition key_correct_answer : jstring := lit "correct_answer".

End QuizJson.

(* ================================================================== *)
(** * Concrete inputs *)
(* ================================================================== *)

Module Inputs.

(** Two-space indents, the last line indented by one space. *)
Definition outline_dedent : jstring :=
  join [LF] [lit "A"; lit "  B"; lit "    C"; lit "  D"; lit " E"].

(** A dedent to depth 1 followed by a line at depth 2. *)
Definition outline_reindent : jstring :=
  join [LF] [lit "A"; lit "  B"; lit "    C"; lit "  D"; lit "    E"].

(** Quiz blocks: one answered "B", one answered with a bold "C", one whose
    answer line names no letter, and one answered "D" with two options. *)
Definition quiz_B : jstring :=
  join [LF] [lit "1. What is 2+2?"; lit "A) 3"; lit "B) 4"; lit "Answer: B"].

Definition quiz_C : jstring :=
  join [LF] [lit "Question: Capital of France?"; lit "a. Berlin"; lit "b. Rome";
             lit "(c) Paris"; lit "Correct Answer: **C**"].

Definition quiz_none : jstring :=
  join [LF] [lit "Q2: Pick"; lit "A) yes"; lit "B) no"; lit "Answer: see text"].

Definition quiz_D : jstring :=
  join [LF] [lit "Question: Pick one"; lit "A) yes"; lit "B) no"; lit "Answer: D"].

(** A JSON quiz whose correctAnswer is not an index of its options. *)
Definition quiz_json_7 : jstring :=
  qlit "[{'question':'q','options':['a','b'],'correctAnswer':7}]".

(** Flashcards: a Q:/A: deck, a numbered block whose first line is only
    the numbering, and a JSON deck with an empty front. *)
Definition cards_qa : jstring :=
  join [LF] [lit "Q: What is Rocq?"; lit "A: A proof assistant"; lit "";
             lit "Question: And stdpp?"; lit "Answer:"; lit "a library"].

Definition cards_numbered : jstring :=
  join [LF] [lit "1."; lit "back"].

Definition cards_json_empty_front : jstring :=
  qlit "[{'front':'','back':'x'}]".

(** A JSON payload inside one fenced code block tagged json. *)
Definition fence (payload : jstring) : jstring :=
  join [LF] [lit "```json"; payload; lit "```"].

Definition timeline_json : jstring :=
  qlit "[{'date':'1969','title':'Moon Landing','description':''}]".

Definition cards_json : jstring :=
  qlit "[{'front':'f','back':'b'}]".

Definition mindmap_json : jstring :=
  qlit "{'nodes':[],'edges':[]}".

Definition quiz_json : jstring :=
  qlit "[{'question':'q','options':['a','b'],'correct_answer':1}]".

End Inputs.

(* ================================================================== *)
(** * Payloads inside fences *)
(* ================================================================== *)

Module Fences.

(** A payload inside an untagged fenced block. *)
Definition fence_plain (payload : jstring) : jstring :=
  join [LF] [lit "```"; payload; lit "```"].

(** Neither the first nor the last code unit is white space (and there
    is one). *)
Definition tight (s : jstring) : bool :=
  match s with
  | [] => false
  | c :: _ => negb (is_space c) && negb (is_space (last s c))
  end.

Definition backquote : char := 96%N.

Definition no_backquote (s : jstring) : bool :=
  forallb (fun c => negb (c =? backquote)%N) s.

(** What the opening pattern still has to match after the optional tag:
    white space up to a line feed. *)
Definition after_tag : mstate -> option mstate :=
  fun st => rmatch QuizViewer.fl_gm (RSeq (star CSpace) (rchar LF)) st Some.

End Fences.

(* ================================================================== *)
(** * The layout of the outline *)
(* ================================================================== *)

Module MindMapLayout.

Import MindMap.

(** The node [n] is the one made from line [k] of [lines]. *)
Definition from_line (lines : list jstring) (n : node) (k : nat) : Prop :=
  exists line,
    nth_error lines k = Some line
    /\ label n = clean_text line
    /\ truthy (label n) = true
    /\ depth n = level_of line
    /\ position_x n = 250 * depth n
    /\ position_y n = 100 * k
    /\ type n = (if Nat.eqb (depth n) 0 then lit "input" else lit "default").

(** What the loop keeps true after the first [index] lines. *)
Record Laid (lines : list jstring) (index : nat) (st : pstate) : Prop := {
  laid_nodes : forall n, In n (st_nodes st) ->
                 exists k, k < index /\ from_line lines n k;
  laid_order : StronglySorted lt (map position_y (st_nodes st));
  laid_targets : forall e, In e (st_edges st) ->
                   exists n, In n (st_nodes st) /\ id n = target e
                             /\ 1 <= depth n;
  laid_edge_ids : map edge_id (st_edges st)
                  = map edge_name (seq 0 (length (st_edges st)))
}.

(** The lines the loop runs over. *)
Definition lines_of (text : jstring) : list jstring :=
  filter nonblank (split_lines text).

(** A line that gives a label: its cleaned text is not empty. *)
Definition has_label (line : jstring) : bool := truthy (clean_text line).

(** The lines that give a label, each with its index among the lines. *)
Definition labelled (lines : list jstring) : list (nat * jstring) :=
  filter (fun p => has_label (snd p)) (combine (seq 0 (length lines)) lines).

(** One node per labelled line, in line order: the j-th labelled line,
    at index k, gives the node "node-j" with the line's cleaned text, its
    depth, and the row k. *)
Definition expected_nodes (lines : list jstring) : list node :=
  map (fun q => mk_node (node_id (fst q)) (clean_text (snd (snd q)))
                  (level_of (snd (snd q))) (fst (snd q)))
      (combine (seq 0 (length (labelled lines))) (labelled lines)).

End MindMapLayout.

(* ================================================================== *)
(** * Texts written in the formats the grammars read *)
(* ================================================================== *)

Module Formats.

(** The blank-line separator [/\n\s*\n/] the three grammars split at. *)
Definition sep : regex := rseq [rchar LF; star CSpace; rchar LF].

(** No line feed inside. *)
Definition one_line (s : jstring) : bool :=
  forallb (fun c => negb (c =? LF)%N) s.

(** No line terminator inside: what [.] accepts throughout. *)
Definition dot_only (s : jstring) : bool :=
  forallb (fun c => negb (is_line_terminator c)) s.

(** No closing bracket inside. *)
Definition no_bracket (s : jstring) : bool :=
  forallb (fun c => negb (c =? 93)%N) s.

(** The backend's timeline entry: [[date]: title], then a description
    line. *)
Definition timeline_entry (date title description : jstring) : jstring :=
  lit "[" ++ date ++ lit "]: " ++ title ++ [LF] ++ description.

(** A flashcard written as a Q:/A: pair. *)
Definition qa_card (front back : jstring) : jstring :=
  lit "Q: " ++ front ++ [LF] ++ lit "A: " ++ back.

End Formats.

(* ================================================================== *)
(** * The bullet pass of the timeline *)
(* ================================================================== *)

Module TimelineBullets.

Import Timeline.

(** The text a heading line sets as current date. *)
Definition heading_date (line : jstring) : jstring :=
  remove_match noflags re_heading (trim line).

(** [d] is the date some heading line of [lines] sets. *)
Definition set_by_heading (lines : list jstring) (d : jstring) : Prop :=
  exists line, In line lines
    /\ test noflags re_heading (trim line) = true
    /\ d = heading_date line.

(** What the bullet pass keeps true of an event. *)
Definition bullet_event (lines : list jstring) (e : event) : Prop :=
  description e = []
  /\ (date e = lit "Unknown" \/ (date e <> [] /\ set_by_heading lines (date e))).

End TimelineBullets.

(* ================================================================== *)
(** * The lines of a quiz section, by the branch they take *)
(* ================================================================== *)

Module QuizLines.

Import Quiz.

Definition kind_eqb (a b : line_kind) : bool :=
  match a, b with
  | KQuestion, KQuestion | KOption, KOption | KAnswer, KAnswer
  | KExplanation, KExplanation | KOther, KOther => true
  | _, _ => false
  end.

(** The branch the line takes in the loop. *)
Definition has_kind (k : line_kind) (raw : jstring) : bool :=
  kind_eqb (classify (trim raw)) k.

(** What the question, option and explanation branches store. *)
Definition question_text (raw : jstring) : jstring :=
  trim (remove_match fl_i re_question_strip (trim raw)).
Definition option_text (raw : jstring) : jstring :=
  trim (remove_match noflags re_option_strip (trim raw)).
Definition explanation_text (raw : jstring) : jstring :=
  trim (remove_match fl_i re_explanation_strip (trim raw)).

(** A section read at once: the last question line, every option line in
    order, the last resolved answer, the last explanation line. *)
Definition section_question (lines : list jstring) : option question :=
  let question := last (map question_text (filter (has_kind KQuestion) lines)) [] in
  let options := map option_text (filter (has_kind KOption) lines) in
  let answer := last_resolved lines (-1) in
  let explanation :=
    last (map explanation_text (filter (has_kind KExplanation) lines)) [] in
  if Nat.leb 2 (length lines) && truthy question && Nat.leb 2 (length options)
  then Some {| q_question := question;
               q_options := options;
               q_correctAnswer := if Z.eqb answer (-1) then 0%Z else answer;
               q_explanation := explanation |}
  else None.

End QuizLines.

(* ================================================================== *)
(** * Outlines that never step back *)
(* ================================================================== *)

Module StepwiseOutline.

Import MindMap.

(** A line that gives a node: its cleaned text is not empty. *)
Definition kept (line : jstring) : bool := truthy (clean_text line).

(** Every depth is the one before it or one more. *)
Fixpoint stepwise_from (cur : nat) (levels : list nat) : bool :=
  match levels with
  | [] => true
  | l :: rest => (Nat.eqb l cur || Nat.eqb l (S cur)) && stepwise_from l rest
  end.

(** A first line at depth 0, and no later line that steps back or skips
    a depth. *)
Definition stepwise (levels : list nat) : bool :=
  match levels with
  | [] => false
  | l :: rest => Nat.eqb l 0 && stepwise_from 0 rest
  end.

(** The depths of the lines of [text] that give a node. *)
Definition levels_of (text : jstring) : list nat :=
  map level_of (filter kept (filter nonblank (split_lines text))).

(** The id of the last node of depth [d]. *)
Definition latest (d : nat) (ns : list node) : option jstring :=
  option_map id (find (fun p => Nat.eqb (depth p) d) (rev ns)).

(** The sources of the edges that end in [i]. *)
Definition sources_into (es : list edge) (i : jstring) : list jstring :=
  map source (filter (fun e => Str.eqb (target e) i) es).

(** The loop state before the first node. *)
Definition Fresh (st : pstate) : Prop :=
  st_nodes st = [] /\ st_edges st = [] /\ nodeStack st = []
  /\ currentLevel st = 0.

(** What the loop keeps true from the first node on, as long as no line
    steps back: the stack holds, for every depth up to the current one,
    the last node of that depth, and every node has the edges the data
    model asks for. *)
Record Going (st : pstate) : Prop := {
  going_nodes : st_nodes st <> [];
  going_len : length (nodeStack st) = S (currentLevel st);
  going_stack : forall d, d <= currentLevel st ->
    exists x, nth_error (nodeStack st) d = Some (Some x)
              /\ latest d (st_nodes st) = Some x;
  going_roots : forall k n, nth_error (st_nodes st) k = Some n ->
    depth n = 0 -> sources_into (st_edges st) (id n) = [];
  going_parents : forall k n d, nth_error (st_nodes st) k = Some n ->
    depth n = S d ->
    exists p, nearest_parent (st_nodes st) k = Some p
              /\ sources_into (st_edges st) (id n) = [p]
}.

(** The depths the loop can take next without breaking [Going]. *)
Definition admissible (st : pstate) (levels : list nat) : bool :=
  match st_nodes st with
  | [] => stepwise levels
  | _ :: _ => stepwise_from (currentLevel st) levels
  end.

End StepwiseOutline.

(* ================================================================== *)
(** * A timeline entry that starts with a year *)
(* ================================================================== *)

Module YearEntry.

(** Four digits. *)
Definition is_year (y : jstring) : bool :=
  forallb is_digit y && Nat.eqb (length y) 4.

(** A title the separator pattern leaves alone: it does not start with
    white space, a colon or a hyphen. *)
Definition plain_start (s : jstring) : bool :=
  match s with
  | [] => false
  | c :: _ => negb (is_space c || (c =? 58)%N || (c =? 45)%N)
  end.

(** [year: title], then a description line. *)
Definition year_entry (year title description : jstring) : jstring :=
  year ++ lit ": " ++ title ++ [LF] ++ description.

End YearEntry.

(* ================================================================== *)
(** * The sections of a numbered quiz *)
(* ================================================================== *)

Module QuizSections.

Import Quiz.

(** [text.split(/(?=^\d+\.)/m)] *)
Definition numbered_sections (text : jstring) : list jstring :=
  split fl_m re_numbered text.

Definition starts_with_digit (s : jstring) : bool :=
  match s with
  | c :: _ => is_digit c
  | [] => false
  end.

End QuizSections.

(* ================================================================== *)
(** * Timeline blocks that give no event *)
(* ================================================================== *)

Module BareDates.

Import Timeline.

(** The blocks the first pass runs over. *)
Definition blocks_of (text : jstring) : list jstring :=
  filter nonblank (split noflags re_blank_line text).

(** A first line that is a date and nothing else: it is not in the
    bracket form, it starts with a date, and nothing but separators and
    white space is left once the date is taken out. *)
Definition bare_date_line (l0 : jstring) : bool :=
  match search noflags re_backend l0 with
  | Some _ => false
  | None =>
      match search noflags re_date l0 with
      | Some dm =>
          negb (truthy (trim (remove_match noflags re_separators
                                (remove_first (matched dm) l0))))
      | None => false
      end
  end.

Definition bare_date_block (block : jstring) : bool :=
  match block_lines block with
  | l0 :: _ => bare_date_line l0
  | [] => false
  end.

End BareDates.

(* ================================================================== *)
(** * A flashcard written as a numbered item *)
(* ================================================================== *)

Module NumberedCard.

(** One digit or more. *)
Definition is_number (s : jstring) : bool := truthy s && forallb is_digit s.

(** Not a line the Q: marker could match: it does not start with the
    letter Q in either case. *)
Definition not_q_start (s : jstring) : bool :=
  match s with
  | [] => false
  | c :: _ => negb ((c =? 81)%N || (c =? 113)%N)
  end.

(** [n. front], then the back on one line. *)
Definition numbered_card (num front back : jstring) : jstring :=
  num ++ lit ". " ++ front ++ [LF] ++ back.

End NumberedCard.

(* ================================================================== *)
(** * The two readings of an outline line *)
(* ================================================================== *)

Module OutlineLine.

(** The five code units of the bullet class of the outline grammar:
    [-], [*], U+00E2, U+20AC and U+00A2. *)
Definition in_bullet_class (c : char) : bool :=
  ((c =? 45) || (c =? 42) || (c =? 226) || (c =? 8364) || (c =? 162))%N.

(** The white space a line starts with. *)
Fixpoint leading_space (s : jstring) : jstring :=
  match s with
  | c :: s' => if is_space c then c :: leading_space s' else []
  | [] => []
  end.

End OutlineLine.

(* ================================================================== *)
(** * Where the dates of timeline events come from *)
(* ================================================================== *)

Module TimelineDates.

Import Timeline TimelineBullets.

(** The least number of code units a pattern consumes. *)
Fixpoint min_len (r : regex) : nat :=
  match r with
  | REps | RBol | REol | RWordB => 0
  | RSet _ => 1
  | RRep _ mn _ => mn
  | ROpt _ => 0
  | RSeq r1 r2 => min_len r1 + min_len r2
  | RAlt r1 r2 => Nat.min (min_len r1) (min_len r2)
  | RGroup _ r1 => min_len r1
  | RAhead _ => 0
  end.

(** The numbers of the groups of a pattern. *)
Fixpoint groups (r : regex) : list nat :=
  match r with
  | REps | RBol | REol | RWordB | RSet _ | RRep _ _ _ => []
  | ROpt r1 | RAhead r1 => groups r1
  | RSeq r1 r2 | RAlt r1 r2 => groups r1 ++ groups r2
  | RGroup n r1 => n :: groups r1
  end.

(** The variable [date] of a block before [date || 'Unknown'] is
    applied: the bracket's content, the matched date, or the literal
    "Date Unknown". *)
Definition block_date (l0 : jstring) : jstring :=
  match search noflags re_backend l0 with
  | Some bf => group 1 bf
  | None =>
      match search noflags re_date l0 with
      | Some dm => group 1 dm
      | None => lit "Date Unknown"
      end
  end.

(** The branch a line takes in the bullet pass. *)
Definition is_heading (line : jstring) : bool :=
  test noflags re_heading (trim line).

Definition is_item (line : jstring) : bool :=
  negb (is_heading line)
  && (test noflags re_bullet (trim line)
      || test noflags re_numbering (trim line)).

(** The title a bullet or numbered line gives. *)
Definition item_text (line : jstring) : jstring :=
  if test noflags re_bullet (trim line)
  then remove_match noflags re_bullet (trim line)
  else remove_match noflags re_numbering (trim line).

(** The text of the latest heading among [pre]; empty when there is
    none. *)
Definition current_date (pre : list jstring) : jstring :=
  last (map heading_date (filter is_heading pre)) [].

(** The date of an item that comes after the lines [pre]. *)
Definition date_at (pre : list jstring) : jstring :=
  if truthy (current_date pre) then current_date pre else lit "Unknown".

(** The event of the item at index [k]. *)
Definition bullet_event_at (lines : list jstring) (k : nat) : event :=
  {| date := date_at (firstn k lines);
     title := item_text (nth k lines []);
     description := [] |}.

(** One event per bullet or numbered line, in line order. *)
Definition expected_bullets (lines : list jstring) : list event :=
  map (bullet_event_at lines)
      (filter (fun k => is_item (nth k lines [])) (seq 0 (length lines))).

End TimelineDates.

(* ================================================================== *)
(** * Facts about strings and the matcher *)
(* ================================================================== *)

Module StrFacts.

Lemma truthy_rev (s : jstring) : truthy (rev s) = truthy s.
Proof.
  destruct s as [|c s]; auto. simpl.
  destruct (rev s ++ [c]) eqn:E; auto.
  now apply app_eq_nil in E as [_ [=]].
Qed.

Lemma truthy_dropWhile p s :
  truthy (dropWhile p s) = existsb (fun c => negb (p c)) s.
Proof.
  induction s as [|c s IH]; simpl; auto.
  destruct (p c); simpl; auto.
Qed.

Lemma existsb_dropWhile p s :
  existsb (fun c => negb (p c)) (dropWhile p s) = existsb (fun c => negb (p c)) s.
Proof.
  induction s as [|c s IH]; simpl; auto.
  destruct (p c) eqn:E; simpl; auto. now rewrite E.
Qed.

Lemma existsb_rev' {A} (f : A -> bool) l : existsb f (rev l) = existsb f l.
Proof.
  induction l as [|x l IH]; simpl; auto.
  rewrite existsb_app, IH. simpl. rewrite orb_false_r. apply orb_comm.
Qed.

(** A line survives [filter(l => l.trim())] exactly when it has ink. *)
Lemma nonblank_ink s : nonblank s = ink s.
Proof.
  unfold nonblank, trim, ink.
  now rewrite truthy_rev, truthy_dropWhile, existsb_rev', existsb_dropWhile.
Qed.

Lemma ink_trim s : ink (trim s) = ink s.
Proof.
  unfold trim, ink.
  now rewrite existsb_rev', existsb_dropWhile, existsb_rev', existsb_dropWhile.
Qed.

Lemma nonblank_trim s : nonblank (trim s) = nonblank s.
Proof. now rewrite !nonblank_ink, ink_trim. Qed.

Lemma ink_truthy s : ink s = true -> truthy s = true.
Proof. now destruct s. Qed.

Lemma nonblank_truthy s : nonblank s = true -> truthy s = true.
Proof. rewrite nonblank_ink. apply ink_truthy. Qed.

Lemma ink_app_r a b : ink b = true -> ink (a ++ b) = true.
Proof.
  unfold ink. intros H. rewrite existsb_app, H. apply orb_true_r.
Qed.

Lemma ink_app_l a b : ink a = true -> ink (a ++ b) = true.
Proof.
  unfold ink. intros H. now rewrite existsb_app, H.
Qed.

(** What is left after a run of white space is dropped is empty or has
    ink. *)
Lemma dropWhile_space_ink (p : char -> bool) s :
  (forall c, p c = is_space c) ->
  dropWhile p s = [] \/ ink (dropWhile p s) = true.
Proof.
  intros Hp. induction s as [|c s IH]; simpl; auto.
  destruct (p c) eqn:E; auto.
  right. unfold ink. simpl. now rewrite <- Hp, E.
Qed.

Lemma in_filter_nonblank l (ls : list jstring) :
  In l (filter nonblank ls) -> ink l = true.
Proof.
  intros H. apply filter_In in H as [_ H]. now rewrite <- nonblank_ink.
Qed.

Lemma ink_join_LF (ls : list jstring) :
  ls <> [] -> (forall l, In l ls -> ink l = true) -> ink (join [LF] ls) = true.
Proof.
  destruct ls as [|l ls]; [easy|]. intros _ H.
  destruct ls as [|l' ls]; simpl.
  - apply H. now left.
  - apply ink_app_l. apply H. now left.
Qed.

End StrFacts.

Module ReFacts.

(** Whatever a pattern matches, the result comes out of the
    continuation. *)
Lemma greedy_cont p : forall a mn mx b cp k x,
  greedy p mn mx b a cp k = Some x -> exists st, k st = Some x.
Proof.
  induction a as [|c a IH]; intros mn mx b cp k x; simpl.
  - destruct mx as [[|m]|], mn; try discriminate; eauto.
  - assert (Hstop : match mn with 0 => k (MState b (c :: a) cp) | S _ => None end = Some x
                    -> exists st, k st = Some x).
    { destruct mn; try discriminate; eauto. }
    destruct mx as [[|m]|]; auto.
    + destruct (p c); auto.
      destruct (greedy p (Nat.pred mn) (option_map Nat.pred (Some (S m))) (c :: b) a cp k) eqn:E; auto.
      intros [= <-]. eapply IH; eauto.
    + destruct (p c); auto.
      destruct (greedy p (Nat.pred mn) (option_map Nat.pred None) (c :: b) a cp k) eqn:E; auto.
      intros [= <-]. eapply IH; eauto.
Qed.

Lemma rmatch_cont fl r : forall st k x,
  rmatch fl r st k = Some x -> exists st', k st' = Some x.
Proof.
  induction r; intros st k x; simpl.
  - eauto.
  - destruct (after st) as [|c a]; try discriminate.
    destruct (cs_mem (icase fl) cs c); try discriminate. eauto.
  - apply greedy_cont.
  - destruct (rmatch fl r st k) eqn:E.
    + intros [= <-]. eauto.
    + eauto.
  - intros H. apply IHr1 in H as (st1 & H). eauto.
  - destruct (rmatch fl r1 st k) eqn:E.
    + intros [= <-]. eauto.
    + eauto.
  - intros H. apply IHr in H as (st1 & H). eauto.
  - destruct (at_bol fl st); try discriminate. eauto.
  - destruct (at_eol fl st); try discriminate. eauto.
  - destruct (xorb (word_before st) (word_after st)); try discriminate. eauto.
  - destruct (rmatch fl r st Some); try discriminate. eauto.
Qed.

Lemma rseq_cons r l : l <> [] -> rseq (r :: l) = RSeq r (rseq l).
Proof. destruct l; easy. Qed.

(** The last pattern of a sequence is the one that hands over to the
    continuation. *)
Lemma rseq_last fl tail : forall pre st k x,
  rmatch fl (rseq (pre ++ [tail])) st k = Some x ->
  exists st', rmatch fl tail st' k = Some x.
Proof.
  induction pre as [|r pre IH]; intros st k x.
  - simpl. eauto.
  - rewrite <- app_comm_cons, rseq_cons.
    + simpl. intros H. apply rmatch_cont in H as (st1 & H). eauto.
    + intros E. now apply app_eq_nil in E as [_ [=]].
Qed.

(** A greedy star that is last in the pattern takes the whole run. *)
Lemma greedy_star_all p : forall a b cp,
  exists b', greedy p 0 None b a cp Some = Some (MState b' (dropWhile p a) cp).
Proof.
  induction a as [|c a IH]; intros b cp; simpl; eauto.
  destruct (p c); eauto.
  destruct (IH (c :: b) cp) as (b' & ->). eauto.
Qed.

Lemma star_last_after fl cs st x :
  rmatch fl (star cs) st Some = Some x ->
  after x = dropWhile (cs_mem (icase fl) cs) (after st).
Proof.
  simpl. destruct (greedy_star_all (cs_mem (icase fl) cs) (after st) (before st) (caps st))
    as (b' & ->). now intros [= <-].
Qed.

(** What a greedy repetition hands to its continuation: the state after
    a run of at least the minimum length. *)
Lemma greedy_consumed p : forall a mn mx b cp k x,
  greedy p mn mx b a cp k = Some x ->
  exists d a', a = d ++ a' /\ mn <= length d
               /\ k (MState (rev d ++ b) a' cp) = Some x.
Proof.
  induction a as [|c a IH]; intros mn mx b cp k x.
  - simpl. destruct mx as [[|m]|], mn; try discriminate;
      intros H; exists [], []; auto.
  - assert (Hstop : match mn with 0 => k (MState b (c :: a) cp) | S _ => None end
                    = Some x ->
                    exists d a', c :: a = d ++ a' /\ mn <= length d
                                 /\ k (MState (rev d ++ b) a' cp) = Some x).
    { destruct mn; try discriminate. intros H. exists [], (c :: a). auto. }
    assert (Hrec : forall mx', 
              greedy p (Nat.pred mn) mx' (c :: b) a cp k = Some x ->
              exists d a', c :: a = d ++ a' /\ mn <= length d
                           /\ k (MState (rev d ++ b) a' cp) = Some x).
    { intros mx' H. apply IH in H as (d & a' & -> & Hmn & Hk).
      exists (c :: d), a'. cbn [rev length app]. rewrite <- app_assoc.
      repeat split; auto. lia. }
    cbn [greedy].
    destruct mx as [[|m]|]; auto.
    + destruct (p c); auto.
      destruct (greedy p (Nat.pred mn) (option_map Nat.pred (Some (S m))) (c :: b) a cp k) eqn:E; auto.
      intros [= <-]. eapply Hrec; eauto.
    + destruct (p c); auto.
      destruct (greedy p (Nat.pred mn) (option_map Nat.pred None) (c :: b) a cp k) eqn:E; auto.
      intros [= <-]. eapply Hrec; eauto.
Qed.

(** A pattern that starts with [^] (without the [m] flag) matches at
    position 0 or nowhere. *)
Lemma anchored_later fl r : multiline fl = false ->
  forall a c b, search_from fl (RSeq RBol r) (c :: b) a = None.
Proof.
  intros Hm. induction a as [|d a IH]; intros c b; simpl.
  - unfold match_at. simpl. unfold at_bol. simpl. now rewrite Hm.
  - unfold match_at. simpl. unfold at_bol. simpl. rewrite Hm. simpl. apply IH.
Qed.

Lemma search_anchored fl r s : multiline fl = false ->
  search fl (RSeq RBol r) s
  = match match_at fl (RSeq RBol r) [] s with
    | Some st => Some ([], st)
    | None => None
    end.
Proof.
  intros Hm. unfold search. destruct s as [|c s]; simpl.
  - now destruct (match_at fl (RSeq RBol r) [] []).
  - destruct (match_at fl (RSeq RBol r) [] (c :: s)); auto.
    now apply anchored_later.
Qed.

(** A search result is a match at the position it reports. *)
Lemma search_from_match fl r : forall a b b0 st,
  search_from fl r b a = Some (b0, st) ->
  exists a0, match_at fl r b0 a0 = Some st.
Proof.
  induction a as [|c a IH]; intros b b0 st; simpl.
  - destruct (match_at fl r b []) eqn:E; try discriminate.
    intros [= <- <-]. eauto.
  - destruct (match_at fl r b (c :: a)) eqn:E.
    + intros [= <- <-]. eauto.
    + apply IH.
Qed.

(** Removing the match of an anchored pattern that ends in [\s*] from a
    string with ink leaves nothing or a string with ink. *)
Lemma remove_anchored_star fl pre s :
  multiline fl = false ->
  ink s = true ->
  let r := rseq (RBol :: pre ++ [star CSpace]) in
  remove_match fl r s = [] \/ ink (remove_match fl r s) = true.
Proof.
  intros Hm Hs r. unfold remove_match, r.
  rewrite rseq_cons by (intros E; now apply app_eq_nil in E as [_ [=]]).
  rewrite search_anchored by exact Hm.
  destruct (match_at fl _ [] s) as [st|] eqn:E; auto.
  unfold match_at in E.
  rewrite <- rseq_cons in E by (intros E'; now apply app_eq_nil in E' as [_ [=]]).
  rewrite app_comm_cons in E.
  apply rseq_last in E as (st' & E).
  apply star_last_after in E. simpl. rewrite E.
  now apply StrFacts.dropWhile_space_ink.
Qed.

End ReFacts.

(* ================================================================== *)
(** * [JSON_parse] does not depend on its fuel *)
(* ================================================================== *)

Module JsonFacts.

Import Json.

Lemma skip_ws_length s : length (skip_ws s) <= length s.
Proof.
  unfold skip_ws. induction s as [|c s IH]; simpl; auto.
  destruct (is_ws c); simpl; lia.
Qed.

Lemma parse_chars_shorter s : forall acc str r,
  parse_chars s acc = Some (str, r) -> length r < length s.
Proof.
  induction s as [s IH] using (well_founded_induction
                                 (Wf_nat.well_founded_ltof _ (@length char))).
  unfold Wf_nat.ltof in IH.
  intros acc str r. destruct s as [|c s]; simpl; try discriminate.
  destruct (c =? 34)%N.
  { intros [= _ <-]. lia. }
  destruct (c =? 92)%N.
  { destruct s as [|e s1]; try discriminate.
    destruct (e =? 117)%N.
    - destruct s1 as [|h1 [|h2 [|h3 [|h4 r2]]]]; try discriminate.
      destruct (hex4 h1 h2 h3 h4); try discriminate.
      intros H. apply IH in H; simpl in *; lia.
    - destruct (escape e); try discriminate.
      intros H. apply IH in H; simpl in *; lia. }
  destruct (c <? 32)%N; try discriminate.
  intros H. apply IH in H; simpl in *; lia.
Qed.

Lemma digits_length s : forall v n v' n' r,
  digits s v n = (v', n', r) -> length r + n' = length s + n.
Proof.
  induction s as [|c s IH]; intros v n v' n' r; simpl.
  - intros [= <- <- <-]. reflexivity.
  - destruct (is_digit c).
    + intros H. apply IH in H. lia.
    + intros [= <- <- <-]. reflexivity.
Qed.

Lemma parse_number_shorter s v r :
  parse_number s = Some (v, r) -> length r < length s.
Proof.
  unfold parse_number.
  set (p := match s with
            | c :: r0 => if (c =? 45)%N then (true, r0) else (false, s)
            | [] => (false, s)
            end).
  assert (Hp : length (snd p) <= length s).
  { unfold p. destruct s as [|c s']; simpl; auto. destruct (c =? 45)%N; simpl; lia. }
  destruct p as [neg s1]. simpl in Hp.
  destruct (digits s1 0%Z 0) as [[iv ilen] s2] eqn:Ed.
  apply digits_length in Ed.
  destruct (Nat.eqb ilen 0) eqn:E0; simpl; try discriminate.
  apply Nat.eqb_neq in E0.
  destruct (match s1 with
            | [] => false
            | c :: _ => (c =? 48)%N && Nat.ltb 1 ilen
            end); try discriminate.
  assert (Hfrac : forall m flen s3,
             match s2 with
             | [] => Some (iv, 0, s2)
             | c :: r0 =>
                 if (c =? 46)%N
                 then let '(fv, flen0, s4) := digits r0 iv 0 in
                      if Nat.eqb flen0 0 then None else Some (fv, flen0, s4)
                 else Some (iv, 0, s2)
             end = Some (m, flen, s3) -> length s3 <= length s2).
  { intros m flen s3. destruct s2 as [|c r0].
    - intros [= <- <- <-]. lia.
    - destruct (c =? 46)%N.
      + destruct (digits r0 iv 0) as [[fv flen0] s4] eqn:Ef.
        apply digits_length in Ef.
        destruct (Nat.eqb flen0 0); try discriminate.
        intros [= <- <- <-]. simpl. lia.
      + intros [= <- <- <-]. lia. }
  destruct (match s2 with
            | [] => Some (iv, 0, s2)
            | c :: r0 => _
            end) as [[[m flen] s3]|]; try discriminate.
  pose proof (Hfrac _ _ _ eq_refl) as Ef.
  destruct s3 as [|c r0].
  - intros [= _ <-]. simpl in *. lia.
  - destruct ((c =? 101)%N || (c =? 69)%N).
    + set (q := match r0 with
                | d :: r' => if (d =? 45)%N then (true, r')
                             else if (d =? 43)%N then (false, r') else (false, r0)
                | [] => (false, r0)
                end).
      assert (Hq : length (snd q) <= length r0).
      { unfold q. destruct r0 as [|d r']; simpl; auto.
        destruct (d =? 45)%N; simpl; [lia|]. destruct (d =? 43)%N; simpl; lia. }
      destruct q as [eneg r1]. simpl in Hq.
      destruct (digits r1 0%Z 0) as [[ev elen] s4] eqn:Ee.
      apply digits_length in Ee.
      destruct (Nat.eqb elen 0); try discriminate.
      intros [= _ <-]. simpl in *. lia.
    + intros [= _ <-]. simpl in *. lia.
Qed.

Lemma literal_shorter w v c s x r :
  w <> [] -> literal w v (c :: s) = Some (x, r) -> length r < length (c :: s).
Proof.
  unfold literal. intros Hw. destruct (is_prefix w (c :: s)); try discriminate.
  intros [= _ <-]. rewrite length_skipn. destruct w; [easy|]. simpl. lia.
Qed.

(** Every successful parse consumes at least one code unit. *)
Lemma parse_shorter f :
  (forall s v r, parse_value f s = Some (v, r) -> length r < length s)
  /\ (forall s acc v r,
        parse_elements f s acc = Some (v, r) -> length r < length s)
  /\ (forall s acc v r,
        parse_members f s acc = Some (v, r) -> length r < length s).
Proof.
  induction f as [|f (IHv & IHe & IHm)]; [repeat split; discriminate|].
  repeat split.
  - intros s v r. simpl. pose proof (skip_ws_length s) as Hs.
    destruct (skip_ws s) as [|c r0]; try discriminate. simpl in Hs.
    destruct (c =? 34)%N.
    { destruct (parse_chars r0 []) as [[str r']|] eqn:E; try discriminate.
      apply parse_chars_shorter in E. intros [= _ <-]. lia. }
    destruct (c =? 91)%N.
    { pose proof (skip_ws_length r0) as Hr.
      destruct (skip_ws r0) as [|c' r']; try discriminate. simpl in Hr.
      destruct (c' =? 93)%N.
      - intros [= _ <-]. lia.
      - intros H. apply IHe in H. lia. }
    destruct (c =? 123)%N.
    { pose proof (skip_ws_length r0) as Hr.
      destruct (skip_ws r0) as [|c' r']; try discriminate. simpl in Hr.
      destruct (c' =? 125)%N.
      - intros [= _ <-]. lia.
      - intros H. apply IHm in H. lia. }
    destruct (c =? 110)%N.
    { intros H. apply literal_shorter in H; [simpl in H; lia | discriminate]. }
    destruct (c =? 116)%N.
    { intros H. apply literal_shorter in H; [simpl in H; lia | discriminate]. }
    destruct (c =? 102)%N.
    { intros H. apply literal_shorter in H; [simpl in H; lia | discriminate]. }
    intros H. apply parse_number_shorter in H. simpl in H. lia.
  - intros s acc v r. simpl.
    destruct (parse_value f s) as [[x r0]|] eqn:E; try discriminate.
    apply IHv in E. pose proof (skip_ws_length r0) as Hr.
    destruct (skip_ws r0) as [|c r']; try discriminate. simpl in Hr.
    destruct (c =? 44)%N.
    { intros H. apply IHe in H. lia. }
    destruct (c =? 93)%N; try discriminate.
    intros [= _ <-]. lia.
  - intros s acc v r. simpl. pose proof (skip_ws_length s) as Hs.
    destruct (skip_ws s) as [|q r0]; try discriminate. simpl in Hs.
    destruct (q =? 34)%N; try discriminate.
    destruct (parse_chars r0 []) as [[key r1]|] eqn:Ek; try discriminate.
    apply parse_chars_shorter in Ek. pose proof (skip_ws_length r1) as H1.
    destruct (skip_ws r1) as [|c r2]; try discriminate. simpl in H1.
    destruct (c =? 58)%N; try discriminate.
    destruct (parse_value f r2) as [[x r3]|] eqn:E; try discriminate.
    apply IHv in E. pose proof (skip_ws_length r3) as H3.
    destruct (skip_ws r3) as [|d r4]; try discriminate. simpl in H3.
    destruct (d =? 44)%N.
    { intros H. apply IHm in H. lia. }
    destruct (d =? 125)%N; try discriminate.
    intros [= _ <-]. lia.
Qed.

(** Past twice the length of the text (and a little), more fuel changes
    nothing. *)
Lemma fuel_stable f :
  (forall s f', 2 * length s + 2 <= f -> f <= f' ->
     parse_value f' s = parse_value f s)
  /\ (forall s acc f', 2 * length s + 3 <= f -> f <= f' ->
        parse_elements f' s acc = parse_elements f s acc)
  /\ (forall s acc f', 2 * length s + 3 <= f -> f <= f' ->
        parse_members f' s acc = parse_members f s acc).
Proof.
  induction f as [|f (IHv & IHe & IHm)]; [repeat split; intros; lia|].
  repeat split.
  - intros s [|f'] Hb Hf; [lia|]. simpl.
    pose proof (skip_ws_length s) as Hs.
    destruct (skip_ws s) as [|c r0]; auto. simpl in Hs.
    destruct (c =? 34)%N; auto.
    destruct (c =? 91)%N.
    { pose proof (skip_ws_length r0) as Hr.
      destruct (skip_ws r0) as [|c' r']; auto.
      destruct (c' =? 93)%N; auto. apply IHe; lia. }
    destruct (c =? 123)%N; auto.
    pose proof (skip_ws_length r0) as Hr.
    destruct (skip_ws r0) as [|c' r']; auto.
    destruct (c' =? 125)%N; auto. apply IHm; lia.
  - intros s acc [|f'] Hb Hf; [lia|]. simpl.
    rewrite (IHv s f') by lia.
    destruct (parse_value f s) as [[x r0]|] eqn:E; auto.
    apply (proj1 (parse_shorter f)) in E.
    pose proof (skip_ws_length r0) as Hr.
    destruct (skip_ws r0) as [|c r']; auto. simpl in Hr.
    destruct (c =? 44)%N; auto. apply IHe; lia.
  - intros s acc [|f'] Hb Hf; [lia|]. simpl.
    pose proof (skip_ws_length s) as Hs.
    destruct (skip_ws s) as [|q r0]; auto. simpl in Hs.
    destruct (q =? 34)%N; auto.
    destruct (parse_chars r0 []) as [[key r1]|] eqn:Ek; auto.
    apply parse_chars_shorter in Ek. pose proof (skip_ws_length r1) as H1.
    destruct (skip_ws r1) as [|c r2]; auto. simpl in H1.
    destruct (c =? 58)%N; auto.
    rewrite (IHv r2 f') by lia.
    destruct (parse_value f r2) as [[x r3]|] eqn:E; auto.
    apply (proj1 (parse_shorter f)) in E.
    pose proof (skip_ws_length r3) as H3.
    destruct (skip_ws r3) as [|d r4]; auto. simpl in H3.
    destruct (d =? 44)%N; auto. apply IHm; lia.
Qed.

(** [JSON_parse] gives the parser all the fuel it can use: with any
    larger amount the result is the same. *)
Theorem JSON_parse_fuel (text : jstring) (k : nat) :
  parse_value (2 * length text + 2 + k) text
  = parse_value (2 * length text + 2) text.
Proof.
  apply (proj1 (fuel_stable (2 * length text + 2))); lia.
Qed.

End JsonFacts.

(* ================================================================== *)
(** * Properties of the outline grammar *)
(* ================================================================== *)

Module MindMapFacts.

Import MindMap.

Lemma lit_inj (a b : String.string) : lit a = lit b -> a = b.
Proof.
  unfold lit. intros H.
  rewrite <- (String.string_of_list_ascii_of_string a),
          <- (String.string_of_list_ascii_of_string b).
  f_equal.
  revert H. generalize (String.list_ascii_of_string a) as x,
                       (String.list_ascii_of_string b) as y.
  induction x as [|c x IH]; intros [|d y]; simpl; try discriminate; auto.
  intros [= Hc Hxy]. f_equal; auto.
  rewrite <- (ascii_N_embedding c), <- (ascii_N_embedding d). now rewrite Hc.
Qed.

Lemma to_uint_nonnil (n : nat) : Nat.to_uint n <> Decimal.Nil.
Proof.
  rewrite <- (DecimalNat.Unsigned.of_to n) at 1.
  rewrite DecimalNat.Unsigned.to_of. apply DecimalFacts.unorm_nonnil.
Qed.

Lemma of_nat_inj (n m : nat) : of_nat n = of_nat m -> n = m.
Proof.
  unfold of_nat. intros H. apply lit_inj in H.
  apply DecimalNat.Unsigned.to_uint_inj.
  assert (Some (Nat.to_uint n) = Some (Nat.to_uint m)) as [= E]; auto.
  rewrite <- (NilZero.usu _ (to_uint_nonnil n)), <- (NilZero.usu _ (to_uint_nonnil m)).
  now rewrite H.
Qed.

Lemma node_id_inj (n m : nat) : node_id n = node_id m -> n = m.
Proof.
  unfold node_id. intros H. apply app_inv_head in H. now apply of_nat_inj.
Qed.

Lemma Inv_init : Inv init.
Proof.
  split; simpl; try easy. constructor.
Qed.

Lemma fresh_id (st : pstate) :
  ids st = map node_id (seq 0 (nodeId st)) ->
  ~ In (node_id (nodeId st)) (ids st).
Proof.
  intros E H. rewrite E in H. apply in_map_iff in H as (k & Hk & Hin).
  apply node_id_inj in Hk. subst k. apply in_seq in Hin. lia.
Qed.

Lemma in_firstn_in {A} (x : A) n l : In x (firstn n l) -> In x l.
Proof.
  intros H. rewrite <- (firstn_skipn n l). apply in_or_app. now left.
Qed.

Lemma in_skipn_in {A} (x : A) n l : In x (skipn n l) -> In x l.
Proof.
  intros H. rewrite <- (firstn_skipn n l). apply in_or_app. now right.
Qed.

(** Whatever branch the tracking takes, the stack holds old entries and
    the new id only. *)
Lemma track_entries level i st s :
  In (Some s) (track level i st) -> s = i \/ In (Some s) (nodeStack st).
Proof.
  unfold track, push, splice, assign.
  destruct (Nat.ltb (currentLevel st) level).
  - intros H. apply in_app_or in H as [H | [[= <-] | []]]; auto.
  - destruct (Nat.ltb level (currentLevel st)).
    + intros H. apply in_app_or in H as [H | [[= <-] | []]]; auto.
      right. eapply in_firstn_in; eauto.
    + destruct (Nat.ltb level (length (nodeStack st))).
      * intros H. apply in_app_or in H as [H | [[= <-] | H]]; auto.
        -- right. eapply in_firstn_in; eauto.
        -- right. eapply in_skipn_in; eauto.
      * intros H. apply in_app_or in H as [H | H]; auto.
        apply in_app_or in H as [H | [[= <-] | []]]; auto.
        apply repeat_spec in H. discriminate.
Qed.

Lemma stack_get_in n stack p : stack_get n stack = Some p -> In (Some p) stack.
Proof.
  unfold stack_get. destruct (nth_error stack n) as [[s|]|] eqn:E; try discriminate.
  destruct (truthy s); intros [= <-]. eapply nth_error_In; eauto.
Qed.

(** The edge step adds at most one edge, and that edge ends in [i]. *)
Lemma parent_edge_cases level i stack es :
  parent_edge level i stack es = es
  \/ exists p, In (Some p) stack
       /\ parent_edge level i stack es
          = es ++ [{| edge_id := edge_name (length es); source := p; target := i |}].
Proof.
  unfold parent_edge. destruct level as [|l]; auto.
  destruct (stack_get l stack) as [p|] eqn:E; auto.
  right. exists p. split; auto. eapply stack_get_in; eauto.
Qed.

Lemma Inv_step st line index : Inv st -> Inv (step st line index).
Proof.
  intros [Hids Hed Hst Htg]. unfold step.
  destruct (truthy (clean_text line)); simpl; [|split; auto].
  set (i := node_id (nodeId st)).
  set (stack := track (level_of line) i st).
  assert (Hids' : map id (st_nodes st ++ [mk_node i (clean_text line) (level_of line) index])
                  = ids st ++ [i]).
  { unfold ids. now rewrite map_app. }
  assert (Hstack : forall s, In (Some s) stack -> In s (ids st ++ [i])).
  { intros s Hs. apply track_entries in Hs as [-> | Hs]; apply in_or_app.
    - right. now left.
    - left. auto. }
  split; unfold ids; cbn [st_nodes st_edges nodeId nodeStack]; rewrite ?Hids'.
  - rewrite seq_S, map_app. simpl. now rewrite <- Hids.
  - intros e He.
    destruct (parent_edge_cases (level_of line) i stack (st_edges st)) as [E | (p & Hp & E)];
      rewrite E in He.
    + destruct (Hed e He). split; apply in_or_app; now left.
    + apply in_app_or in He as [He | [<- | []]].
      * destruct (Hed e He). split; apply in_or_app; now left.
      * simpl. split; auto. apply in_or_app. right. now left.
  - exact Hstack.
  - destruct (parent_edge_cases (level_of line) i stack (st_edges st)) as [E | (p & Hp & E)];
      rewrite E; auto.
    rewrite map_app. simpl.
    apply NoDup_rev in Htg. rewrite <- (rev_involutive (map target (st_edges st) ++ [i])).
    apply NoDup_rev. rewrite rev_app_distr. simpl. constructor; auto.
    rewrite <- in_rev. intros Hin. apply in_map_iff in Hin as (e & He & Hin).
    apply Hed in Hin as [_ Hin]. rewrite He in Hin.
    now apply (fresh_id st Hids).
Qed.

Lemma Inv_forEach lines : forall st index, Inv st -> Inv (forEach st lines index).
Proof.
  induction lines as [|l lines IH]; simpl; auto.
  intros st index H. apply IH. now apply Inv_step.
Qed.

Lemma NoDup_node_ids n : NoDup (map node_id (seq 0 n)).
Proof.
  apply Injective_map_NoDup.
  - intros a b. apply node_id_inj.
  - apply seq_NoDup.
Qed.

(** C7. For the input "A\n  B\n    C\n  D\n E" the outline grammar yields
    the five nodes A..E and exactly the edges A->B, B->C and A->D (in ids:
    node-0->node-1, node-1->node-2, node-0->node-3); the node of E has
    depth 0 and no incoming edge. *)
Theorem C7_outline_example :
  let m := parseTextMindMap Inputs.outline_dedent in
  map label (nodes m) = [lit "A"; lit "B"; lit "C"; lit "D"; lit "E"]
  /\ edge_labels m = [(Some (lit "A"), Some (lit "B"));
                      (Some (lit "B"), Some (lit "C"));
                      (Some (lit "A"), Some (lit "D"))]
  /\ map (fun e => (source e, target e)) (edges m)
     = [(lit "node-0", lit "node-1"); (lit "node-1", lit "node-2");
        (lit "node-0", lit "node-3")]
  /\ map depth (nodes m) = [0; 1; 2; 1; 0]
  /\ parents_of m 4 = [].
Proof.
  vm_compute. repeat split.
Qed.

(** C2 (evaluation at the failing input). For the input
    "A\n  B\n    C\n  D\n    E" the node of E (position 4, depth 2) gets
    its one incoming edge from node-1 (B), while the nearest preceding
    node of depth 1 is node-3 (D): the parent invariant fails at E. *)
Theorem C2_reindent_parent_is_stale :
  let m := parseTextMindMap Inputs.outline_reindent in
  map label (nodes m) = [lit "A"; lit "B"; lit "C"; lit "D"; lit "E"]
  /\ map depth (nodes m) = [0; 1; 2; 1; 2]
  /\ parents_of m 4 = [lit "node-1"]
  /\ nearest_parent (nodes m) 4 = Some (lit "node-3")
  /\ map (parent_ok m) [0; 1; 2; 3; 4] = [true; true; true; true; false]
  /\ parent_invariant m = false.
Proof.
  vm_compute. repeat split.
Qed.

(** On the input of C7, where no line re-indents after a dedent, the
    parent invariant holds. *)
Lemma dedent_parent_invariant :
  parent_invariant (parseTextMindMap Inputs.outline_dedent) = true.
Proof. vm_compute. reflexivity. Qed.

(** C10. For every input text the graph of the outline grammar is well
    formed: the node ids are "node-0", "node-1", ... in parse order and
    pairwise distinct, both ends of every edge are ids of returned nodes,
    and no two edges share a target. *)
Theorem C10_graph_well_formed (text : jstring) :
  let m := parseTextMindMap text in
  map id (nodes m) = map node_id (seq 0 (length (nodes m)))
  /\ NoDup (map id (nodes m))
  /\ (forall e, In e (edges m) ->
        In (source e) (map id (nodes m)) /\ In (target e) (map id (nodes m)))
  /\ NoDup (map target (edges m)).
Proof.
  unfold parseTextMindMap.
  set (st := forEach init (filter nonblank (split_lines text)) 0).
  assert (H : Inv st) by (apply Inv_forEach, Inv_init).
  destruct H as [Hids Hed Hst Htg]. unfold ids in *. simpl.
  assert (Hlen : length (st_nodes st) = nodeId st).
  { rewrite <- (length_map id), Hids, length_map. apply length_seq. }
  destruct (st_nodes st) as [|n ns] eqn:E.
  - simpl. repeat split.
    + repeat constructor. intros [].
    + destruct (Hed e H) as [[] _].
    + destruct (Hed e H) as [[] _].
    + exact Htg.
  - rewrite Hlen. repeat split; auto.
    + rewrite Hids. apply NoDup_node_ids.
    + now apply Hed.
    + now apply Hed.
Qed.

Lemma C10_witness :
  let m := parseTextMindMap Inputs.outline_dedent in
  let e := {| edge_id := lit "edge-0"; source := lit "node-0";
              target := lit "node-1" |} in
  In e (edges m)
  /\ In (source e) (map id (nodes m))
  /\ In (target e) (map id (nodes m)).
Proof.
  intros m e.
  assert (H : In e (edges m)) by (vm_compute; left; reflexivity).
  destruct (C10_graph_well_formed Inputs.outline_dedent) as (_ & _ & Hends & _).
  split; [exact H|]. exact (Hends e H).
Defined.

End MindMapFacts.

(* ================================================================== *)
(** * Properties of the quiz session *)
(* ================================================================== *)

Module SessionFacts.

Import Session.

Section Scoring.

Variable questions : list json.

Lemma includes_In l i : includes l i = true <-> In i l.
Proof.
  unfold includes. rewrite existsb_exists. split.
  - intros (x & Hx & E). apply Nat.eqb_eq in E. now subst.
  - intros H. exists i. split; auto. apply Nat.eqb_refl.
Qed.

Lemma submit_score s :
  score (handleSubmitAnswer questions s)
  = if scores questions s then score s + 1 else score s.
Proof.
  unfold handleSubmitAnswer, scores.
  destruct (selectedAnswer s) as [sel|]; auto.
  destruct (isCorrect questions s sel) as [[|]|]; auto.
  destruct (includes (answeredQuestions s) (currentIndex s)); auto.
Qed.

Lemma submit_answered s :
  answeredQuestions (handleSubmitAnswer questions s)
  = if scores questions s then answeredQuestions s ++ [currentIndex s]
    else answeredQuestions s.
Proof.
  unfold handleSubmitAnswer, scores.
  destruct (selectedAnswer s) as [sel|]; auto.
  destruct (isCorrect questions s sel) as [[|]|]; auto.
  destruct (includes (answeredQuestions s) (currentIndex s)); auto.
Qed.

Lemma submit_index s :
  currentIndex (handleSubmitAnswer questions s) = currentIndex s.
Proof.
  unfold handleSubmitAnswer.
  destruct (selectedAnswer s) as [sel|]; auto.
  destruct (isCorrect questions s sel) as [[|]|]; auto.
  destruct (includes (answeredQuestions s) (currentIndex s)); auto.
Qed.

Lemma submit_selected s :
  selectedAnswer (handleSubmitAnswer questions s) = selectedAnswer s.
Proof.
  unfold handleSubmitAnswer.
  destruct (selectedAnswer s) as [sel|] eqn:E; auto.
  destruct (isCorrect questions s sel) as [[|]|]; auto.
  destruct (includes (answeredQuestions s) (currentIndex s)); auto.
Qed.

Lemma includes_snoc l i : includes (l ++ [i]) i = true.
Proof.
  unfold includes. rewrite existsb_app. simpl.
  rewrite Nat.eqb_refl. now rewrite orb_true_r.
Qed.

(** Right after a submission nothing more can be scored. *)
Lemma scores_submit s : scores questions (handleSubmitAnswer questions s) = false.
Proof.
  unfold scores at 1. rewrite submit_selected.
  destruct (selectedAnswer s) as [sel|] eqn:Es; auto.
  unfold isCorrect. rewrite submit_index.
  fold (isCorrect questions s sel).
  destruct (isCorrect questions s sel) as [[|]|] eqn:Ec; auto.
  rewrite submit_answered.
  destruct (scores questions s) eqn:E.
  - now rewrite includes_snoc.
  - unfold scores in E. rewrite Es, Ec in E.
    now destruct (includes (answeredQuestions s) (currentIndex s)).
Qed.

Lemma scores_in_range s : scores questions s = true -> currentIndex s < length questions.
Proof.
  unfold scores, isCorrect.
  destruct (selectedAnswer s); try discriminate.
  destruct (nth_error questions (currentIndex s)) eqn:E; try discriminate.
  intros _. apply nth_error_Some. congruence.
Qed.

Lemma scores_fresh s : scores questions s = true -> ~ In (currentIndex s) (answeredQuestions s).
Proof.
  unfold scores.
  destruct (selectedAnswer s) as [sel|]; try discriminate.
  destruct (isCorrect questions s sel) as [[|]|]; try discriminate.
  intros H Hin. apply includes_In in Hin. rewrite Hin in H. discriminate.
Qed.

Lemma NoDup_snoc {A} (l : list A) x : NoDup l -> ~ In x l -> NoDup (l ++ [x]).
Proof.
  intros Hl Hx. apply NoDup_rev in Hl.
  rewrite <- (rev_involutive (l ++ [x])). apply NoDup_rev.
  rewrite rev_app_distr. simpl. constructor; auto. now rewrite <- in_rev.
Qed.

Lemma Inv_initial : Inv questions initial.
Proof. split; simpl; try easy. constructor. Qed.

Lemma Inv_handle s e : Inv questions s -> Inv questions (handle questions s e).
Proof.
  intros [Hs Hn Hr]. destruct e as [i| | |]; simpl.
  - unfold handleAnswerSelect. destruct (showResult s); split; auto.
  - split.
    + rewrite submit_score, submit_answered. destruct (scores questions s); auto.
      rewrite length_app. simpl. lia.
    + rewrite submit_answered. destruct (scores questions s) eqn:E; auto.
      apply NoDup_snoc; auto. now apply scores_fresh.
    + rewrite submit_answered. destruct (scores questions s) eqn:E; auto.
      intros i Hi. apply in_app_or in Hi as [Hi | [<- | []]]; auto.
      now apply scores_in_range.
  - unfold handleNextQuestion.
    destruct (Nat.ltb (currentIndex s) (length questions - 1)); split; auto.
  - apply Inv_initial.
Qed.

Lemma Inv_run es : forall s, Inv questions s -> Inv questions (run questions s es).
Proof.
  induction es as [|e es IH]; simpl; auto.
  intros s H. apply IH. now apply Inv_handle.
Qed.

Lemma Inv_bound s : Inv questions s -> score s <= length questions.
Proof.
  intros [Hs Hn Hr]. rewrite Hs.
  replace (length questions) with (length (seq 0 (length questions)))
    by apply length_seq.
  apply NoDup_incl_length; auto.
  intros i Hi. apply in_seq. specialize (Hr i Hi). lia.
Qed.

Lemma answering_index s e :
  answering e = true -> currentIndex (handle questions s e) = currentIndex s.
Proof.
  destruct e; try discriminate; intros _; simpl.
  - unfold handleAnswerSelect. now destruct (showResult s).
  - apply submit_index.
Qed.

Lemma answering_monotone s e i :
  answering e = true ->
  In i (answeredQuestions s) -> In i (answeredQuestions (handle questions s e)).
Proof.
  destruct e; try discriminate; intros _ Hin; simpl.
  - unfold handleAnswerSelect. now destruct (showResult s).
  - rewrite submit_answered. destruct (scores questions s); auto.
    apply in_or_app. now left.
Qed.

(** Once the current question is scored, answering events leave the
    score alone. *)
Lemma scored_stays es : forall s,
  forallb answering es = true ->
  In (currentIndex s) (answeredQuestions s) ->
  score (run questions s es) = score s.
Proof.
  induction es as [|e es IH]; simpl; auto.
  intros s Hes Hin. apply andb_prop in Hes as [He Hes].
  rewrite IH; auto.
  - destruct e; try discriminate; simpl.
    + unfold handleAnswerSelect. now destruct (showResult s).
    + rewrite submit_score. destruct (scores questions s) eqn:E; auto.
      now apply scores_fresh in E.
  - rewrite answering_index by auto. now apply answering_monotone.
Qed.

Lemma one_question_once es : forall s,
  forallb answering es = true ->
  score (run questions s es) <= score s + 1.
Proof.
  induction es as [|e es IH]; simpl; [lia|].
  intros s Hes. apply andb_prop in Hes as [He Hes].
  destruct e; try discriminate; simpl.
  - etransitivity; [apply IH; auto|].
    unfold handleAnswerSelect. destruct (showResult s); simpl; lia.
  - destruct (scores questions s) eqn:E.
    + rewrite scored_stays; auto.
      * rewrite submit_score, E. lia.
      * rewrite submit_index, submit_answered, E. apply in_or_app. right. now left.
    + etransitivity; [apply IH; auto|]. rewrite submit_score, E. lia.
Qed.

End Scoring.

(** C6. In the quiz session, a submission adds one to the score exactly
    when a selection exists, it equals the current question's
    correctAnswer, and the question index is not yet among the scored
    ones (otherwise the score is unchanged); submitting again right away
    adds nothing; any sequence of select/submit events on one question
    adds at most one; and after any sequence of events from the initial
    state the score is the number of scored indices, which are pairwise
    distinct indices of the quiz, so the score never exceeds the number
    of questions. *)
Theorem C6_score_once_per_question (questions : list json) :
  (forall s,
     score (handleSubmitAnswer questions s)
     = if scores questions s then score s + 1 else score s)
  /\ (forall s,
        score (handleSubmitAnswer questions (handleSubmitAnswer questions s))
        = score (handleSubmitAnswer questions s))
  /\ (forall s es, forallb answering es = true ->
        score (run questions s es) <= score s + 1)
  /\ (forall es,
        let s := run questions initial es in
        score s = length (answeredQuestions s)
        /\ NoDup (answeredQuestions s)
        /\ (forall i, In i (answeredQuestions s) -> i < length questions)
        /\ score s <= length questions).
Proof.
  split; [apply submit_score|].
  split.
  - intros s. rewrite (submit_score questions (handleSubmitAnswer questions s)).
    now rewrite scores_submit.
  - split; [intros s es; apply one_question_once|].
    intros es s.
    assert (H : Inv questions s) by (apply Inv_run, Inv_initial).
    pose proof (Inv_bound H). destruct H. auto.
Qed.

Lemma C6_witness :
  let qs := map QuizViewer.of_question (Quiz.parseTextQuiz Inputs.quiz_B) in
  forallb answering [Select 1; Submit; Select 0; Submit; Submit] = true
  /\ score (run qs initial [Select 1; Submit; Select 0; Submit; Submit])
     <= score initial + 1
  /\ score (run qs initial [Select 1; Submit; Submit]) = 1.
Proof.
  intros qs.
  destruct (C6_score_once_per_question qs) as (_ & _ & H & _).
  split; [reflexivity|].
  split; [apply (H initial); reflexivity | reflexivity].
Defined.

End SessionFacts.

(* ================================================================== *)
(** * Properties of the timeline grammar *)
(* ================================================================== *)

Module TimelineFacts.

Import Timeline StrFacts ReFacts TimelineBullets TimelineDates.

Lemma first_line_truthy block l0 rest :
  block_lines block = l0 :: rest -> truthy l0 = true.
Proof.
  unfold block_lines. intros H. apply ink_truthy.
  apply (in_filter_nonblank l0 (split_lines block)). rewrite H. now left.
Qed.

Lemma bullet_step_dateless events line e :
  In e (snd (bullet_step ([], events) line)) ->
  In e events \/ date e = lit "Unknown".
Proof.
  unfold bullet_step.
  destruct (test noflags re_heading (trim line)); simpl; auto.
  destruct (test noflags re_bullet (trim line)); simpl.
  - intros H. apply in_app_or in H as [H | [<- | []]]; auto.
  - destruct (test noflags re_numbering (trim line)); simpl; auto.
    intros H. apply in_app_or in H as [H | [<- | []]]; auto.
Qed.

(** C8 (as stated, refuted). The one-line input "Hello world" matches
    neither date pattern, and its event carries the date "Date Unknown",
    not "Unknown"; for the empty input nothing parses and the placeholder
    event carries the date "Sample Date". *)
Lemma C8_counterexample :
  search noflags re_backend (lit "Hello world") = None
  /\ search noflags re_date (lit "Hello world") = None
  /\ parseTextTimeline (lit "Hello world")
     = [{| date := lit "Date Unknown"; title := lit "Hello world";
           description := [] |}]
  /\ lit "Date Unknown" <> lit "Unknown"
  /\ block_events [] = []
  /\ bullet_events [] = []
  /\ map date (parseTextTimeline []) = [lit "Sample Date"]
  /\ lit "Sample Date" <> lit "Unknown".
Proof.
  repeat split; try (vm_compute; reflexivity); vm_compute; discriminate.
Qed.

(** ** What a match consumes and which captures it leaves alone *)

Lemma rmatch_seq fl r1 r2 st k :
  rmatch fl (RSeq r1 r2) st k = rmatch fl r1 st (fun st1 => rmatch fl r2 st1 k).
Proof. reflexivity. Qed.

Lemma rmatch_group fl n r st k :
  rmatch fl (RGroup n r) st k
  = rmatch fl r st (fun st1 => k (close_group n st st1)).
Proof. reflexivity. Qed.

(** A successful match hands its continuation a state that lies [d]
    further, with [d] at least as long as the pattern's minimum, and
    with the captures of every group outside the pattern unchanged. *)
Lemma rmatch_trace fl r : forall st k x,
  rmatch fl r st k = Some x ->
  exists d st',
    k st' = Some x
    /\ before st' = rev d ++ before st
    /\ after st = d ++ after st'
    /\ min_len r <= length d
    /\ (forall n, ~ In n (groups r) ->
          capture n (caps st') = capture n (caps st)).
Proof.
  induction r; intros st k x; cbn [rmatch min_len groups].
  - intros H. exists [], st. repeat split; auto.
  - destruct (after st) as [|c a] eqn:Ea; [discriminate|].
    destruct (cs_mem (icase fl) cs c); [|discriminate].
    intros H. exists [c], (MState (c :: before st) a (caps st)).
    repeat split; auto.
  - intros H. apply greedy_consumed in H as (d & a' & Ea & Hmn & H).
    exists d, (MState (rev d ++ before st) a' (caps st)). repeat split; auto.
  - destruct (rmatch fl r st k) as [y|] eqn:E.
    + intros [= <-]. apply IHr in E as (d & st' & Hk & Hb & Ha & _ & Hc).
      exists d, st'. repeat split; auto. lia.
    + intros H. exists [], st. repeat split; auto.
  - intros H. apply IHr1 in H as (d1 & st1 & H & Hb1 & Ha1 & Hm1 & Hc1).
    apply IHr2 in H as (d2 & st2 & H & Hb2 & Ha2 & Hm2 & Hc2).
    exists (d1 ++ d2), st2. repeat split; auto.
    + now rewrite Hb2, Hb1, rev_app_distr, <- app_assoc.
    + now rewrite Ha1, Ha2, <- app_assoc.
    + rewrite length_app. lia.
    + intros n Hn. rewrite Hc2, Hc1; auto; intros Hin; apply Hn;
        apply in_or_app; auto.
  - destruct (rmatch fl r1 st k) as [y|] eqn:E.
    + intros [= <-]. apply IHr1 in E as (d & st' & Hk & Hb & Ha & Hm & Hc).
      exists d, st'. repeat split; auto; [lia|].
      intros n Hn. apply Hc. intros Hin. apply Hn. apply in_or_app. auto.
    + intros H. apply IHr2 in H as (d & st' & Hk & Hb & Ha & Hm & Hc).
      exists d, st'. repeat split; auto; [lia|].
      intros n Hn. apply Hc. intros Hin. apply Hn. apply in_or_app. auto.
  - intros H. apply IHr in H as (d & st1 & H & Hb & Ha & Hm & Hc).
    exists d, (close_group n st st1). repeat split; auto.
    intros m Hm'. unfold close_group. cbn [caps capture].
    destruct (Nat.eqb n m) eqn:E.
    + apply Nat.eqb_eq in E. subst m. destruct Hm'. now left.
    + apply Hc. intros Hin. apply Hm'. now right.
  - destruct (at_bol fl st); [|discriminate].
    intros H. exists [], st. repeat split; auto.
  - destruct (at_eol fl st); [|discriminate].
    intros H. exists [], st. repeat split; auto.
  - destruct (xorb (word_before st) (word_after st)); [|discriminate].
    intros H. exists [], st. repeat split; auto.
  - destruct (rmatch fl r st Some) as [st1|] eqn:E; [|discriminate].
    intros H. apply IHr in E as (d & st' & [= ->] & _ & _ & _ & Hc).
    exists [], (MState (before st) (after st) (caps st1)). repeat split; auto.
Qed.

(** A group that closes [d] further than it opened captures [d]. *)
Lemma group_text n st st1 d :
  before st1 = rev d ++ before st ->
  capture n (caps (close_group n st st1)) = Some d.
Proof.
  intros H. unfold close_group, pos. cbn [caps capture].
  rewrite Nat.eqb_refl, H, length_app, length_rev.
  replace (length d + length (before st) - length (before st))
    with (length (rev d)) by (rewrite length_rev; lia).
  rewrite firstn_app, firstn_all, Nat.sub_diag. cbn [firstn].
  now rewrite app_nil_r, rev_involutive.
Qed.

Lemma truthy_length (s : jstring) : 1 <= length s -> truthy s = true.
Proof. destruct s; [simpl; lia | reflexivity]. Qed.

(** The content of the brackets is not empty. *)
Lemma backend_date_truthy l0 bf :
  search noflags re_backend l0 = Some bf -> truthy (group 1 bf) = true.
Proof.
  destruct bf as [b0 x]. unfold search. intros H.
  apply search_from_match in H as (a0 & H).
  unfold match_at, re_backend in H. cbn [rseq] in H.
  rewrite rmatch_seq in H. apply rmatch_cont in H as (s1 & H).
  rewrite rmatch_seq in H. apply rmatch_cont in H as (s2 & H).
  rewrite rmatch_seq, rmatch_group in H.
  apply rmatch_trace in H as (d & st1 & H & Hb & _ & Hm & _).
  apply rmatch_trace in H as (d2 & st2 & [= ->] & _ & _ & _ & Hc).
  unfold group. cbn [snd]. rewrite Hc.
  - rewrite (group_text 1 s2 st1 d Hb). now apply truthy_length.
  - cbn [groups rchar star plus app]. intros [E | []]. discriminate.
Qed.

(** The date at the start of a line is not empty. *)
Lemma date_group_truthy l0 dm :
  search noflags re_date l0 = Some dm -> truthy (group 1 dm) = true.
Proof.
  destruct dm as [b0 x]. unfold search. intros H.
  apply search_from_match in H as (a0 & H).
  unfold match_at, re_date in H.
  rewrite rmatch_seq in H. apply rmatch_cont in H as (s1 & H).
  rewrite rmatch_group in H.
  apply rmatch_trace in H as (d & st1 & [= <-] & Hb & _ & Hm & _).
  unfold group. cbn [snd]. rewrite (group_text 1 s1 st1 d Hb).
  apply truthy_length. etransitivity; [|exact Hm]. vm_compute. lia.
Qed.

Lemma block_date_truthy l0 : truthy (block_date l0) = true.
Proof.
  unfold block_date.
  destruct (search noflags re_backend l0) as [bf|] eqn:Eb.
  - now apply (backend_date_truthy l0).
  - destruct (search noflags re_date l0) as [dm|] eqn:Ed.
    + now apply (date_group_truthy l0).
    + reflexivity.
Qed.

(** The date of a block's event is the block's own date: the default
    of [date || 'Unknown'] is not taken. *)
Lemma block_event_date block e :
  block_event block = Some e ->
  exists l0 rest, block_lines block = l0 :: rest
                  /\ date e = block_date l0 /\ date e <> [].
Proof.
  unfold block_event. destruct (block_lines block) as [|l0 rest]; [discriminate|].
  intros H. exists l0, rest. split; [reflexivity|].
  pose proof (block_date_truthy l0) as Ht.
  assert (Hd : fst (fst (block_fields l0 rest)) = block_date l0).
  { unfold block_fields, block_date.
    destruct (search noflags re_backend l0); [reflexivity|].
    destruct (search noflags re_date l0); reflexivity. }
  destruct (block_fields l0 rest) as [[d t] desc]. cbn [fst] in Hd. subst d.
  destruct (truthy t); [|discriminate]. injection H as <-. cbn [date].
  rewrite Ht. split; [reflexivity|].
  intros E. rewrite E in Ht. discriminate.
Qed.

(** ** The bullet pass, line by line *)

Lemma last_snoc_any {A} (l : list A) x d : last (l ++ [x]) d = x.
Proof.
  induction l as [|y l IH]; [reflexivity|].
  cbn [app]. destruct (l ++ [x]) eqn:E.
  - now apply app_eq_nil in E as [_ [=]].
  - exact IH.
Qed.

Lemma current_date_snoc pre l :
  current_date (pre ++ [l])
  = if is_heading l then heading_date l else current_date pre.
Proof.
  unfold current_date. rewrite filter_app. cbn [filter].
  destruct (is_heading l).
  - rewrite map_app. cbn [map]. apply last_snoc_any.
  - now rewrite app_nil_r.
Qed.

Lemma bullet_step_closed pre evs l :
  bullet_step (current_date pre, evs) l
  = (current_date (pre ++ [l]),
     evs ++ (if is_item l
             then [{| date := date_at pre; title := item_text l;
                      description := [] |}]
             else [])).
Proof.
  rewrite current_date_snoc. unfold bullet_step, is_item, is_heading, item_text,
    date_at, heading_date.
  destruct (test noflags re_heading (trim l)); cbn [negb andb].
  - now rewrite app_nil_r.
  - destruct (test noflags re_bullet (trim l)); cbn [orb]; [reflexivity|].
    destruct (test noflags re_numbering (trim l)); [reflexivity|].
    now rewrite app_nil_r.
Qed.

Lemma bullet_fold rest : forall pre evs,
  snd (fold_left bullet_step rest (current_date pre, evs))
  = evs ++ map (bullet_event_at (pre ++ rest))
             (filter (fun k => is_item (nth k (pre ++ rest) []))
                (seq (length pre) (length rest))).
Proof.
  induction rest as [|l rest IH]; intros pre evs.
  - simpl. now rewrite app_nil_r.
  - cbn [fold_left length seq filter]. rewrite bullet_step_closed, IH.
    rewrite <- app_assoc. cbn [app].
    replace (length (pre ++ [l])) with (S (length pre))
      by (rewrite length_app; simpl; lia).
    rewrite app_nth2, Nat.sub_diag by lia. cbn [nth].
    rewrite <- app_assoc. f_equal.
    destruct (is_item l) eqn:Ei; [|reflexivity].
    cbn [map app]. f_equal.
    unfold bullet_event_at.
    rewrite app_nth2, Nat.sub_diag by lia. cbn [nth].
    rewrite firstn_app, firstn_all, Nat.sub_diag. cbn [firstn].
    now rewrite app_nil_r.
Qed.

(** C8 (amended). A block whose first line matches neither the bracket
    form nor a date pattern yields the event whose date is the literal
    "Date Unknown", whose title is the whole first line and whose
    description is made of the remaining lines; when neither pass yields
    an event the result is the single placeholder event, whose date is
    "Sample Date".  In the block pass the default of [date || 'Unknown']
    is never taken: the date of an event is the block's own date -- the
    content of the brackets, the matched date or "Date Unknown" -- and
    is not empty.  The literal "Unknown" is set by the bullet pass alone:
    there every bullet or numbered line gives one event, in line order,
    with an empty description, dated with the text of the latest heading
    line before it, or with "Unknown" when no heading comes before it or
    the latest one has no text. *)
Theorem C8_dateless_constants :
  (forall block l0 rest,
      block_lines block = l0 :: rest ->
      search noflags re_backend l0 = None ->
      search noflags re_date l0 = None ->
      block_event block
      = Some {| date := lit "Date Unknown"; title := l0;
                description := rest_description rest |})
  /\ (forall text,
        block_events text = [] -> bullet_events text = [] ->
        parseTextTimeline text = [sample_event])
  /\ date sample_event = lit "Sample Date"
  /\ (forall block e,
        block_event block = Some e ->
        exists l0 rest, block_lines block = l0 :: rest
                        /\ date e = block_date l0 /\ date e <> [])
  /\ (forall text,
        bullet_events text
        = expected_bullets (filter nonblank (split_lines text))).
Proof.
  repeat split.
  - intros block l0 rest Hl Hb Hd. unfold block_event. rewrite Hl.
    unfold block_fields. rewrite Hb, Hd.
    now rewrite (first_line_truthy _ Hl).
  - intros text Hb Hu. unfold parseTextTimeline. now rewrite Hb, Hu.
  - apply block_event_date.
  - intros text. unfold bullet_events, expected_bullets.
    apply (bullet_fold (filter nonblank (split_lines text)) [] []).
Qed.

Lemma C8_witness :
  block_event (lit "Hello world")
  = Some {| date := lit "Date Unknown"; title := lit "Hello world";
            description := [] |}
  /\ parseTextTimeline [] = [sample_event]
  /\ (exists l0 rest,
        block_lines (lit "[1969]: Moon Landing") = l0 :: rest
        /\ date {| date := lit "1969"; title := lit "Moon Landing";
                   description := [] |} = block_date l0
        /\ date {| date := lit "1969"; title := lit "Moon Landing";
                   description := [] |} <> []).
Proof.
  destruct C8_dateless_constants as (H1 & H2 & _ & H4 & _).
  split; [|split].
  - apply (H1 (lit "Hello world") (lit "Hello world") []); reflexivity.
  - apply (H2 []); reflexivity.
  - apply (H4 (lit "[1969]: Moon Landing")). reflexivity.
Defined.

End TimelineFacts.

(* ================================================================== *)
(** * Properties of the quiz grammar *)
(* ================================================================== *)

Module QuizFacts.

Import Quiz StrFacts ReFacts.

(** A match of the letter pattern is one code unit of the class. *)
Lemma match_letter b0 a0 st :
  match_at fl_i re_letter b0 a0 = Some st ->
  exists c a', st = MState (c :: b0) a' []
    /\ cs_mem true (CRange (ch "A") (ch "D")) c = true.
Proof.
  unfold match_at, re_letter, rseq, start_at.
  cbn [rmatch after before caps icase fl_i].
  destruct (xorb _ _); try discriminate.
  destruct a0 as [|c a']; try discriminate.
  destruct (cs_mem true (CRange (ch "A") (ch "D")) c) eqn:E; try discriminate.
  destruct (xorb _ _); try discriminate.
  intros [= <-]. eauto.
Qed.

Lemma class_AD_range c :
  cs_mem true (CRange (ch "A") (ch "D")) c = true ->
  (0 <= Z.of_N (upcase c) - 65 <= 3)%Z.
Proof.
  change (ch "A") with 65%N. change (ch "D") with 68%N.
  cbn [cs_mem]. unfold canon, is_upper, in_range.
  generalize (upcase c) as u. intros u H. unfold char in u.
  apply orb_true_iff in H as [H | H].
  - apply andb_true_iff in H as [H1 H2].
    apply N.leb_le in H1, H2. lia.
  - apply andb_true_iff in H as [H0 H].
    apply andb_true_iff in H0 as [H1 H2].
    apply andb_true_iff in H as [H3 H4].
    apply N.leb_le in H1, H2, H3, H4. lia.
Qed.

Lemma letter_index_range s i :
  letter_index s = Some i -> (0 <= i <= 3)%Z.
Proof.
  unfold letter_index, search.
  destruct (search_from fl_i re_letter [] s) as [[b0 st]|] eqn:E; try discriminate.
  apply search_from_match in E as (a0 & Hm).
  apply match_letter in Hm as (c & a' & -> & Hc).
  unfold matched, pos. cbn [fst snd before].
  replace (length (c :: b0) - length b0) with 1 by (cbn [length]; lia).
  cbn [firstn rev app map]. intros [= <-]. now apply class_AD_range.
Qed.

(** Only the answer branch touches [correctAnswer], and only with a
    resolved letter. *)
Lemma step_answer st raw :
  q_correctAnswer (line_step st raw)
  = match resolved raw with
    | Some i => i
    | None => q_correctAnswer st
    end.
Proof.
  unfold line_step, resolved.
  destruct (classify (trim raw)); auto.
  now destruct (letter_index (answer_text (trim raw))).
Qed.

Lemma fold_answer lines : forall st,
  q_correctAnswer (fold_left line_step lines st)
  = last_resolved lines (q_correctAnswer st).
Proof.
  unfold last_resolved.
  induction lines as [|l lines IH]; intros st; simpl; auto.
  now rewrite IH, step_answer.
Qed.

Lemma last_resolved_none lines start :
  (forall l, In l lines -> resolved l = None) ->
  last_resolved lines start = start.
Proof.
  unfold last_resolved. revert start.
  induction lines as [|l lines IH]; intros start H; simpl; auto.
  rewrite (H l) by now left. apply IH. intros l' Hl. apply H. now right.
Qed.

Lemma last_resolved_range lines : forall start,
  (start = -1 \/ 0 <= start <= 3)%Z ->
  (last_resolved lines start = -1 \/ 0 <= last_resolved lines start <= 3)%Z.
Proof.
  unfold last_resolved.
  induction lines as [|l lines IH]; intros start H; simpl; auto.
  apply IH. unfold resolved.
  destruct (classify (trim l)); auto.
  destruct (letter_index (answer_text (trim l))) eqn:E; auto.
  right. eapply letter_index_range; eauto.
Qed.

Lemma not_answer_unresolved l : is_answer_line l = false -> resolved l = None.
Proof.
  unfold is_answer_line, resolved. now destruct (classify (trim l)).
Qed.

Lemma last_resolved_single pre a post start :
  forallb (fun l => negb (is_answer_line l)) (pre ++ post) = true ->
  last_resolved (pre ++ a :: post) start
  = match resolved a with Some i => i | None => start end.
Proof.
  intros H. rewrite forallb_app in H. apply andb_prop in H as [Hpre Hpost].
  unfold last_resolved. rewrite fold_left_app. simpl.
  fold (last_resolved pre start).
  rewrite (last_resolved_none pre).
  - fold (last_resolved post (match resolved a with Some i => i | None => start end)).
    apply last_resolved_none.
    intros l Hl. apply not_answer_unresolved.
    rewrite forallb_forall in Hpost. specialize (Hpost l Hl).
    now destruct (is_answer_line l).
  - intros l Hl. apply not_answer_unresolved.
    rewrite forallb_forall in Hpre. specialize (Hpre l Hl).
    now destruct (is_answer_line l).
Qed.

(** What [parse_section] returns, in terms of the loop's final state. *)
Lemma parse_section_inv section q :
  parse_section section = Some q ->
  let st := fold_left line_step (section_lines section) init in
  truthy (q_question q) = true
  /\ 2 <= length (q_options q)
  /\ q_correctAnswer q
     = (if Z.eqb (q_correctAnswer st) (-1) then 0 else q_correctAnswer st)%Z.
Proof.
  unfold parse_section, emit.
  destruct (Nat.ltb (length (section_lines section)) 2); try discriminate.
  destruct (truthy _) eqn:Eq; try discriminate.
  destruct (Nat.leb 2 _) eqn:Eo; try discriminate.
  simpl. intros [= <-]. simpl. repeat split; auto.
  now apply Nat.leb_le.
Qed.

Lemma quiz_collect_In sections q :
  In q (collect sections) <->
  exists s, In s sections /\ parse_section s = Some q.
Proof.
  induction sections as [|s sections IH]; simpl.
  - split; [easy | now intros (s & [] & _)].
  - destruct (parse_section s) as [q'|] eqn:E; simpl; rewrite IH; split.
    + intros [<- | (s' & Hs & Hq)]; eauto.
    + intros (s' & [<- | Hs] & Hq); [left; congruence | eauto].
    + intros (s' & Hs & Hq); eauto.
    + intros (s' & [<- | Hs] & Hq); [congruence | eauto].
Qed.

Lemma resolved_B raw : trim raw = lit "Answer: B" -> resolved raw = Some 1%Z.
Proof. unfold resolved. intros ->. vm_compute. reflexivity. Qed.

Lemma resolved_C raw :
  trim raw = lit "Correct Answer: **C**" -> resolved raw = Some 2%Z.
Proof. unfold resolved. intros ->. vm_compute. reflexivity. Qed.

Lemma resolved_no_letter raw :
  is_answer_line raw = true ->
  letter_index (answer_text (trim raw)) = None -> resolved raw = None.
Proof.
  unfold is_answer_line, resolved.
  now destruct (classify (trim raw)).
Qed.

Lemma eqb_refl (s : jstring) : Str.eqb s s = true.
Proof.
  induction s as [|c s IH]; simpl; auto. now rewrite N.eqb_refl.
Qed.

Lemma lookup_set key v l : lookup key (set key v l) = Some v.
Proof.
  induction l as [|[k x] l IH]; simpl.
  - now rewrite eqb_refl.
  - destruct (Str.eqb k key) eqn:E; simpl; now rewrite E.
Qed.

Lemma normalize_object l :
  QuizViewer.normalize (JObj l)
  = Returned (JObj (set (lit "correctAnswer") (QuizViewer.chosen_answer l) l)).
Proof.
  unfold QuizViewer.normalize, QuizViewer.chosen_answer. simpl.
  destruct (lookup (lit "correctAnswer") l) as [[]|]; simpl; auto;
    destruct (lookup (lit "correct_answer") l) as [[]|]; simpl; auto.
Qed.

(** C5. In a question block whose only answer line is "Answer: B" the
    emitted question has correctAnswer 1; with "Correct Answer: **C**" it
    has correctAnswer 2; and when the answer line yields no standalone
    letter A-D it has correctAnswer 0.  (A question is emitted when the
    block has a question text and at least two options.) *)
Theorem C5_answer_resolution
    (section : jstring) (pre post : list jstring) (a : jstring) (q : question) :
  section_lines section = pre ++ a :: post ->
  forallb (fun l => negb (is_answer_line l)) (pre ++ post) = true ->
  parse_section section = Some q ->
  (trim a = lit "Answer: B" -> q_correctAnswer q = 1%Z)
  /\ (trim a = lit "Correct Answer: **C**" -> q_correctAnswer q = 2%Z)
  /\ (is_answer_line a = true ->
      letter_index (answer_text (trim a)) = None -> q_correctAnswer q = 0%Z).
Proof.
  intros Hl Hothers Hq.
  apply parse_section_inv in Hq as (_ & _ & Hca).
  rewrite fold_answer, Hl, (last_resolved_single _ _ _ _ Hothers) in Hca.
  cbn [q_correctAnswer init] in Hca.
  repeat split.
  - intros Ha. now rewrite (resolved_B _ Ha) in Hca.
  - intros Ha. now rewrite (resolved_C _ Ha) in Hca.
  - intros Ha Hn. now rewrite (resolved_no_letter _ Ha Hn) in Hca.
Qed.

Lemma C5_witness :
  (exists q, parse_section Inputs.quiz_B = Some q /\ q_correctAnswer q = 1%Z)
  /\ (exists q, parse_section Inputs.quiz_C = Some q /\ q_correctAnswer q = 2%Z)
  /\ (exists q, parse_section Inputs.quiz_none = Some q /\ q_correctAnswer q = 0%Z).
Proof.
  split; [|split].
  - eexists. split; [vm_compute; reflexivity|].
    apply (C5_answer_resolution Inputs.quiz_B
             [lit "1. What is 2+2?"; lit "A) 3"; lit "B) 4"] []
             (lit "Answer: B")); reflexivity.
  - eexists. split; [vm_compute; reflexivity|].
    apply (C5_answer_resolution Inputs.quiz_C
             [lit "Question: Capital of France?"; lit "a. Berlin"; lit "b. Rome";
              lit "(c) Paris"] []
             (lit "Correct Answer: **C**")); reflexivity.
  - eexists. split; [vm_compute; reflexivity|].
    apply (C5_answer_resolution Inputs.quiz_none
             [lit "Q2: Pick"; lit "A) yes"; lit "B) no"] []
             (lit "Answer: see text")); reflexivity.
Defined.

(** C3 (as stated, refuted). The block answered "Answer: D" with two
    options yields correctAnswer 3, which is not an index of its options;
    and the JSON quiz whose correctAnswer is 7 keeps 7 with its two
    options. *)
Lemma C3_counterexample :
  parseTextQuiz Inputs.quiz_D
  = [{| q_question := lit "Pick one"; q_options := [lit "yes"; lit "no"];
        q_correctAnswer := 3; q_explanation := [] |}]
  /\ (exists q, QuizViewer.questions Inputs.quiz_D = Returned [q]
                /\ QuizViewer.options_length q = Some 2
                /\ QuizViewer.correctAnswer q = Some (of_int 3)
                /\ QuizViewer.valid_answer q = false)
  /\ (exists q, QuizViewer.questions Inputs.quiz_json_7 = Returned [q]
                /\ QuizViewer.options_length q = Some 2
                /\ QuizViewer.correctAnswer q = Some (of_int 7)
                /\ QuizViewer.valid_answer q = false).
Proof.
  split; [vm_compute; reflexivity|].
  split; eexists; (split; [vm_compute; reflexivity|]); repeat split.
Qed.

(** C3 (amended). Every question of the text grammar has a non-empty
    question text, at least two options and a correctAnswer between 0
    and 3, hence a valid index whenever the block has four options or
    more; it comes from a section of the text, and its correctAnswer is 0
    when no line of that section resolves a letter.  On the JSON path an
    object keeps the correctAnswer the payload gives (correctAnswer, else
    correct_answer, else 0) without any check against its options. *)
Theorem C3_answer_range :
  (forall text q,
     In q (parseTextQuiz text) ->
     q_question q <> []
     /\ 2 <= length (q_options q)
     /\ (0 <= q_correctAnswer q <= 3)%Z
     /\ (4 <= length (q_options q) ->
         (q_correctAnswer q < Z.of_nat (length (q_options q)))%Z)
     /\ exists section,
          In section (sections_of text)
          /\ parse_section section = Some q
          /\ ((forall l, In l (section_lines section) -> resolved l = None) ->
              q_correctAnswer q = 0%Z))
  /\ (forall l,
        exists q, QuizViewer.normalize (JObj l) = Returned q
                  /\ QuizViewer.correctAnswer q = Some (QuizViewer.chosen_answer l)).
Proof.
  split.
  - intros text q Hin. unfold parseTextQuiz in Hin.
    apply quiz_collect_In in Hin as (section & Hs & Hq).
    pose proof (parse_section_inv _ Hq) as (Ht & Ho & Hca).
    rewrite fold_answer in Hca. cbn [q_correctAnswer init] in Hca.
    assert (Hr : (0 <= q_correctAnswer q <= 3)%Z).
    { destruct (@last_resolved_range (section_lines section) (-1)%Z) as [E | E].
      - now left.
      - rewrite E in Hca. simpl in Hca. lia.
      - destruct (Z.eqb_spec (last_resolved (section_lines section) (-1)) (-1)); lia. }
    repeat split; try lia.
    + intros E. rewrite E in Ht. discriminate.
    + exists section. repeat split; auto.
      intros Hn. rewrite (last_resolved_none _ _ Hn) in Hca. exact Hca.
  - intros l. eexists. split; [apply normalize_object|].
    simpl. apply lookup_set.
Qed.

Lemma C3_witness :
  In {| q_question := lit "What is 2+2?"; q_options := [lit "3"; lit "4"];
        q_correctAnswer := 1; q_explanation := [] |}
     (parseTextQuiz Inputs.quiz_B)
  /\ (0 <= 1 <= 3)%Z.
Proof.
  assert (H : In {| q_question := lit "What is 2+2?"; q_options := [lit "3"; lit "4"];
                    q_correctAnswer := 1; q_explanation := [] |}
                 (parseTextQuiz Inputs.quiz_B)).
  { vm_compute. left. reflexivity. }
  split; [exact H|].
  exact (proj1 (proj2 (proj2 (proj1 C3_answer_range _ _ H)))).
Defined.

End QuizFacts.

(* ================================================================== *)
(** * Properties of the flashcard grammar *)
(* ================================================================== *)

Module FlashcardsFacts.

Import Flashcards StrFacts ReFacts.

Lemma strip_q_inked s : ink s = true -> inked (remove_match fl_i re_q_strip s).
Proof.
  intros H.
  apply (@remove_anchored_star fl_i
           [RGroup 1 (RAlt (rlit "Q") (rlit "Question")); rchar (ch ":")] s);
    auto.
Qed.

Lemma strip_a_inked s : ink s = true -> inked (remove_match fl_i re_a_strip s).
Proof.
  intros H.
  apply (@remove_anchored_star fl_i
           [RGroup 1 (RAlt (rlit "A") (rlit "Answer")); rchar (ch ":")] s);
    auto.
Qed.

Lemma inked_append s l : ink l = true -> inked (s ++ [LF] ++ l).
Proof.
  intros H. right. apply ink_app_r. now apply ink_app_r.
Qed.

Lemma scan_back_inked lines : forall back,
  inked back -> (forall l, In l lines -> ink l = true) ->
  inked (scan_back back lines).
Proof.
  induction lines as [|l lines IH]; intros back Hb Hl; simpl; auto.
  destruct (test fl_i re_q l); simpl; auto.
  apply IH.
  - apply inked_append. apply Hl. now left.
  - intros l' H. apply Hl. now right.
Qed.

Lemma scan_front_inked lines : forall f,
  inked f -> (forall l, In l lines -> ink l = true) ->
  inked (fst (scan_front f lines)) /\ inked (snd (scan_front f lines)).
Proof.
  induction lines as [|l lines IH]; intros f Hf Hl; simpl.
  - split; auto. now left.
  - destruct (test fl_i re_a l); simpl.
    + split; auto. apply scan_back_inked.
      * apply strip_a_inked. apply Hl. now left.
      * intros l' H. apply Hl. now right.
    + apply IH.
      * apply inked_append. apply Hl. now left.
      * intros l' H. apply Hl. now right.
Qed.

Lemma scan_lines_inked lines :
  (forall l, In l lines -> ink l = true) ->
  inked (fst (scan_lines lines)) /\ inked (snd (scan_lines lines)).
Proof.
  induction lines as [|l lines IH]; intros Hl; simpl.
  - split; now left.
  - destruct (test fl_i re_q (trim l)).
    + apply scan_front_inked.
      * apply strip_q_inked. rewrite ink_trim. apply Hl. now left.
      * intros l' H. apply Hl. now right.
    + apply IH. intros l' H. apply Hl. now right.
Qed.

Lemma inked_truthy s : inked s -> truthy s = true -> nonblank s = true.
Proof.
  intros [-> | H]; [discriminate|]. now rewrite nonblank_ink.
Qed.

Lemma nonblank_not_nil s : nonblank s = true -> trim s <> [].
Proof.
  unfold nonblank. now destruct (trim s).
Qed.

Lemma primary_card_nonblank section c :
  primary_card section = Some c ->
  nonblank (front c) = true /\ nonblank (back c) = true.
Proof.
  unfold primary_card.
  destruct (Nat.leb 2 (length (section_lines section))); try discriminate.
  destruct (scan_lines_inked (section_lines section)) as [Hf Hb].
  { intros l. apply in_filter_nonblank. }
  destruct (scan_lines (section_lines section)) as [f b]. simpl in Hf, Hb.
  destruct (truthy f) eqn:Ef; try discriminate.
  destruct (truthy b) eqn:Eb; try discriminate.
  simpl. intros [= <-]. simpl. rewrite !nonblank_trim.
  split; now apply inked_truthy.
Qed.

Lemma fallback_card_back section c :
  fallback_card section = Some c -> nonblank (back c) = true.
Proof.
  unfold fallback_card.
  destruct (Nat.leb 2 (length (section_lines section))) eqn:E; try discriminate.
  pose proof (@in_filter_nonblank) as Hin.
  unfold section_lines in *.
  destruct (filter nonblank (split_lines section)) as [|l0 rest] eqn:El;
    try discriminate.
  intros [= <-]. simpl. rewrite nonblank_ink. apply ink_join_LF.
  - destruct rest; [discriminate | easy].
  - intros l Hl. apply (Hin l (split_lines section)). rewrite El. now right.
Qed.

Lemma cards_collect_In f sections c :
  In c (collect f sections) <-> exists s, In s sections /\ f s = Some c.
Proof.
  induction sections as [|s sections IH]; simpl.
  - split; [easy | now intros (s & [] & _)].
  - destruct (f s) as [c'|] eqn:E; simpl; rewrite IH; split.
    + intros [<- | (s' & Hs & Hq)]; eauto.
    + intros (s' & [<- | Hs] & Hq); [left; congruence | eauto].
    + intros (s' & Hs & Hq); eauto.
    + intros (s' & [<- | Hs] & Hq); [congruence | eauto].
Qed.

(** C9 (as stated, refuted). The numbered block whose first line is only
    "1." yields, through the fallback grammar, a card with an empty front;
    and the JSON deck with an empty front is returned as it is. *)
Lemma C9_counterexample :
  primary_cards Inputs.cards_numbered = []
  /\ parseTextFlashcards Inputs.cards_numbered
     = [{| front := []; back := lit "back" |}]
  /\ (exists c, FlashcardsViewer.flashcards Inputs.cards_numbered = Returned [c]
                /\ FlashcardsViewer.field (lit "front") c = Some []
                /\ FlashcardsViewer.valid_card c = false)
  /\ (exists c, FlashcardsViewer.flashcards Inputs.cards_json_empty_front
                = Returned [c]
                /\ FlashcardsViewer.field (lit "front") c = Some []
                /\ FlashcardsViewer.valid_card c = false).
Proof.
  split; [vm_compute; reflexivity|].
  split; [vm_compute; reflexivity|].
  split; eexists; (split; [vm_compute; reflexivity|]); split; reflexivity.
Qed.

(** C9 (amended). Every card of the primary Q:/A: grammar has a front and
    a back that are non-empty after trimming, and when that grammar yields
    a card its cards are the result; the placeholder card has both
    non-empty too; a card of the numbered-line fallback has a back that
    is non-empty after trimming; and the JSON path returns the elements
    of the decoded array as they are, unchecked. *)
Theorem C9_cards_nonblank :
  (forall text c,
     In c (primary_cards text) -> trim (front c) <> [] /\ trim (back c) <> [])
  /\ (forall text,
        primary_cards text <> [] -> parseTextFlashcards text = primary_cards text)
  /\ (trim (front sample_card) <> [] /\ trim (back sample_card) <> [])
  /\ (forall text c,
        In c (collect fallback_card (split noflags re_blank_line text)) ->
        trim (back c) <> [])
  /\ (forall content l,
        JSON_parse content = Returned (JArr l) ->
        FlashcardsViewer.flashcards content = Returned l).
Proof.
  repeat split.
  - apply nonblank_not_nil. unfold primary_cards in H.
    apply cards_collect_In in H as (s & _ & H). now apply primary_card_nonblank in H.
  - apply nonblank_not_nil. unfold primary_cards in H.
    apply cards_collect_In in H as (s & _ & H). now apply primary_card_nonblank in H.
  - intros text H. unfold parseTextFlashcards, primary_cards in *.
    now destruct (collect primary_card (split noflags re_blank_line text)).
  - vm_compute. discriminate.
  - vm_compute. discriminate.
  - intros text c H. apply nonblank_not_nil.
    apply cards_collect_In in H as (s & _ & H). now apply fallback_card_back in H.
  - intros content l H. unfold FlashcardsViewer.flashcards, FlashcardsViewer.json_path.
    now rewrite H.
Qed.

Lemma C9_witness :
  In {| front := lit "What is Rocq?"; back := lit "A proof assistant" |}
     (primary_cards Inputs.cards_qa)
  /\ trim (lit "What is Rocq?") <> []
  /\ trim (lit "A proof assistant") <> []
  /\ parseTextFlashcards Inputs.cards_qa = primary_cards Inputs.cards_qa.
Proof.
  destruct C9_cards_nonblank as (H1 & H2 & _).
  assert (H : In {| front := lit "What is Rocq?"; back := lit "A proof assistant" |}
                 (primary_cards Inputs.cards_qa)).
  { vm_compute. left. reflexivity. }
  split; [exact H|].
  split; [exact (proj1 (H1 _ _ H))|].
  split; [exact (proj2 (H1 _ _ H))|].
  apply H2. vm_compute. discriminate.
Defined.

End FlashcardsFacts.

(* ================================================================== *)
(** * Properties of the viewers' parse steps *)
(* ================================================================== *)

Module ViewerFacts.

Import Inputs.

Lemma timeline_nonempty text : Timeline.parseTextTimeline text <> [].
Proof.
  unfold Timeline.parseTextTimeline.
  destruct (Timeline.block_events text); [|discriminate].
  destruct (Timeline.bullet_events text); discriminate.
Qed.

Lemma flashcards_nonempty text : Flashcards.parseTextFlashcards text <> [].
Proof.
  unfold Flashcards.parseTextFlashcards.
  destruct (Flashcards.collect Flashcards.primary_card _); [|discriminate].
  destruct (Flashcards.collect Flashcards.fallback_card _); discriminate.
Qed.

Lemma mindmap_nonempty text :
  MindMap.nodes (MindMap.parseTextMindMap text) <> [].
Proof.
  unfold MindMap.parseTextMindMap. simpl.
  destruct (MindMap.st_nodes _); discriminate.
Qed.

(** The mind-map component destructures what its parse step returns;
    on the JSON text "null" that throws. *)
Lemma mindmap_null_destructuring :
  MindMapViewer.parse (lit "null") = Returned (MindMapViewer.FromJson JNull)
  /\ MindMapViewer.initial (lit "null") = Thrown TypeError.
Proof.
  split; vm_compute; reflexivity.
Qed.

(** C1 (as stated, refuted). For the empty string and for a string of
    blanks the quiz parse step returns no question; for the JSON object
    "{}" the quiz, timeline and flashcard steps return an empty list. *)
Lemma C1_counterexample :
  QuizViewer.questions [] = Returned []
  /\ QuizViewer.questions (lit "   ") = Returned []
  /\ QuizViewer.questions (lit "{}") = Returned []
  /\ TimelineViewer.events (lit "{}") = Returned []
  /\ FlashcardsViewer.flashcards (lit "{}") = Returned [].
Proof.
  repeat split; vm_compute; reflexivity.
Qed.

(** C1 (amended). For every input string the parse steps of the quiz,
    timeline and flashcard viewers return without throwing, and this is
    what they return.  When the input (for the quiz: the cleaned input)
    is not valid JSON: the model of the viewer's text grammar, which is
    never empty for the timeline and the flashcards and may be empty for
    the quiz.  When it is valid JSON that is not an array: the empty
    list.  When it is an array: its elements as they are for the timeline
    and the flashcards; for the quiz its normalized elements, or the
    questions of the text grammar when normalizing throws.  When the
    input is not valid JSON, the mind-map viewer's statement -- the parse
    step and the destructuring of its result -- gives the nodes and edges
    of the outline grammar, and the nodes are never empty. *)
Theorem C1_parse_steps (content : jstring) :
  QuizViewer.questions content
  = Returned
      match JSON_parse (QuizViewer.cleanContent content) with
      | Returned (JArr l) =>
          match map_outcome QuizViewer.normalize l with
          | Returned qs => qs
          | Thrown _ => map QuizViewer.of_question (Quiz.parseTextQuiz content)
          end
      | Returned _ => []
      | Thrown _ => map QuizViewer.of_question (Quiz.parseTextQuiz content)
      end
  /\ TimelineViewer.events content
     = Returned
         match JSON_parse content with
         | Returned (JArr l) => l
         | Returned _ => []
         | Thrown _ =>
             map TimelineViewer.of_event (Timeline.parseTextTimeline content)
         end
  /\ FlashcardsViewer.flashcards content
     = Returned
         match JSON_parse content with
         | Returned (JArr l) => l
         | Returned _ => []
         | Thrown _ =>
             map FlashcardsViewer.of_card
               (Flashcards.parseTextFlashcards content)
         end
  /\ Timeline.parseTextTimeline content <> []
  /\ Flashcards.parseTextFlashcards content <> []
  /\ MindMap.nodes (MindMap.parseTextMindMap content) <> []
  /\ (forall e, JSON_parse content = Thrown e ->
        MindMapViewer.initial content
        = Returned (MindMapViewer.TextFields
                      (MindMap.parseTextMindMap content))).
Proof.
  split; [|split; [|split]].
  - unfold QuizViewer.questions, QuizViewer.json_path.
    destruct (JSON_parse (QuizViewer.cleanContent content)) as [v|e];
      [|reflexivity].
    destruct v; try reflexivity. cbn [bind].
    now destruct (map_outcome QuizViewer.normalize l).
  - unfold TimelineViewer.events, TimelineViewer.json_path.
    destruct (JSON_parse content) as [v|e]; [|reflexivity].
    now destruct v.
  - unfold FlashcardsViewer.flashcards, FlashcardsViewer.json_path.
    destruct (JSON_parse content) as [v|e]; [|reflexivity].
    now destruct v.
  - split; [apply timeline_nonempty|].
    split; [apply flashcards_nonempty|].
    split; [apply mindmap_nonempty|].
    intros e H. unfold MindMapViewer.initial, MindMapViewer.parse.
    now rewrite H.
Qed.

Lemma C1_witness :
  MindMapViewer.initial outline_dedent
  = Returned (MindMapViewer.TextFields (MindMap.parseTextMindMap outline_dedent))
  /\ TimelineViewer.events (lit "Hello world")
     = Returned (map TimelineViewer.of_event
                   (Timeline.parseTextTimeline (lit "Hello world")))
  /\ QuizViewer.questions (lit "{}") = Returned []
  /\ TimelineViewer.events (lit "[]") = Returned [].
Proof.
  split; [|split; [|split]].
  - destruct (C1_parse_steps outline_dedent) as (_ & _ & _ & _ & _ & _ & H).
    apply (H SyntaxError). reflexivity.
  - destruct (C1_parse_steps (lit "Hello world")) as (_ & H & _).
    rewrite H. reflexivity.
  - destruct (C1_parse_steps (lit "{}")) as (H & _).
    rewrite H. reflexivity.
  - destruct (C1_parse_steps (lit "[]")) as (_ & H & _).
    rewrite H. reflexivity.
Defined.

(** C4 (evaluation at the failing inputs). A JSON array wrapped in a
    fenced block tagged json is not valid JSON as it stands, and the
    timeline, flashcard and mind-map steps parse it as it stands: they
    fall to their text grammars (the timeline's first event is titled by
    the opening fence), while the quiz step strips the fences and decodes
    the payload. *)
Theorem C4_fences_stripped_by_quiz_only :
  JSON_parse (fence timeline_json) = Thrown SyntaxError
  /\ (exists l, JSON_parse timeline_json = Returned (JArr l))
  /\ TimelineViewer.events (fence timeline_json)
     = Returned (map TimelineViewer.of_event
                   (Timeline.parseTextTimeline (fence timeline_json)))
  /\ map Timeline.title (Timeline.parseTextTimeline (fence timeline_json))
     = [lit "```json"]
  /\ (exists l, JSON_parse cards_json = Returned (JArr l))
  /\ FlashcardsViewer.flashcards (fence cards_json)
     = Returned (map FlashcardsViewer.of_card
                   (Flashcards.parseTextFlashcards (fence cards_json)))
  /\ (exists v, JSON_parse mindmap_json = Returned v)
  /\ MindMapViewer.parse (fence mindmap_json)
     = Returned (MindMapViewer.FromText
                   (MindMap.parseTextMindMap (fence mindmap_json)))
  /\ QuizViewer.cleanContent (fence quiz_json) = quiz_json
  /\ QuizViewer.json_path (fence quiz_json)
     = QuizViewer.json_path quiz_json
  /\ (exists q, QuizViewer.questions (fence quiz_json) = Returned [q]
                /\ QuizViewer.correctAnswer q = Some (of_int 1)).
Proof.
  repeat split; try (vm_compute; reflexivity);
    eexists; try split; vm_compute; reflexivity.
Qed.

End ViewerFacts.

(* ================================================================== *)
(** * Properties of the flashcard session *)
(* ================================================================== *)

Module FlashcardSessionFacts.

Import FlashcardSession.

Section Deck.

Variable flashcards : list json.
Hypothesis nonempty : flashcards <> [].

Lemma deck_length_pos : 0 < length flashcards.
Proof. destruct flashcards; [easy | simpl; lia]. Qed.

Lemma deck_length_eqb : Nat.eqb (length flashcards) 0 = false.
Proof. apply Nat.eqb_neq. pose proof deck_length_pos. lia. Qed.

Lemma handle_in_deck s e : in_deck flashcards s -> in_deck flashcards (handle flashcards s e).
Proof.
  intros (n & Hn & Hlt). pose proof deck_length_pos as Hp.
  destruct e; unfold in_deck; simpl; rewrite ?Hn; simpl; rewrite ?deck_length_eqb.
  - eexists. split; eauto. apply Nat.mod_upper_bound. lia.
  - eexists. split; eauto. apply Nat.mod_upper_bound. lia.
  - eauto.
Qed.

Lemma run_in_deck es : forall s, in_deck flashcards s -> in_deck flashcards (run flashcards s es).
Proof.
  induction es as [|e es IH]; simpl; auto.
  intros s H. apply IH. now apply handle_in_deck.
Qed.

Lemma initial_in_deck : in_deck flashcards initial.
Proof. exists 0. split; auto. apply deck_length_pos. Qed.

Lemma next_prev_index n :
  n < length flashcards ->
  next_index flashcards (prev_index flashcards (Idx n)) = Idx n.
Proof.
  intros Hn. simpl. rewrite deck_length_eqb. simpl. rewrite deck_length_eqb.
  f_equal. set (L := length flashcards) in *.
  destruct (Nat.eq_dec n 0) as [-> | Hz].
  - replace (0 + L - 1) with (L - 1) by lia.
    rewrite (Nat.mod_small (L - 1) L) by lia.
    replace (L - 1 + 1) with L by lia. apply Nat.Div0.mod_same.
  - replace (n + L - 1) with ((n - 1) + 1 * L) by lia.
    rewrite Nat.Div0.mod_add, (Nat.mod_small (n - 1) L) by lia.
    replace (n - 1 + 1) with n by lia. apply Nat.mod_small. lia.
Qed.

Lemma prev_next_index n :
  n < length flashcards ->
  prev_index flashcards (next_index flashcards (Idx n)) = Idx n.
Proof.
  intros Hn. simpl. rewrite deck_length_eqb. simpl. rewrite deck_length_eqb.
  f_equal. set (L := length flashcards) in *.
  destruct (Nat.eq_dec (n + 1) L) as [E | Hne].
  - rewrite E, Nat.Div0.mod_same.
    replace (0 + L - 1) with (L - 1) by lia. rewrite Nat.mod_small; lia.
  - rewrite (Nat.mod_small (n + 1) L) by lia.
    replace (n + 1 + L - 1) with (n + 1 * L) by lia.
    rewrite Nat.Div0.mod_add. apply Nat.mod_small. lia.
Qed.

(** [k] times "Next" moves the index by [k], around the deck. *)
Lemma next_iter k : forall n,
  currentIndex (run flashcards {| currentIndex := Idx n; isFlipped := false |}
                  (repeat NextCard k))
  = Idx (if Nat.eqb k 0 then n else (n + k) mod length flashcards).
Proof.
  induction k as [|k IH]; intros n; [reflexivity|].
  cbn [repeat].
  change (run flashcards ?s (NextCard :: ?es))
    with (run flashcards (nextCard flashcards s) es).
  unfold nextCard. cbn [currentIndex next_index].
  rewrite deck_length_eqb, IH. f_equal.
  destruct k as [|k]; cbn [Nat.eqb].
  - reflexivity.
  - rewrite Nat.Div0.add_mod_idemp_l. f_equal. lia.
Qed.

End Deck.

(** X1. In a deck that is not empty, "Next" and "Previous" keep the index
    inside the deck whatever the sequence of events, they undo each
    other on every position of the deck, and as many "Next" as there are
    cards bring the index back where it was. *)
Theorem flashcard_navigation_is_circular (flashcards : list json) :
  flashcards <> [] ->
  (forall es, in_deck flashcards (run flashcards initial es))
  /\ (forall s, in_deck flashcards s ->
        currentIndex (nextCard flashcards (prevCard flashcards s)) = currentIndex s
        /\ currentIndex (prevCard flashcards (nextCard flashcards s)) = currentIndex s)
  /\ (forall n, n < length flashcards ->
        currentIndex (run flashcards {| currentIndex := Idx n; isFlipped := false |}
                        (repeat NextCard (length flashcards)))
        = Idx n).
Proof.
  intros Hne. repeat split.
  - intros es. apply run_in_deck; auto. now apply initial_in_deck.
  - destruct H as (n & Hn & Hlt). simpl. rewrite Hn. now apply next_prev_index.
  - destruct H as (n & Hn & Hlt). simpl. rewrite Hn. now apply prev_next_index.
  - intros n Hn. rewrite next_iter by auto.
    pose proof (deck_length_pos Hne) as Hp.
    rewrite (deck_length_eqb Hne).
    replace (n + length flashcards) with (n + 1 * length flashcards) by lia.
    rewrite Nat.Div0.mod_add. f_equal. apply Nat.mod_small. lia.
Qed.

Lemma flashcard_navigation_witness :
  let deck := map FlashcardsViewer.of_card
                (Flashcards.parseTextFlashcards Inputs.cards_qa) in
  in_deck deck (run deck initial [NextCard; NextCard; PrevCard; FlipCard])
  /\ currentIndex (run deck initial (repeat NextCard (length deck))) = Idx 0.
Proof.
  intros deck.
  assert (Hne : deck <> []) by (vm_compute; discriminate).
  destruct (flashcard_navigation_is_circular Hne) as (H1 & _ & H3).
  split; [apply H1|]. apply (H3 0). vm_compute. lia.
Defined.

Lemma NaN_stays flashcards es : forall s,
  currentIndex s = NaN -> currentIndex (run flashcards s es) = NaN.
Proof.
  induction es as [|e es IH]; simpl; auto.
  intros s H. apply IH. destruct e; simpl; now rewrite H.
Qed.

(** X2. For a deck parsed from text, whatever the events, the card
    shown is a card of the deck, never the "No flashcards" placeholder.
    On an empty deck (the JSON path can return one) the first "Next" or
    "Previous" turns the index into NaN; it stays NaN under every further
    event and the placeholder is shown. *)
Theorem flashcard_current_card :
  (forall text es,
     let deck := map FlashcardsViewer.of_card (Flashcards.parseTextFlashcards text) in
     exists c, currentCard deck (run deck initial es) = Some c /\ In c deck)
  /\ (forall e es,
        e <> FlipCard ->
        currentIndex (run [] initial (e :: es)) = NaN
        /\ currentCard [] (run [] initial (e :: es)) = None).
Proof.
  split.
  - intros text es deck.
    assert (Hne : deck <> []).
    { unfold deck. intros E. apply map_eq_nil in E.
      revert E. unfold Flashcards.parseTextFlashcards.
      destruct (Flashcards.collect Flashcards.primary_card _); [|discriminate].
      destruct (Flashcards.collect Flashcards.fallback_card _); discriminate. }
    destruct (run_in_deck Hne es (initial_in_deck Hne)) as (n & Hn & Hlt).
    unfold currentCard. rewrite Hn.
    destruct (nth_error deck n) as [c|] eqn:E.
    + assert (Hin : In c deck) by (eapply nth_error_In; eauto).
      exists c. split; auto.
      unfold deck in Hin. apply in_map_iff in Hin as (x & <- & _). reflexivity.
    + apply nth_error_None in E. lia.
  - intros e es He.
    assert (H : currentIndex (run [] initial (e :: es)) = NaN).
    { simpl. apply NaN_stays. now destruct e. }
    split; auto. unfold currentCard. now rewrite H.
Qed.

Lemma flashcard_current_card_witness :
  currentIndex (run [] initial [NextCard; FlipCard; PrevCard]) = NaN.
Proof.
  destruct flashcard_current_card as (_ & H).
  apply (H NextCard [FlipCard; PrevCard]). discriminate.
Defined.

End FlashcardSessionFacts.

(* ================================================================== *)
(** * More properties of the quiz session *)
(* ================================================================== *)

Module SessionRunsFacts.

Import Session SessionRuns.

Section Quiz.

Variable questions : list json.
Hypothesis nonempty : questions <> [].

Lemma quiz_length_pos : 0 < length questions.
Proof. destruct questions; [easy | simpl; lia]. Qed.

Lemma Placed_initial : Placed questions initial.
Proof.
  split; simpl; try discriminate. apply quiz_length_pos.
Qed.

Lemma Placed_handle s e : Placed questions s -> Placed questions (handle questions s e).
Proof.
  intros [Hi Hc Hr]. destruct e as [i| | |]; simpl.
  - unfold handleAnswerSelect.
    destruct (showResult s) eqn:E; split; simpl; auto; try discriminate;
      now rewrite E.
  - unfold handleSubmitAnswer.
    destruct (selectedAnswer s) as [sel|] eqn:Es; [|split; auto; now rewrite Es].
    destruct (isCorrect questions s sel) as [[|]|];
      [destruct (negb (includes (answeredQuestions s) (currentIndex s)))| |];
      split; simpl; auto; rewrite ?Es; discriminate.
  - unfold handleNextQuestion.
    destruct (Nat.ltb (currentIndex s) (length questions - 1)) eqn:E.
    + apply Nat.ltb_lt in E. split; simpl; try discriminate.
      * lia.
      * intros Hd. specialize (Hc Hd). lia.
    + apply Nat.ltb_ge in E. split; simpl; auto. intros _. lia.
  - apply Placed_initial.
Qed.

Lemma Placed_run es : forall s, Placed questions s -> Placed questions (run questions s es).
Proof.
  induction es as [|e es IH]; simpl; auto.
  intros s H. apply IH. now apply Placed_handle.
Qed.

End Quiz.

Lemma includes_below l i : (forall j, In j l -> j < i) -> includes l i = false.
Proof.
  intros H. unfold includes. apply not_true_is_false. intros E.
  apply existsb_exists in E as (x & Hx & E). apply Nat.eqb_eq in E. subst.
  specialize (H _ Hx). lia.
Qed.

(** Answering from position [length pre] on, each question with its own
    answer. *)
Lemma answer_all_from post : forall pre answers s,
  post <> [] ->
  Forall2 is_answer_of post answers ->
  currentIndex s = length pre ->
  showResult s = false ->
  (forall j, In j (answeredQuestions s) -> j < length pre) ->
  let s' := run (pre ++ post) s (answer_all answers) in
  score s' = score s + length post /\ completed s' = true
  /\ currentIndex s' = length (pre ++ post) - 1.
Proof.
  induction post as [|q post IH]; intros pre answers s Hne HF Hi Hs Ha; [easy|].
  inversion HF as [|q' a post' answers' (v & Hv & Heq) HF']; subst.
  cbn [answer_all flat_map app].
  change (run ?qs s (Select a :: Submit :: Next :: ?es))
    with (run qs (handleNextQuestion qs
                    (handleSubmitAnswer qs (handleAnswerSelect a s))) es).
  set (qs := pre ++ q :: post).
  assert (Hq : nth_error qs (length pre) = Some q).
  { unfold qs. rewrite nth_error_app2 by lia. now rewrite Nat.sub_diag. }
  assert (Hsub : handleSubmitAnswer qs (handleAnswerSelect a s)
                 = {| currentIndex := length pre; selectedAnswer := Some a;
                      showResult := true; score := score s + 1;
                      completed := completed s;
                      answeredQuestions := answeredQuestions s ++ [length pre] |}).
  { unfold handleAnswerSelect. rewrite Hs.
    unfold handleSubmitAnswer, isCorrect. cbn [selectedAnswer currentIndex].
    rewrite Hi, Hq, Hv, Heq. cbn [answeredQuestions].
    rewrite (includes_below _ Ha). reflexivity. }
  rewrite Hsub. unfold handleNextQuestion. cbn [currentIndex].
  clear Hsub Hq. subst qs. rewrite !length_app.
  destruct post as [|q2 post].
  - inversion HF'; subst. cbn [flat_map run fold_left length].
    replace (Nat.ltb (length pre) (length pre + 1 - 1)) with false
      by (symmetry; apply Nat.ltb_ge; lia).
    cbn. repeat split; lia.
  - replace (Nat.ltb (length pre) (length pre + length (q :: q2 :: post) - 1))
      with true by (symmetry; apply Nat.ltb_lt; simpl; lia).
    cbn [score completed answeredQuestions].
    specialize (IH (pre ++ [q]) answers'
                  {| currentIndex := length pre + 1; selectedAnswer := None;
                     showResult := false; score := score s + 1;
                     completed := completed s;
                     answeredQuestions := answeredQuestions s ++ [length pre] |}).
    rewrite <- app_assoc in IH. cbn [app] in IH.
    destruct IH as (H1 & H2 & H3); auto.
    + discriminate.
    + cbn. rewrite length_app. reflexivity.
    + cbn. intros j Hj. rewrite length_app. simpl.
      apply in_app_or in Hj as [Hj | [<- | []]]; [specialize (Ha _ Hj)|]; lia.
    + cbn [score] in H1. rewrite length_app in H3.
      split; [|split]; [etransitivity; [exact H1|] | exact H2
                       | etransitivity; [exact H3|]]; simpl length; lia.
Qed.

(** X3. In a quiz that is not empty, whatever the events, the current
    index is an index of the quiz, the quiz is completed only on its
    last question, and a result is shown only for an answer that was
    selected. *)
Theorem quiz_position_invariant (questions : list json) (es : list event) :
  questions <> [] ->
  let s := run questions initial es in
  currentIndex s < length questions
  /\ (completed s = true -> currentIndex s = length questions - 1)
  /\ (showResult s = true -> selectedAnswer s <> None).
Proof.
  intros Hne s.
  destruct (Placed_run Hne es (Placed_initial Hne)) as [H1 H2 H3]. auto.
Qed.

Lemma quiz_position_witness :
  let qs := map QuizViewer.of_question (Quiz.parseTextQuiz Inputs.quiz_B) in
  currentIndex (run qs initial [Select 1; Submit; Next; Next; Select 0]) < length qs.
Proof.
  intros qs.
  apply (quiz_position_invariant (questions := qs)
           [Select 1; Submit; Next; Next; Select 0]).
  vm_compute. discriminate.
Defined.

(** X4. Answering every question of a quiz in turn with its own
    correctAnswer (select, submit, next) ends in the completed state with
    a score equal to the number of questions. *)
Theorem answering_all_correctly_scores_all (questions : list json) (answers : list nat) :
  questions <> [] ->
  Forall2 is_answer_of questions answers ->
  let s := run questions initial (answer_all answers) in
  score s = length questions /\ completed s = true.
Proof.
  intros Hne HF s.
  destruct (@answer_all_from questions [] answers initial Hne HF) as (H1 & H2 & _);
    auto.
  intros j [].
Qed.

Lemma answering_all_witness :
  let qs := map QuizViewer.of_question
              (Quiz.parseTextQuiz
                 (join [LF] [Inputs.quiz_B; lit ""; Inputs.quiz_D])) in
  score (run qs initial (answer_all [1; 3])) = length qs.
Proof.
  intros qs.
  apply (@answering_all_correctly_scores_all qs [1; 3]).
  - vm_compute. discriminate.
  - vm_compute. repeat constructor;
      (eexists; split; [reflexivity | reflexivity]).
Defined.

End SessionRunsFacts.

(* ================================================================== *)
(** * Properties of the quiz JSON path *)
(* ================================================================== *)

Module QuizJsonFacts.

Import QuizJson.

Lemma eqb_eq (a b : jstring) : Str.eqb a b = true <-> a = b.
Proof.
  revert b. induction a as [|x a IH]; intros [|y b]; simpl; split;
    try discriminate; auto.
  - intros H. apply andb_prop in H as [H1 H2].
    apply N.eqb_eq in H1. apply IH in H2. now subst.
  - intros [= -> ->]. rewrite N.eqb_refl. now apply IH.
Qed.

Lemma eqb_neq (a b : jstring) : a <> b -> Str.eqb a b = false.
Proof.
  intros H. destruct (Str.eqb a b) eqn:E; auto. now apply eqb_eq in E.
Qed.

Lemma lookup_set_same key v l : lookup key (set key v l) = Some v.
Proof.
  induction l as [|[k x] l IH]; simpl.
  - now rewrite (proj2 (eqb_eq key key) eq_refl).
  - destruct (Str.eqb k key) eqn:E; simpl; now rewrite E.
Qed.

Lemma lookup_set_other key k v l :
  k <> key -> lookup k (set key v l) = lookup k l.
Proof.
  intros Hk. induction l as [|[k0 x] l IH]; simpl.
  - rewrite eqb_neq; auto.
  - destruct (Str.eqb k0 key) eqn:E; simpl.
    + apply eqb_eq in E. subst k0. now rewrite !eqb_neq by auto.
    + now rewrite IH.
Qed.

Lemma set_set key v l : set key v (set key v l) = set key v l.
Proof.
  induction l as [|[k x] l IH]; simpl.
  - now rewrite (proj2 (eqb_eq key key) eq_refl).
  - destruct (Str.eqb k key) eqn:E; simpl; rewrite E; auto. now rewrite IH.
Qed.

Lemma chosen_not_null l : QuizViewer.chosen_answer l <> JNull.
Proof.
  unfold QuizViewer.chosen_answer.
  destruct (lookup (lit "correctAnswer") l) as [[]|]; simpl; try discriminate;
    destruct (lookup (lit "correct_answer") l) as [[]|]; simpl; discriminate.
Qed.

Lemma normalize_props l :
  QuizViewer.normalize (JObj l)
  = Returned (JObj (set key_correctAnswer (QuizViewer.chosen_answer l) l)).
Proof.
  unfold QuizViewer.normalize, QuizViewer.chosen_answer, key_correctAnswer. simpl.
  destruct (lookup (lit "correctAnswer") l) as [[]|]; simpl; auto;
    destruct (lookup (lit "correct_answer") l) as [[]|]; simpl; auto.
Qed.

Lemma chosen_after l :
  QuizViewer.chosen_answer
    (set key_correctAnswer (QuizViewer.chosen_answer l) l)
  = QuizViewer.chosen_answer l.
Proof.
  pose proof (chosen_not_null l) as Hn.
  unfold QuizViewer.chosen_answer at 1.
  change (lit "correctAnswer") with key_correctAnswer.
  rewrite lookup_set_same.
  destruct (QuizViewer.chosen_answer l); simpl; auto. now destruct Hn.
Qed.

(** X5. Normalizing a decoded question object never throws and changes
    nothing but [correctAnswer]: every other property keeps its value;
    [correctAnswer] becomes the payload's [correctAnswer] when that is
    neither missing nor null, else its [correct_answer] when that is
    neither missing nor null, else 0 -- never null; and normalizing the
    result again changes nothing. *)
Theorem normalize_keeps_fields (l : list (jstring * json)) :
  exists l',
    QuizViewer.normalize (JObj l) = Returned (JObj l')
    /\ lookup key_correctAnswer l' = Some (QuizViewer.chosen_answer l)
    /\ QuizViewer.chosen_answer l <> JNull
    /\ (forall k, k <> key_correctAnswer -> lookup k l' = lookup k l)
    /\ (nullish (lookup key_correctAnswer l) = false ->
        Some (QuizViewer.chosen_answer l) = lookup key_correctAnswer l)
    /\ (nullish (lookup key_correctAnswer l) = true ->
        nullish (lookup key_correct_answer l) = false ->
        Some (QuizViewer.chosen_answer l) = lookup key_correct_answer l)
    /\ (nullish (lookup key_correctAnswer l) = true ->
        nullish (lookup key_correct_answer l) = true ->
        QuizViewer.chosen_answer l = of_int 0)
    /\ QuizViewer.normalize (JObj l') = Returned (JObj l').
Proof.
  exists (set key_correctAnswer (QuizViewer.chosen_answer l) l).
  split; [apply normalize_props|].
  split; [apply lookup_set_same|].
  split; [apply chosen_not_null|].
  split; [intros k Hk; now apply lookup_set_other|].
  assert (Hidem : QuizViewer.normalize
                    (JObj (set key_correctAnswer (QuizViewer.chosen_answer l) l))
                  = Returned (JObj (set key_correctAnswer
                                      (QuizViewer.chosen_answer l) l))).
  { rewrite normalize_props, chosen_after. now rewrite set_set. }
  revert Hidem.
  unfold QuizViewer.chosen_answer, key_correctAnswer, key_correct_answer, nullish.
  intros Hidem. repeat split.
  - destruct (lookup (lit "correctAnswer") l) as [[]|]; simpl; auto; discriminate.
  - destruct (lookup (lit "correctAnswer") l) as [[]|]; simpl; try discriminate;
      destruct (lookup (lit "correct_answer") l) as [[]|]; simpl; auto; discriminate.
  - destruct (lookup (lit "correctAnswer") l) as [[]|]; simpl; try discriminate;
      destruct (lookup (lit "correct_answer") l) as [[]|]; simpl; auto; discriminate.
  - exact Hidem.
Qed.

Lemma normalize_keeps_fields_witness :
  exists l',
    QuizViewer.normalize
      (JObj [(lit "question", JStr (lit "q")); (key_correct_answer, of_int 2)])
    = Returned (JObj l')
    /\ lookup key_correctAnswer l' = Some (of_int 2)
    /\ lookup (lit "question") l' = Some (JStr (lit "q")).
Proof.
  destruct (normalize_keeps_fields
              [(lit "question", JStr (lit "q")); (key_correct_answer, of_int 2)])
    as (l' & H1 & H2 & _ & H4 & _ & H6 & _).
  exists l'. split; [exact H1|]. split.
  - rewrite H2. apply H6; reflexivity.
  - rewrite H4; [reflexivity | vm_compute; discriminate].
Defined.

(** What [normalize] returns for a value that is not null. *)
Lemma normalize_not_null q :
  is_null q = false ->
  exists l', QuizViewer.normalize q = Returned (JObj l')
             /\ exists v, lookup key_correctAnswer l' = Some v /\ v <> JNull.
Proof.
  destruct q; try discriminate; intros _.
  1-4: eexists; split; [reflexivity|];
       exists (of_int 0); split; [apply lookup_set_same | discriminate].
  eexists. split; [apply normalize_props|].
  eexists. split; [apply lookup_set_same | apply chosen_not_null].
Qed.

Lemma map_normalize_ok l :
  existsb is_null l = false ->
  exists qs, map_outcome QuizViewer.normalize l = Returned qs
    /\ length qs = length l
    /\ Forall (fun q => exists v, QuizViewer.correctAnswer q = Some v /\ v <> JNull) qs.
Proof.
  induction l as [|q l IH]; simpl.
  - exists []. repeat split; auto.
  - intros H. apply orb_false_elim in H as [Hq Hl].
    destruct (normalize_not_null _ Hq) as (l' & Hn & v & Hv & Hnn).
    destruct (IH Hl) as (qs & Hm & Hlen & HF).
    exists (JObj l' :: qs). rewrite Hn, Hm. simpl. repeat split; auto.
    constructor; auto. exists v. split; auto.
Qed.

Lemma map_normalize_throws l :
  existsb is_null l = true ->
  map_outcome QuizViewer.normalize l = Thrown TypeError.
Proof.
  induction l as [|q l IH]; simpl; [discriminate|].
  destruct (is_null q) eqn:Hq; simpl.
  - destruct q; try discriminate. reflexivity.
  - intros Hl. destruct (normalize_not_null _ Hq) as (l' & -> & _).
    simpl. now rewrite (IH Hl).
Qed.

(** X6. When the cleaned content decodes to a JSON array, the quiz step
    returns one normalized question per element, each with a
    correctAnswer that is neither missing nor null -- unless an element
    is null: then the property access throws inside the [try] and the
    step returns what the text grammar makes of the raw content. *)
Theorem quiz_json_array (content : jstring) (l : list json) :
  JSON_parse (QuizViewer.cleanContent content) = Returned (JArr l) ->
  (existsb is_null l = false ->
   exists qs, QuizViewer.questions content = Returned qs
     /\ length qs = length l
     /\ Forall (fun q => exists v, QuizViewer.correctAnswer q = Some v
                                   /\ v <> JNull) qs)
  /\ (existsb is_null l = true ->
      QuizViewer.questions content
      = Returned (map QuizViewer.of_question (Quiz.parseTextQuiz content))).
Proof.
  intros Hp. unfold QuizViewer.questions, QuizViewer.json_path. rewrite Hp.
  simpl. split; intros H.
  - destruct (map_normalize_ok _ H) as (qs & -> & Hlen & HF).
    exists qs. auto.
  - now rewrite (map_normalize_throws _ H).
Qed.

Lemma quiz_json_array_witness :
  QuizViewer.questions (qlit "[{'question':'q'}, null]")
  = Returned (map QuizViewer.of_question
                (Quiz.parseTextQuiz (qlit "[{'question':'q'}, null]")))
  /\ exists qs, QuizViewer.questions (Inputs.fence Inputs.quiz_json) = Returned qs
                /\ length qs = 1.
Proof.
  split.
  - apply (proj2 (@quiz_json_array (qlit "[{'question':'q'}, null]")
                    [JObj [(lit "question", JStr (lit "q"))]; JNull] eq_refl)).
    reflexivity.
  - destruct (proj1 (@quiz_json_array (Inputs.fence Inputs.quiz_json)
                       [JObj [(lit "question", JStr (lit "q"));
                              (lit "options", JArr [JStr (lit "a"); JStr (lit "b")]);
                              (lit "correct_answer", of_int 1)]]
                       ltac:(vm_compute; reflexivity)) eq_refl)
      as (qs & H1 & H2 & _).
    exists qs. auto.
Defined.

End QuizJsonFacts.

(* ================================================================== *)
(** * The fence stripping of QuizViewer *)
(* ================================================================== *)

Module FenceFacts.

Import Fences QuizViewer.

(** ** Running the matcher on an input with a known beginning *)

Lemma cs_mem_char ic c : cs_mem ic (CChar c) c = true.
Proof. destruct ic; simpl; apply N.eqb_refl. Qed.

Lemma rmatch_chars fl w : forall b a cp k,
  rmatch fl (rseq (map rchar w)) (MState b (w ++ a) cp) k
  = k (MState (rev w ++ b) a cp).
Proof.
  induction w as [|c w IH]; intros b a cp k; [reflexivity|].
  destruct w as [|c' w].
  - cbn [rmatch rseq map rchar after before caps app rev].
    now rewrite cs_mem_char.
  - change (rseq (map rchar (c :: c' :: w)))
      with (RSeq (rchar c) (rseq (map rchar (c' :: w)))).
    change ((c :: c' :: w) ++ a) with (c :: ((c' :: w) ++ a)).
    cbn [rmatch rchar after before caps]. rewrite cs_mem_char.
    rewrite IH. cbn [rev]. now rewrite <- !app_assoc.
Qed.

Lemma greedy_stop p mx b c a cp k :
  p c = false ->
  greedy p 0 mx b (c :: a) cp k = k (MState b (c :: a) cp).
Proof.
  intros H. simpl. rewrite H. now destruct mx as [[|m]|].
Qed.

Lemma greedy_end p mx b cp k :
  greedy p 0 mx b [] cp k = k (MState b [] cp).
Proof. simpl. now destruct mx as [[|m]|]. Qed.

Lemma greedy_more p b c a cp k :
  p c = true ->
  greedy p 0 None b (c :: a) cp k
  = match greedy p 0 None (c :: b) a cp k with
    | Some r => Some r
    | None => k (MState b (c :: a) cp)
    end.
Proof. intros H. simpl. now rewrite H. Qed.

(** ** Removing every match *)

Lemma ra_end fl r b : remove_all_go fl r b [] 0 = [].
Proof. simpl. now destruct (match_at fl r b []). Qed.

Lemma ra_skip fl r : forall x b a,
  remove_all_go fl r b (x ++ a) (length x)
  = remove_all_go fl r (rev x ++ b) a 0.
Proof.
  induction x as [|c x IH]; intros b a; [reflexivity|].
  cbn [length app rev]. rewrite <- app_assoc. cbn [app].
  rewrite <- IH. reflexivity.
Qed.

Lemma ra_match fl r b c a st n :
  match_at fl r b (c :: a) = Some st ->
  pos st - length b = S n ->
  remove_all_go fl r b (c :: a) 0 = remove_all_go fl r (c :: b) a n.
Proof.
  intros Hm Hp. cbn [remove_all_go]. now rewrite Hm, Hp.
Qed.

Lemma ra_keep fl r b c a :
  match_at fl r b (c :: a) = None ->
  remove_all_go fl r b (c :: a) 0 = c :: remove_all_go fl r (c :: b) a 0.
Proof.
  intros Hm. cbn [remove_all_go]. now rewrite Hm.
Qed.

(** Over a stretch where the pattern matches nowhere, nothing is
    removed. *)
Lemma ra_keep_run fl r : forall x b a,
  (forall x1 c x2, x = x1 ++ c :: x2 ->
     match_at fl r (rev x1 ++ b) (c :: x2 ++ a) = None) ->
  remove_all_go fl r b (x ++ a) 0 = x ++ remove_all_go fl r (rev x ++ b) a 0.
Proof.
  induction x as [|c x IH]; intros b a H; [reflexivity|].
  cbn [app]. rewrite ra_keep by (apply (H [] c x); reflexivity).
  f_equal. cbn [rev]. rewrite <- app_assoc. cbn [app]. apply IH.
  intros x1 d x2 E. specialize (H (c :: x1) d x2).
  cbn [rev] in H. rewrite <- app_assoc in H. apply H. now rewrite E.
Qed.

(** ** The two fence patterns *)

Lemma open_unfold b a :
  match_at fl_gm re_fence_open b a
  = if at_bol fl_gm (start_at b a)
    then rmatch fl_gm (rlit "```") (start_at b a)
           (fun st => rmatch fl_gm (ROpt (rlit "json")) st after_tag)
    else None.
Proof. reflexivity. Qed.

Lemma after_tag_line b c a cp :
  is_space c = false ->
  after_tag (MState b (LF :: c :: a) cp) = Some (MState (LF :: b) (c :: a) cp).
Proof.
  intros Hc. unfold after_tag. cbn [rmatch star before after caps].
  rewrite greedy_more by reflexivity.
  rewrite greedy_stop by exact Hc.
  cbn [rmatch rchar after before caps].
  assert (E : cs_mem (icase fl_gm) (CChar LF) c = false).
  { cbn [cs_mem icase fl_gm]. apply N.eqb_neq. intros E'. subst c. discriminate. }
  rewrite E. now rewrite cs_mem_char.
Qed.

(** The opening fence, tagged json or not, followed by a payload that
    starts with ink, is matched up to its line feed. *)
Lemma open_tagged c a :
  is_space c = false ->
  match_at fl_gm re_fence_open [] (lit "```json" ++ LF :: c :: a)
  = Some (MState (rev (lit "```json" ++ [LF])) (c :: a) []).
Proof.
  intros Hc. rewrite open_unfold. cbn [at_bol before start_at].
  change (lit "```json" ++ LF :: c :: a)
    with (lit "```" ++ (lit "json" ++ LF :: c :: a)).
  unfold start_at, rlit. rewrite rmatch_chars.
  cbn [rmatch]. rewrite rmatch_chars.
  now rewrite after_tag_line.
Qed.

Lemma open_plain c a :
  is_space c = false ->
  match_at fl_gm re_fence_open [] (lit "```" ++ LF :: c :: a)
  = Some (MState (rev (lit "```" ++ [LF])) (c :: a) []).
Proof.
  intros Hc. rewrite open_unfold. cbn [at_bol before start_at].
  unfold start_at, rlit at 1. rewrite rmatch_chars.
  cbn [rmatch]. rewrite after_tag_line by exact Hc.
  reflexivity.
Qed.

(** Where the next code unit is not a backquote, no opening fence
    starts. *)
Lemma open_none b c a :
  (c =? backquote)%N = false -> match_at fl_gm re_fence_open b (c :: a) = None.
Proof.
  intros Hc. rewrite open_unfold. destruct (at_bol fl_gm (start_at b (c :: a))); auto.
  change (rlit "```") with (RSeq (rchar backquote) (rseq (map rchar [backquote; backquote]))).
  cbn [rmatch rchar after start_at].
  replace (cs_mem (icase fl_gm) (CChar backquote) c) with false; auto.
  cbn [cs_mem icase fl_gm]. symmetry. rewrite N.eqb_sym. exact Hc.
Qed.

(** Nor does a closing fence start where the code unit after the next
    is not a backquote. *)
Lemma close_none b c a :
  match a with [] => true | d :: _ => negb (d =? backquote)%N end = true ->
  match_at fl_gm re_fence_close b (c :: a) = None.
Proof.
  intros Ha. unfold match_at, re_fence_close.
  change (rseq [rchar LF; rlit "```"; star CSpace; REol])
    with (RSeq (rchar LF)
            (RSeq (RSeq (rchar backquote) (rseq (map rchar [backquote; backquote])))
                  (RSeq (star CSpace) REol))).
  cbn [rmatch rchar after start_at before caps].
  destruct (cs_mem (icase fl_gm) (CChar LF) c); auto.
  destruct a as [|d a]; auto.
  replace (cs_mem (icase fl_gm) (CChar backquote) d) with false; auto.
  cbn [cs_mem icase fl_gm]. symmetry. rewrite N.eqb_sym. now apply negb_true_iff.
Qed.

Lemma close_final b :
  exists st, match_at fl_gm re_fence_close b (LF :: lit "```") = Some st
             /\ pos st - length b = 4.
Proof.
  eexists. split; [reflexivity|]. unfold pos. cbn [before length start_at]. lia.
Qed.

(** ** Strings without backquote *)

Lemma no_backquote_split x x1 c x2 :
  no_backquote x = true -> x = x1 ++ c :: x2 ->
  (c =? backquote)%N = false
  /\ match x2 with [] => true | d :: _ => negb (d =? backquote)%N end = true.
Proof.
  intros H ->. unfold no_backquote in H.
  rewrite forallb_app in H. apply andb_prop in H as [_ H].
  simpl in H. apply andb_prop in H as [Hc H].
  split; [now apply negb_true_iff|].
  destruct x2 as [|d x2]; auto. simpl in H. now apply andb_prop in H as [H _].
Qed.

Lemma tight_head s : tight s = true ->
  exists c s', s = c :: s' /\ is_space c = false.
Proof.
  destruct s as [|c s']; [discriminate|]. unfold tight.
  intros H. apply andb_prop in H as [H _]. exists c, s'. split; auto.
  now apply negb_true_iff.
Qed.

Lemma dropWhile_head p (s : jstring) :
  match s with [] => True | c :: _ => p c = false end -> dropWhile p s = s.
Proof. destruct s as [|c s]; simpl; auto. now intros ->. Qed.

Lemma rev_head_last (s : jstring) c d :
  match rev (c :: s) with [] => True | x :: _ => x = last (c :: s) d end.
Proof.
  revert c. induction s as [|e s IH]; intros c; [reflexivity|].
  specialize (IH e). cbn [rev] in *.
  destruct (rev s ++ [e]) as [|x y] eqn:E.
  - now apply app_eq_nil in E as [_ [=]].
  - cbn [app]. exact IH.
Qed.

Lemma trim_tight s : tight s = true -> trim s = s.
Proof.
  intros H. destruct s as [|c s]; [discriminate|].
  unfold tight in H. apply andb_prop in H as [H1 H2].
  apply negb_true_iff in H1, H2.
  unfold trim. rewrite (dropWhile_head is_space (c :: s)) by exact H1.
  rewrite dropWhile_head; [apply rev_involutive|].
  pose proof (rev_head_last s c c) as Hl.
  destruct (rev (c :: s)); auto. now rewrite Hl.
Qed.

Lemma last_app_cons (x : jstring) c y d : last (x ++ c :: y) d = last (c :: y) d.
Proof.
  induction x as [|e x IH]; auto.
  cbn [app]. destruct (x ++ c :: y) as [|c0 l] eqn:E; [now destruct x|].
  change (last (e :: c0 :: l) d) with (last (c0 :: l) d). exact IH.
Qed.

Lemma tight_fence w p :
  tight (lit "```" ++ w ++ LF :: p ++ LF :: lit "```") = true.
Proof.
  change (lit "```" ++ w ++ LF :: p ++ LF :: lit "```")
    with (backquote :: (lit "``" ++ w ++ LF :: p ++ LF :: lit "```")).
  unfold tight. apply andb_true_intro. split; [reflexivity|].
  rewrite app_comm_cons, app_assoc, app_comm_cons, app_assoc, last_app_cons.
  reflexivity.
Qed.

Lemma open_at_closing b :
  remove_all_go fl_gm re_fence_open (LF :: b) (lit "```") 0 = lit "```".
Proof. reflexivity. Qed.

Lemma keep_payload_open p b :
  no_backquote p = true ->
  remove_all_go fl_gm re_fence_open b (p ++ LF :: lit "```") 0
  = p ++ LF :: lit "```".
Proof.
  intros Hb.
  change (p ++ LF :: lit "```") with (p ++ [LF] ++ lit "```").
  rewrite app_assoc. rewrite ra_keep_run.
  - rewrite rev_app_distr. cbn [rev app]. now rewrite open_at_closing.
  - intros x1 c x2 E. apply open_none.
    assert (Hb' : no_backquote (p ++ [LF]) = true).
    { unfold no_backquote in *. rewrite forallb_app.
      apply andb_true_intro. split; [exact Hb | reflexivity]. }
    now destruct (no_backquote_split _ _ _ Hb' E).
Qed.

Lemma strip_close p :
  no_backquote p = true ->
  remove_all fl_gm re_fence_close (p ++ LF :: lit "```") = p.
Proof.
  intros Hb. unfold remove_all. rewrite ra_keep_run.
  - destruct (close_final (rev p ++ [])) as (st & Hm & Hp).
    rewrite (@ra_match _ _ _ _ _ _ _ Hm Hp).
    rewrite (ra_skip fl_gm re_fence_close (lit "```") _ []).
    rewrite ra_end. apply app_nil_r.
  - intros x1 c x2 E. apply close_none.
    destruct (no_backquote_split _ _ _ Hb E) as [_ H].
    destruct x2; auto.
Qed.

Lemma strip_open w p :
  (forall c a, is_space c = false ->
     match_at fl_gm re_fence_open [] (backquote :: w ++ LF :: c :: a)
     = Some (MState (rev (backquote :: w ++ [LF])) (c :: a) [])) ->
  tight p = true -> no_backquote p = true ->
  remove_all fl_gm re_fence_open (backquote :: w ++ LF :: p ++ LF :: lit "```")
  = p ++ LF :: lit "```".
Proof.
  intros Hopen Ht Hb.
  destruct (tight_head _ Ht) as (c & p' & E & Hc).
  unfold remove_all.
  assert (Hm := Hopen c (p' ++ LF :: lit "```") Hc).
  assert (Hs : w ++ LF :: p ++ LF :: lit "```"
               = (w ++ [LF]) ++ p ++ LF :: lit "```").
  { now rewrite <- app_assoc. }
  rewrite (@ra_match fl_gm re_fence_open [] backquote
             (w ++ LF :: p ++ LF :: lit "```")
             (MState (rev (backquote :: w ++ [LF]))
                     (c :: p' ++ LF :: lit "```") [])
             (length (w ++ [LF]))).
  - rewrite Hs, ra_skip. now apply keep_payload_open.
  - rewrite E. exact Hm.
  - unfold pos. cbn [before]. rewrite length_rev. reflexivity.
Qed.

Lemma clean_fenced w p :
  (forall c a, is_space c = false ->
     match_at fl_gm re_fence_open [] (backquote :: w ++ LF :: c :: a)
     = Some (MState (rev (backquote :: w ++ [LF])) (c :: a) [])) ->
  tight (backquote :: w ++ LF :: p ++ LF :: lit "```") = true ->
  tight p = true -> no_backquote p = true ->
  cleanContent (backquote :: w ++ LF :: p ++ LF :: lit "```") = p.
Proof.
  intros Hopen Hf Ht Hb. unfold cleanContent.
  rewrite (trim_tight _ Hf), strip_open, strip_close by auto.
  now apply trim_tight.
Qed.

Lemma clean_bare p :
  tight p = true -> no_backquote p = true -> cleanContent p = p.
Proof.
  intros Ht Hb. unfold cleanContent. rewrite (trim_tight _ Ht).
  assert (E1 : remove_all fl_gm re_fence_open p = p).
  { unfold remove_all. rewrite <- (app_nil_r p) at 1.
    rewrite ra_keep_run, ra_end; [apply app_nil_r|].
    intros x1 c x2 E. apply open_none.
    now destruct (no_backquote_split _ _ _ Hb E). }
  assert (E2 : remove_all fl_gm re_fence_close p = p).
  { unfold remove_all. rewrite <- (app_nil_r p) at 1.
    rewrite ra_keep_run, ra_end; [apply app_nil_r|].
    intros x1 c x2 E. apply close_none. rewrite app_nil_r.
    now destruct (no_backquote_split _ _ _ Hb E). }
  rewrite E1, E2. now apply trim_tight.
Qed.
(** X7. For every payload that has no backquote and neither starts nor
    ends with white space, the quiz step's cleaning turns the payload
    wrapped in a fenced block -- tagged json or untagged -- back into the
    payload, and leaves the bare payload alone; so the [try] block gives
    the same result for the wrapped payload as for the bare one. *)
Theorem quiz_fence_stripping (p : jstring) :
  tight p = true -> no_backquote p = true ->
  cleanContent (Inputs.fence p) = p
  /\ cleanContent (fence_plain p) = p
  /\ cleanContent p = p
  /\ json_path (Inputs.fence p) = json_path p
  /\ json_path (fence_plain p) = json_path p
  /\ (forall qs, json_path p = Returned qs ->
        questions (Inputs.fence p) = Returned qs
        /\ questions (fence_plain p) = Returned qs).
Proof.
  intros Ht Hb.
  assert (E1 : cleanContent (Inputs.fence p) = p).
  { change (Inputs.fence p)
      with (backquote :: lit "``json" ++ LF :: p ++ LF :: lit "```").
    apply clean_fenced; auto.
    - intros c a Hc. apply (@open_tagged c a Hc).
    - apply (tight_fence (lit "json") p). }
  assert (E2 : cleanContent (fence_plain p) = p).
  { change (fence_plain p)
      with (backquote :: lit "``" ++ LF :: p ++ LF :: lit "```").
    apply clean_fenced; auto.
    - intros c a Hc. apply (@open_plain c a Hc).
    - apply (tight_fence [] p). }
  assert (E3 : cleanContent p = p) by now apply clean_bare.
  assert (J1 : json_path (Inputs.fence p) = json_path p).
  { unfold json_path. now rewrite E1, E3. }
  assert (J2 : json_path (fence_plain p) = json_path p).
  { unfold json_path. now rewrite E2, E3. }
  repeat split; auto; unfold questions; rewrite ?J1, ?J2, H; reflexivity.
Qed.

Lemma quiz_fence_stripping_witness :
  cleanContent (Inputs.fence Inputs.quiz_json) = Inputs.quiz_json
  /\ json_path (fence_plain Inputs.quiz_json) = json_path Inputs.quiz_json.
Proof.
  destruct (@quiz_fence_stripping Inputs.quiz_json eq_refl eq_refl)
    as (H1 & _ & _ & _ & H5 & _).
  split; assumption.
Defined.

End FenceFacts.

(* ================================================================== *)
(** * More properties of the outline grammar *)
(* ================================================================== *)

Module MindMapLayoutFacts.

Import MindMap MindMapLayout.

Lemma sorted_snoc (l : list nat) x :
  StronglySorted lt l -> (forall y, In y l -> y < x) ->
  StronglySorted lt (l ++ [x]).
Proof.
  induction 1 as [|a l Hl IH Ha]; intros Hx; simpl.
  - repeat constructor.
  - constructor.
    + apply IH. intros y Hy. apply Hx. now right.
    + apply Forall_app. split; auto. constructor; auto. apply Hx. now left.
Qed.

Lemma depth_mk_node i text level index :
  depth (mk_node i text level index) = level.
Proof. unfold depth, mk_node. simpl position_x. apply Nat.div_mul. discriminate. Qed.

Lemma from_line_new pre line rest i :
  truthy (clean_text line) = true ->
  from_line (pre ++ line :: rest)
    (mk_node i (clean_text line) (level_of line) (length pre)) (length pre).
Proof.
  intros Ht. exists line. rewrite depth_mk_node.
  repeat split; auto.
  - rewrite nth_error_app2 by lia. now rewrite Nat.sub_diag.
  - simpl. lia.
  - simpl. lia.
Qed.

Lemma Laid_step pre line rest st :
  Laid (pre ++ line :: rest) (length pre) st ->
  Laid (pre ++ line :: rest) (S (length pre)) (step st line (length pre)).
Proof.
  intros [Hn Ho Ht He]. unfold step.
  destruct (truthy (clean_text line)) eqn:E; simpl.
  2:{ split; auto. intros n H. destruct (Hn n H) as (k & Hk & Hf).
      exists k. split; auto. }
  set (i := node_id (nodeId st)).
  set (new := mk_node i (clean_text line) (level_of line) (length pre)).
  split; cbn [st_nodes st_edges].
  - intros n H. apply in_app_or in H as [H | [<- | []]].
    + destruct (Hn n H) as (k & Hk & Hf). exists k. split; auto.
    + exists (length pre). split; auto. now apply from_line_new.
  - rewrite map_app. apply sorted_snoc; auto.
    intros y Hy. apply in_map_iff in Hy as (n & <- & H).
    destruct (Hn n H) as (k & Hk & (l & _ & _ & _ & _ & _ & Hy & _)).
    rewrite Hy. simpl. lia.
  - intros e H.
    assert (Hold : forall e, In e (st_edges st) ->
              exists n, In n (st_nodes st ++ [new]) /\ id n = target e /\ 1 <= depth n).
    { intros e0 H0. destruct (Ht e0 H0) as (n & Hin & Hid & Hd).
      exists n. split; auto. apply in_or_app. now left. }
    unfold parent_edge in H. destruct (level_of line) as [|l] eqn:El; auto.
    destruct (stack_get l _); auto.
    apply in_app_or in H as [H | [<- | []]]; auto.
    exists new. split; [apply in_or_app; right; now left|].
    split; auto. unfold new. rewrite depth_mk_node. lia.
  - unfold parent_edge. destruct (level_of line) as [|l]; auto.
    destruct (stack_get l _); auto.
    rewrite map_app, length_app, seq_app, map_app, <- He. reflexivity.
Qed.

Lemma Laid_forEach rest : forall pre st,
  Laid (pre ++ rest) (length pre) st ->
  Laid (pre ++ rest) (length (pre ++ rest)) (forEach st rest (length pre)).
Proof.
  induction rest as [|line rest IH]; intros pre st H; simpl.
  - now rewrite app_nil_r in *.
  - apply Laid_step in H.
    specialize (IH (pre ++ [line]) (step st line (length pre))).
    rewrite <- app_assoc, length_app in IH. simpl in IH.
    rewrite Nat.add_1_r in IH. now apply IH.
Qed.

Lemma Laid_init lines : Laid lines 0 init.
Proof.
  split; simpl; try easy. constructor.
Qed.

Lemma Laid_final text :
  Laid (lines_of text) (length (lines_of text)) (forEach init (lines_of text) 0).
Proof.
  apply (Laid_forEach (lines_of text) [] (Laid_init _)).
Qed.

Lemma NoDup_map_eq {A B} (f : A -> B) l x y :
  NoDup (map f l) -> In x l -> In y l -> f x = f y -> x = y.
Proof.
  induction l as [|a l IH]; simpl; [easy|].
  intros Hn Hx Hy E. inversion Hn as [|? ? Ha Hl]; subst.
  destruct Hx as [<- | Hx], Hy as [<- | Hy]; auto.
  - destruct Ha. rewrite E. now apply in_map.
  - destruct Ha. rewrite <- E. now apply in_map.
Qed.

(** X8. In the graph of the outline grammar every edge ends in a node of
    depth 1 or more, so a node of depth 0 has no incoming edge; the edge
    ids are "edge-0", "edge-1", ... in order; and there are at most as
    many edges as nodes of depth 1 or more. *)
Theorem mindmap_edges_end_below_root (text : jstring) :
  let m := parseTextMindMap text in
  (forall e, In e (edges m) ->
     exists n, In n (nodes m) /\ id n = target e /\ 1 <= depth n)
  /\ (forall n, In n (nodes m) -> depth n = 0 -> incoming m (id n) = [])
  /\ map edge_id (edges m) = map edge_name (seq 0 (length (edges m)))
  /\ length (edges m)
     <= length (filter (fun n => Nat.leb 1 (depth n)) (nodes m)).
Proof.
  intros m.
  pose proof (Laid_final text) as [Hn Ho Ht He].
  pose proof (MindMapFacts.Inv_forEach (lines_of text) 0 MindMapFacts.Inv_init)
    as [Hids Hed Hst Htg].
  unfold lines_of in *. unfold ids in *.
  set (st := forEach init (filter nonblank (split_lines text)) 0) in *.
  assert (Hnodes : forall n, In n (st_nodes st) -> In n (nodes m)).
  { unfold m, parseTextMindMap. fold st. simpl.
    destruct (st_nodes st); [easy | auto]. }
  assert (Hedges : edges m = st_edges st) by reflexivity.
  assert (Htargets : forall e, In e (edges m) ->
            exists n, In n (st_nodes st) /\ id n = target e /\ 1 <= depth n).
  { rewrite Hedges. exact Ht. }
  assert (Hnd : NoDup (map id (st_nodes st))).
  { rewrite Hids. apply MindMapFacts.NoDup_node_ids. }
  split; [|split; [|split]].
  - intros e H. destruct (Htargets e H) as (n & Hin & Hid & Hd). eauto.
  - intros n Hin Hd. unfold incoming.
    destruct (filter _ (edges m)) as [|e es] eqn:E; auto. exfalso.
    assert (He0 : In e (filter (fun e => Str.eqb (target e) (id n)) (edges m)))
      by (rewrite E; now left).
    apply filter_In in He0 as [He0 Heq].
    apply QuizJsonFacts.eqb_eq in Heq.
    destruct (Htargets e He0) as (n' & Hin' & Hid & Hd').
    assert (Hst_n : In n (st_nodes st)).
    { revert Hin. unfold m, parseTextMindMap. fold st. simpl.
      destruct (st_nodes st); [now destruct Hin'| auto]. }
    assert (n' = n) by (eapply NoDup_map_eq; eauto; congruence).
    subst. lia.
  - rewrite Hedges. exact He.
  - rewrite <- (length_map target (edges m)).
    rewrite <- (length_map id (filter _ (nodes m))).
    apply NoDup_incl_length; [now rewrite Hedges|].
    intros t Hin. apply in_map_iff in Hin as (e & <- & Hin).
    destruct (Htargets e Hin) as (n & Hn' & Hid & Hd).
    rewrite <- Hid. apply in_map. apply filter_In. split; auto.
    now apply Nat.leb_le.
Qed.

Lemma mindmap_edges_witness :
  let m := parseTextMindMap Inputs.outline_reindent in
  exists n, In n (nodes m) /\ id n = lit "node-4" /\ 1 <= depth n.
Proof.
  intros m.
  destruct (mindmap_edges_end_below_root Inputs.outline_reindent) as (H & _).
  apply (H {| edge_id := lit "edge-3"; source := lit "node-1";
              target := lit "node-4" |}).
  vm_compute. do 3 right. left. reflexivity.
Defined.

(** The nodes the loop adds, from any state: one per labelled line left,
    numbered from the state's counter. *)
Lemma forEach_nodes lines : forall st index,
  st_nodes (forEach st lines index)
  = st_nodes st
    ++ (let lab := filter (fun p => has_label (snd p))
                     (combine (seq index (length lines)) lines) in
        map (fun q => mk_node (node_id (fst q)) (clean_text (snd (snd q)))
                        (level_of (snd (snd q))) (fst (snd q)))
            (combine (seq (nodeId st) (length lab)) lab)).
Proof.
  induction lines as [|line lines IH]; intros st index.
  - simpl. now rewrite app_nil_r.
  - cbn [forEach length seq combine filter snd]. rewrite IH.
    unfold step, has_label. destruct (truthy (clean_text line)) eqn:E.
    + cbn [negb st_nodes nodeId length seq combine map fst snd].
      now rewrite <- app_assoc.
    + reflexivity.
Qed.

Lemma combine_seq_nth {A} (l : list A) : forall a k x,
  nth_error l k = Some x -> In (a + k, x) (combine (seq a (length l)) l).
Proof.
  induction l as [|y l IH]; intros a k x H; [now destruct k|].
  destruct k as [|k]; cbn [length seq combine].
  - injection H as <-. left. now rewrite Nat.add_0_r.
  - right. replace (a + S k) with (S a + k) by lia. now apply IH.
Qed.

Lemma combine_seq_In {A} (l : list A) : forall a x,
  In x l -> exists j, In (j, x) (combine (seq a (length l)) l).
Proof.
  induction l as [|y l IH]; intros a x H; [easy|].
  cbn [length seq combine]. destruct H as [<- | H].
  - exists a. now left.
  - destruct (IH (S a) x H) as (j & Hj). exists j. now right.
Qed.

Lemma mk_from_line lines k line i :
  nth_error lines k = Some line -> has_label line = true ->
  from_line lines (mk_node i (clean_text line) (level_of line) k) k.
Proof.
  intros Hk Hl. exists line. rewrite depth_mk_node.
  repeat split; auto; simpl; lia.
Qed.

(** X9. The nodes of the outline grammar are the default node alone
    exactly when no line gives a label; otherwise they are one node per
    line with a label, in line order: the j-th such line gives the node
    "node-j", which carries the line's cleaned text (not empty) as label,
    the line's indentation halved as depth, x = 250 * depth, y = 100 *
    the line's index among the non-blank lines, and the type "input"
    exactly at depth 0.  Every labelled line has its node and every node
    comes from a labelled line; the y coordinates increase strictly, so
    no two nodes share a position. *)
Theorem mindmap_layout (text : jstring) :
  let m := parseTextMindMap text in
  let lines := lines_of text in
  nodes m = match labelled lines with
            | [] => [default_node]
            | _ :: _ => expected_nodes lines
            end
  /\ (labelled lines <> [] ->
      (forall k line, nth_error lines k = Some line -> has_label line = true ->
         exists n, In n (nodes m) /\ from_line lines n k)
      /\ (forall n, In n (nodes m) ->
            exists k, k < length lines /\ from_line lines n k)
      /\ StronglySorted lt (map position_y (nodes m))
      /\ length (nodes m) = length (labelled lines)).
Proof.
  intros m lines.
  assert (Hloop : st_nodes (forEach init lines 0) = expected_nodes lines).
  { rewrite forEach_nodes. reflexivity. }
  assert (Hlen : length (expected_nodes lines) = length (labelled lines)).
  { unfold expected_nodes.
    rewrite length_map, length_combine, length_seq. apply Nat.min_id. }
  assert (Hnodes : nodes m = match labelled lines with
                             | [] => [default_node]
                             | _ :: _ => expected_nodes lines
                             end).
  { unfold m, parseTextMindMap. fold (lines_of text). fold lines.
    cbn [nodes]. rewrite Hloop.
    destruct (labelled lines) as [|p ps] eqn:El.
    - unfold expected_nodes. now rewrite El.
    - destruct (expected_nodes lines) eqn:Ee; [|reflexivity].
      discriminate. }
  split; [exact Hnodes|]. intros Hne.
  assert (Hm : nodes m = st_nodes (forEach init lines 0)).
  { rewrite Hnodes, Hloop. destruct (labelled lines); [easy | reflexivity]. }
  pose proof (Laid_final text) as [Hn Ho _ _]. fold lines in Hn, Ho.
  rewrite Hm. repeat split; auto.
  - intros k line Hk Hl. rewrite Hloop.
    assert (Hin : In (k, line) (labelled lines)).
    { unfold labelled. apply filter_In. split; auto.
      apply (combine_seq_nth lines 0 k Hk). }
    destruct (combine_seq_In (labelled lines) 0 _ Hin) as (j & Hj).
    exists (mk_node (node_id j) (clean_text line) (level_of line) k).
    split; [|now apply mk_from_line].
    unfold expected_nodes.
    apply (in_map (fun q => mk_node (node_id (fst q)) (clean_text (snd (snd q)))
                              (level_of (snd (snd q))) (fst (snd q)))) in Hj.
    exact Hj.
  - now rewrite Hloop.
Qed.

Lemma mindmap_layout_witness :
  let m := parseTextMindMap Inputs.outline_dedent in
  StronglySorted lt (map position_y (nodes m))
  /\ length (nodes m) = 5.
Proof.
  intros m.
  destruct (mindmap_layout Inputs.outline_dedent) as (_ & H).
  destruct H as (_ & _ & Hs & Hl); [vm_compute; discriminate|].
  split; [exact Hs | exact Hl].
Defined.

End MindMapLayoutFacts.

(* ================================================================== *)
(** * Running the matcher and the splitters on texts of a known shape *)
(* ================================================================== *)

Module RunFacts.

Import Fences Formats FenceFacts.

(** A greedy repetition over a run it accepts whole, ended by the end of
    the input or by a code unit it refuses: the longest match is tried
    first, so when the continuation succeeds there, that is the result. *)
Lemma greedy_run p : forall d mn b a cp k x,
  forallb p d = true ->
  match a with [] => true | c :: _ => negb (p c) end = true ->
  mn <= length d ->
  k (MState (rev d ++ b) a cp) = Some x ->
  greedy p mn None b (d ++ a) cp k = Some x.
Proof.
  induction d as [|c d IH]; intros mn b a cp k x Hd Ha Hmn Hk.
  - simpl in Hmn. assert (mn = 0) by lia. subst mn. cbn [app rev] in *.
    destruct a as [|c a].
    + now rewrite greedy_end.
    + rewrite greedy_stop; auto. now apply negb_true_iff.
  - simpl in Hd. apply andb_prop in Hd as [Hc Hd].
    cbn [app greedy option_map]. rewrite Hc.
    rewrite (IH (Nat.pred mn) (c :: b) a cp k x); auto.
    + simpl in Hmn. lia.
    + cbn [rev] in Hk. now rewrite <- app_assoc in Hk.
Qed.

(** A greedy repetition fails when the continuation fails wherever it
    could stop. *)
Lemma greedy_fail p : forall a mn mx b cp k,
  (forall b' a', (forall c, In c a' -> In c a) -> k (MState b' a' cp) = None) ->
  greedy p mn mx b a cp k = None.
Proof.
  induction a as [|c a IH]; intros mn mx b cp k Hk.
  - simpl. destruct mx as [[|m]|], mn; auto.
  - assert (Hstop : match mn with 0 => k (MState b (c :: a) cp) | S _ => None end = None).
    { destruct mn; auto. }
    cbn [greedy]. rewrite Hstop.
    assert (Hrec : forall mn' mx', greedy p mn' mx' (c :: b) a cp k = None).
    { intros mn' mx'. apply IH. intros b' a' Hin. apply Hk.
      intros d Hd. right. auto. }
    destruct mx as [[|m]|]; auto; destruct (p c); auto; now rewrite Hrec.
Qed.

(** The blank-line separator starts with a line feed and needs a second
    one. *)
Lemma sep_none b c a :
  (c =? LF)%N = false \/ one_line a = true ->
  match_at noflags sep b (c :: a) = None.
Proof.
  intros H. unfold match_at, sep.
  change (rseq [rchar LF; star CSpace; rchar LF])
    with (RSeq (rchar LF) (RSeq (star CSpace) (rchar LF))).
  cbn [rmatch rchar star after before caps start_at].
  destruct (cs_mem (icase noflags) (CChar LF) c) eqn:E; auto.
  destruct H as [H | H].
  - cbn [cs_mem icase noflags] in E. rewrite N.eqb_sym in E. congruence.
  - apply greedy_fail. intros b' a' Hin.
    cbn [rmatch after]. destruct a' as [|d a']; auto.
    replace (cs_mem (icase noflags) (CChar LF) d) with false; auto.
    cbn [cs_mem icase noflags]. symmetry. rewrite N.eqb_sym.
    unfold one_line in H. rewrite forallb_forall in H.
    apply negb_true_iff. apply H. apply Hin. now left.
Qed.

Lemma split_go_none fl r : forall a b cur,
  (forall a1 c a2, a = a1 ++ c :: a2 ->
     match_at fl r (rev a1 ++ b) (c :: a2) = None) ->
  split_go fl r b a cur 0 = [rev cur ++ a].
Proof.
  induction a as [|c a IH]; intros b cur H.
  - simpl. now rewrite app_nil_r.
  - cbn [split_go]. pose proof (H [] c a eq_refl) as H0. cbn [rev app] in H0.
    rewrite H0, IH.
    + cbn [rev]. now rewrite <- app_assoc.
    + intros a1 d a2 E. specialize (H (c :: a1) d a2).
      cbn [rev] in H. rewrite <- app_assoc in H. apply H. now rewrite E.
Qed.

(** A text with a single line feed is one block. *)
Lemma split_two_lines (x y : jstring) :
  x <> [] -> one_line x = true -> one_line y = true ->
  split noflags sep (x ++ LF :: y) = [x ++ LF :: y].
Proof.
  intros Hx Hox Hoy. destruct x as [|c x]; [easy|].
  cbn [app split]. change (c :: x ++ LF :: y) with ((c :: x) ++ LF :: y).
  rewrite split_go_none; [reflexivity|].
  intros a1 d a2 E. apply sep_none.
  (* either d is inside x (not a line feed), or it is the line feed and
     what follows is y, or it is inside y *)
  assert (Hall : forall z1 e z2, (c :: x) ++ LF :: y = z1 ++ e :: z2 ->
            (e =? LF)%N = false \/ one_line z2 = true).
  { clear E a1 d a2. set (w := c :: x) in *. clearbody w. clear Hx.
    induction w as [|w0 w IH]; intros z1 e z2 E.
    - destruct z1 as [|z0 z1]; injection E as <- E.
      + right. now subst.
      + left. unfold one_line in Hoy. rewrite forallb_forall in Hoy.
        apply negb_true_iff. apply Hoy. rewrite E. apply in_or_app. right. now left.
    - simpl in Hox. apply andb_prop in Hox as [H0 Hox].
      destruct z1 as [|z0 z1]; injection E as <- E.
      + left. now apply negb_true_iff.
      + eapply IH; eauto. }
  eapply Hall; eauto.
Qed.

Lemma split_char_run s : forall x cur,
  forallb (fun c => negb (c =? s)%N) x = true ->
  split_char s cur x = [rev cur ++ x].
Proof.
  induction x as [|c x IH]; intros cur H; simpl.
  - now rewrite app_nil_r.
  - simpl in H. apply andb_prop in H as [Hc H].
    apply negb_true_iff in Hc. rewrite Hc, IH by auto.
    cbn [rev]. now rewrite <- app_assoc.
Qed.

Lemma split_char_first s : forall x cur y,
  forallb (fun c => negb (c =? s)%N) x = true ->
  split_char s cur (x ++ s :: y) = (rev cur ++ x) :: split_char s [] y.
Proof.
  induction x as [|c x IH]; intros cur y H; simpl.
  - now rewrite N.eqb_refl, app_nil_r.
  - simpl in H. apply andb_prop in H as [Hc H].
    apply negb_true_iff in Hc. rewrite Hc, IH by auto.
    cbn [rev]. now rewrite <- app_assoc.
Qed.

Lemma split_lines_two x y :
  one_line x = true -> one_line y = true ->
  split_lines (x ++ LF :: y) = [x; y].
Proof.
  intros Hx Hy. unfold split_lines.
  rewrite split_char_first by exact Hx.
  now rewrite split_char_run by exact Hy.
Qed.

Lemma tight_ink s : tight s = true -> ink s = true.
Proof.
  destruct s as [|c s]; [discriminate|]. unfold tight, ink.
  intros H. apply andb_prop in H as [H _]. simpl. now rewrite H.
Qed.

Lemma last_default (l : jstring) : forall x a b,
  last (x :: l) a = last (x :: l) b.
Proof.
  induction l as [|y l IH]; intros x a b; [reflexivity|].
  change (last (x :: y :: l) a) with (last (y :: l) a).
  change (last (x :: y :: l) b) with (last (y :: l) b). apply IH.
Qed.

(** Ink in front of a tight string makes a tight string. *)
Lemma tight_prefixed c w s :
  is_space c = false -> tight s = true -> tight (c :: w ++ s) = true.
Proof.
  intros Hc Hs. destruct s as [|d s]; [discriminate|].
  unfold tight in *. rewrite Hc. cbn [negb andb].
  apply andb_prop in Hs as [_ Hs].
  change (c :: w ++ d :: s) with ((c :: w) ++ d :: s).
  rewrite last_app_cons. now rewrite (last_default s d c d).
Qed.

End RunFacts.

(* ================================================================== *)
(** * More properties of the timeline grammar *)
(* ================================================================== *)

Module TimelineMoreFacts.

Import Fences Formats FenceFacts RunFacts Timeline TimelineBullets StrFacts.

(** ** Trimming *)

Lemma dropWhile_head_false p (l : jstring) x l' :
  dropWhile p l = x :: l' -> p x = false.
Proof.
  induction l as [|c l IH]; simpl; [discriminate|].
  destruct (p c) eqn:E; auto. now intros [= <- _].
Qed.

Lemma last_dropWhile p (l : jstring) x l' d :
  dropWhile p l = x :: l' -> last (x :: l') d = last l d.
Proof.
  induction l as [|c l IH]; simpl dropWhile; [discriminate|].
  destruct (p c) eqn:E.
  - intros H. rewrite (IH H). destruct l as [|c' l]; [discriminate|]. reflexivity.
  - now intros [= <- <-].
Qed.

Lemma last_snoc (l : jstring) x d : last (l ++ [x]) d = x.
Proof.
  destruct l as [|c l]; [reflexivity|].
  change ((c :: l) ++ [x]) with ((c :: l) ++ x :: []).
  now rewrite last_app_cons.
Qed.

(** What [trim] returns is empty or tight. *)
Lemma trim_shape s : trim s = [] \/ tight (trim s) = true.
Proof.
  unfold trim.
  destruct (dropWhile is_space (rev (dropWhile is_space s))) as [|x X] eqn:EX; auto.
  right.
  pose proof (dropWhile_head_false _ _ EX) as Hx.
  destruct (dropWhile is_space s) as [|y Y] eqn:EY; [discriminate|].
  pose proof (dropWhile_head_false _ _ EY) as Hy.
  pose proof (rev_head_last X x x) as Hh.
  pose proof (last_dropWhile is_space (rev (y :: Y)) x EX) as Hl.
  cbn [rev] in Hl. rewrite last_snoc in Hl.
  destruct (rev (x :: X)) as [|h T] eqn:ER.
  { cbn [rev] in ER. now apply app_eq_nil in ER as [_ [=]]. }
  assert (Hlast : last (h :: T) h = x).
  { rewrite <- ER. cbn [rev]. apply last_snoc. }
  assert (Hhead : h = y) by (rewrite Hh; exact Hl).
  change (negb (is_space h) && negb (is_space (last (h :: T) h)) = true).
  now rewrite Hlast, Hhead, Hx, Hy.
Qed.

Lemma trim_idempotent s : trim (trim s) = trim s.
Proof.
  destruct (trim_shape s) as [-> | H]; [reflexivity | now apply trim_tight].
Qed.

(** ** The block pass *)

Lemma block_event_shape block e :
  block_event block = Some e ->
  title e <> [] /\ date e <> [] /\ trim (description e) = description e.
Proof.
  unfold block_event. destruct (block_lines block) as [|l0 rest]; [discriminate|].
  assert (Hdesc : forall d t desc,
            block_fields l0 rest = (d, t, desc) -> trim desc = desc).
  { unfold block_fields, rest_description. intros d t desc.
    destruct (search noflags re_backend l0).
    - intros [= _ _ <-]. apply trim_idempotent.
    - destruct (search noflags re_date l0); intros [= _ _ <-];
        apply trim_idempotent. }
  destruct (block_fields l0 rest) as [[d t] desc] eqn:E.
  destruct (truthy t) eqn:Et; [|discriminate].
  intros [= <-]. simpl. repeat split.
  - intros ->. discriminate.
  - destruct (truthy d) eqn:Ed; [intros ->; discriminate | discriminate].
  - eapply Hdesc; eauto.
Qed.

Lemma collect_blocks_In blocks e :
  In e (collect blocks) <-> exists b, In b blocks /\ block_event b = Some e.
Proof.
  induction blocks as [|b blocks IH]; simpl.
  - split; [easy | now intros (b & [] & _)].
  - destruct (block_event b) as [e'|] eqn:E; simpl; rewrite IH; split.
    + intros [<- | (b' & Hb & He)]; eauto.
    + intros (b' & [<- | Hb] & He); [left; congruence | eauto].
    + intros (b' & Hb & He); eauto.
    + intros (b' & [<- | Hb] & He); [congruence | eauto].
Qed.

Lemma collect_blocks_length blocks : length (collect blocks) <= length blocks.
Proof.
  induction blocks as [|b blocks IH]; simpl; auto.
  destruct (block_event b); simpl; lia.
Qed.

(** X10. Every event of the timeline's block pass has a title and a date
    that are not empty and a description without white space at either
    end; and the pass yields at most one event per non-blank block. *)
Theorem timeline_block_events (text : jstring) :
  (forall e, In e (block_events text) ->
     title e <> [] /\ date e <> [] /\ trim (description e) = description e)
  /\ length (block_events text)
     <= length (filter nonblank (split noflags re_blank_line text)).
Proof.
  split.
  - intros e H. unfold block_events in H.
    apply collect_blocks_In in H as (b & _ & H). now apply block_event_shape in H.
  - apply collect_blocks_length.
Qed.

Lemma timeline_block_events_witness :
  title {| date := lit "Date Unknown"; title := lit "Hello world";
           description := [] |} <> [].
Proof.
  destruct (timeline_block_events (lit "Hello world")) as (H & _).
  apply (H {| date := lit "Date Unknown"; title := lit "Hello world";
              description := [] |}).
  vm_compute. left. reflexivity.
Defined.

(** ** The bracket form *)

Lemma firstn_length_app {A} (l r : list A) : firstn (length l) (l ++ r) = l.
Proof.
  induction l as [|x l IH]; simpl; [now destruct r|]. now rewrite IH.
Qed.

Lemma group_close n b a0 cp0 d a cp :
  close_group n (MState b a0 cp0) (MState (rev d ++ b) a cp)
  = MState (rev d ++ b) a ((n, d) :: cp).
Proof.
  unfold close_group, pos. cbn [before after caps].
  rewrite length_app, length_rev.
  replace (length d + length b - length b) with (length (rev d))
    by (rewrite length_rev; lia).
  now rewrite firstn_length_app, rev_involutive.
Qed.

Lemma rmatch_char fl c b a cp k :
  rmatch fl (rchar c) (MState b (c :: a) cp) k = k (MState (c :: b) a cp).
Proof. cbn [rmatch rchar after before caps]. now rewrite cs_mem_char. Qed.

Lemma search_here fl r a st :
  match_at fl r [] a = Some st -> search fl r a = Some ([], st).
Proof. unfold search. intros H. destruct a; simpl; now rewrite H. Qed.

Lemma backend_match date title :
  date <> [] -> no_bracket date = true ->
  tight title = true -> dot_only title = true ->
  search noflags re_backend (lit "[" ++ date ++ lit "]: " ++ title)
  = Some ([], MState (rev title ++ rev (lit "]: ") ++ rev date ++ rev (lit "["))
                     [] [(2, title); (1, date)]).
Proof.
  intros Hd Hb Ht Hdot.
  destruct (tight_head _ Ht) as (t0 & t' & Et & Ht0).
  apply search_here.
  unfold match_at, re_backend, start_at.
  change (lit "[" ++ date ++ lit "]: " ++ title)
    with (91%N :: date ++ 93%N :: 58%N :: 32%N :: title).
  change (rseq [RBol; rchar (ch "["); RGroup 1 (plus (CNot (CChar (ch "]"))));
                rchar (ch "]"); rchar (ch ":"); star CSpace; RGroup 2 (plus CDot)])
    with (RSeq RBol
            (RSeq (rchar 91%N)
               (RSeq (RGroup 1 (plus (CNot (CChar 93%N))))
                  (RSeq (rchar 93%N)
                     (RSeq (rchar 58%N)
                        (RSeq (star CSpace) (RGroup 2 (plus CDot)))))))).
  cbn [rmatch at_bol before]. rewrite rmatch_char.
  cbn [rmatch plus before after caps].
  apply greedy_run.
  - unfold no_bracket in Hb. rewrite forallb_forall in *.
    intros c Hc. specialize (Hb c Hc). cbn [cs_mem icase noflags].
    now rewrite N.eqb_sym.
  - reflexivity.
  - destruct date; [easy | simpl; lia].
  - rewrite group_close, rmatch_char, rmatch_char.
    cbn [rmatch star before after caps].
    change (32%N :: title) with ([32%N] ++ title).
    apply greedy_run; [reflexivity | | simpl; lia |].
    + rewrite Et. cbn [cs_mem]. now rewrite Ht0.
    + cbn [before after caps].
      rewrite <- (app_nil_r title) at 1.
      apply greedy_run; [exact Hdot | reflexivity | |].
      * rewrite Et. simpl. lia.
      * rewrite group_close. reflexivity.
Qed.

Lemma dot_only_one_line s : dot_only s = true -> one_line s = true.
Proof.
  unfold dot_only, one_line. rewrite !forallb_forall.
  intros H c Hc. specialize (H c Hc).
  apply negb_true_iff. apply negb_true_iff in H.
  destruct (c =? LF)%N eqn:E; auto. apply N.eqb_eq in E. subst. discriminate.
Qed.

Lemma one_line_app a b :
  one_line a = true -> one_line b = true -> one_line (a ++ b) = true.
Proof.
  unfold one_line. intros Ha Hb. rewrite forallb_app.
  apply andb_true_intro. now split.
Qed.

(** X11. A timeline entry written in the backend's bracket form,
    "[date]: title" followed by one description line, is read back by the
    text grammar as exactly one event with that date, title and
    description -- for a date without "]" or line feed, and a title and a
    description that have no line break and no white space at either
    end. *)
Theorem timeline_bracket_round_trip (d t desc : jstring) :
  d <> [] -> no_bracket d = true -> one_line d = true ->
  tight t = true -> dot_only t = true ->
  tight desc = true -> one_line desc = true ->
  parseTextTimeline (timeline_entry d t desc)
  = [{| date := d; title := t; description := desc |}].
Proof.
  intros Hd Hb Hod Ht Hdot Htd Hodesc.
  set (l0 := lit "[" ++ d ++ lit "]: " ++ t).
  assert (El : timeline_entry d t desc = l0 ++ LF :: desc).
  { unfold timeline_entry, l0. now rewrite <- !app_assoc. }
  assert (Hol0 : one_line l0 = true).
  { unfold l0. apply one_line_app; [reflexivity|].
    apply one_line_app; auto. apply one_line_app; [reflexivity|].
    now apply dot_only_one_line. }
  assert (Hink0 : ink l0 = true) by reflexivity.
  assert (Hinkd : ink desc = true) by now apply tight_ink.
  assert (Hlines : block_lines (l0 ++ LF :: desc) = [l0; desc]).
  { unfold block_lines. rewrite split_lines_two by auto.
    cbn [filter]. now rewrite !nonblank_ink, Hink0, Hinkd. }
  assert (Hev : block_event (l0 ++ LF :: desc)
                = Some {| date := d; title := t; description := desc |}).
  { unfold block_event. rewrite Hlines. unfold block_fields, l0.
    rewrite backend_match by auto.
    unfold group. cbn [snd caps capture Nat.eqb].
    unfold rest_description. cbn [join]. rewrite (trim_tight _ Htd).
    destruct t as [|t0 t']; [discriminate|].
    destruct d as [|d0 d']; [easy|]. reflexivity. }
  unfold parseTextTimeline, block_events. rewrite El.
  change re_blank_line with sep.
  rewrite split_two_lines by (auto; discriminate).
  cbn [filter]. rewrite nonblank_ink.
  replace (ink (l0 ++ LF :: desc)) with true by reflexivity.
  cbn [collect]. now rewrite Hev.
Qed.

Lemma timeline_bracket_witness :
  parseTextTimeline
    (timeline_entry (lit "1969") (lit "Moon Landing")
       (lit "Humans first walk on the Moon."))
  = [{| date := lit "1969"; title := lit "Moon Landing";
        description := lit "Humans first walk on the Moon." |}].
Proof.
  apply timeline_bracket_round_trip; (reflexivity || discriminate).
Defined.

(** ** The bullet pass *)

Lemma bullet_step_inv all line st :
  In line all ->
  (fst st = [] \/ set_by_heading all (fst st)) ->
  (forall e, In e (snd st) -> bullet_event all e) ->
  (fst (bullet_step st line) = []
   \/ set_by_heading all (fst (bullet_step st line)))
  /\ (forall e, In e (snd (bullet_step st line)) -> bullet_event all e).
Proof.
  intros Hin Hcur Hev. destruct st as [cur evs]. simpl in Hcur, Hev.
  assert (Hnew : forall t, bullet_event all
            {| date := if truthy cur then cur else lit "Unknown";
               title := t; description := [] |}).
  { intros t. split; [reflexivity|]. simpl.
    destruct cur as [|c cur]; [now left|]. right.
    split; [discriminate|]. destruct Hcur as [[=] | H]. exact H. }
  unfold bullet_step.
  destruct (test noflags re_heading (trim line)) eqn:Eh; simpl.
  - split; auto. right. exists line. auto.
  - destruct (test noflags re_bullet (trim line)); simpl.
    + split; auto. intros e H. apply in_app_or in H as [H | [<- | []]]; auto.
    + destruct (test noflags re_numbering (trim line)); simpl; split; auto.
      intros e H. apply in_app_or in H as [H | [<- | []]]; auto.
Qed.

Lemma bullet_fold_inv all lines : forall st,
  (forall l, In l lines -> In l all) ->
  (fst st = [] \/ set_by_heading all (fst st)) ->
  (forall e, In e (snd st) -> bullet_event all e) ->
  forall e, In e (snd (fold_left bullet_step lines st)) -> bullet_event all e.
Proof.
  induction lines as [|l lines IH]; intros st Hsub Hcur Hev; simpl; auto.
  destruct (@bullet_step_inv all l st) as [H1 H2]; auto.
  { apply Hsub. now left. }
  apply IH; auto. intros l' H. apply Hsub. now right.
Qed.

(** X12. Every event of the timeline's bullet pass has an empty
    description, and its date is the text of a heading line of the input
    (not empty) or, when no heading with text came before it, the literal
    "Unknown". *)
Theorem timeline_bullet_events (text : jstring) (e : event) :
  In e (bullet_events text) ->
  bullet_event (filter nonblank (split_lines text)) e.
Proof.
  unfold bullet_events. apply bullet_fold_inv; simpl; auto.
  intros e' [].
Qed.

Lemma timeline_bullet_witness :
  bullet_event
    (filter nonblank (split_lines (join [LF] [lit "# 1969"; lit "- Moon"])))
    {| date := lit "1969"; title := lit "Moon"; description := [] |}.
Proof.
  apply (@timeline_bullet_events (join [LF] [lit "# 1969"; lit "- Moon"])).
  vm_compute. left. reflexivity.
Defined.

End TimelineMoreFacts.

(* ================================================================== *)
(** * More properties of the flashcard grammar *)
(* ================================================================== *)

Module FlashcardsMoreFacts.

Import Fences Formats FenceFacts RunFacts Flashcards StrFacts TimelineMoreFacts.

(** The two markers, matched at the start of a line that carries them;
    the second alternative (the long marker) is not needed. *)
Lemma q_marker tail rest k :
  rmatch fl_i (re_q_with tail) (MState [] (lit "Q:" ++ rest) []) k
  = rmatch fl_i tail (MState (rev (lit "Q:")) rest [(1, lit "Q")]) k.
Proof.
  unfold re_q_with. simpl.
  destruct (rmatch fl_i tail _ k); reflexivity.
Qed.

Lemma a_marker tail rest k :
  rmatch fl_i (re_a_with tail) (MState [] (lit "A:" ++ rest) []) k
  = rmatch fl_i tail (MState (rev (lit "A:")) rest [(1, lit "A")]) k.
Proof.
  unfold re_a_with. simpl.
  destruct (rmatch fl_i tail _ k); reflexivity.
Qed.

(** After the marker, the white space is consumed up to the text. *)
Lemma spaces_then_text fl b s cp :
  tight s = true ->
  rmatch fl (star CSpace) (MState b (32%N :: s) cp) Some
  = Some (MState (32%N :: b) s cp).
Proof.
  intros H. destruct (tight_head _ H) as (c & s' & -> & Hc).
  cbn [rmatch star before after caps].
  change (32%N :: c :: s') with ([32%N] ++ c :: s').
  apply greedy_run; [reflexivity | | simpl; lia | reflexivity].
  cbn [cs_mem]. now rewrite Hc.
Qed.

Lemma q_test f : test fl_i re_q (lit "Q: " ++ f) = true.
Proof.
  unfold test. rewrite (@search_here fl_i re_q (lit "Q: " ++ f)
    (MState (rev (lit "Q:")) (32%N :: f) [(1, lit "Q")])); [reflexivity|].
  unfold match_at, re_q, start_at.
  change (lit "Q: " ++ f) with (lit "Q:" ++ 32%N :: f).
  now rewrite q_marker.
Qed.

Lemma a_test b : test fl_i re_a (lit "A: " ++ b) = true.
Proof.
  unfold test. rewrite (@search_here fl_i re_a (lit "A: " ++ b)
    (MState (rev (lit "A:")) (32%N :: b) [(1, lit "A")])); [reflexivity|].
  unfold match_at, re_a, start_at.
  change (lit "A: " ++ b) with (lit "A:" ++ 32%N :: b).
  now rewrite a_marker.
Qed.

Lemma q_strip f :
  tight f = true -> remove_match fl_i re_q_strip (lit "Q: " ++ f) = f.
Proof.
  intros H. unfold remove_match.
  rewrite (@search_here fl_i re_q_strip (lit "Q: " ++ f)
    (MState (rev (lit "Q: ")) f [(1, lit "Q")])); [reflexivity|].
  unfold match_at, re_q_strip, start_at.
  change (lit "Q: " ++ f) with (lit "Q:" ++ 32%N :: f).
  rewrite q_marker. now apply spaces_then_text.
Qed.

Lemma a_strip b :
  tight b = true -> remove_match fl_i re_a_strip (lit "A: " ++ b) = b.
Proof.
  intros H. unfold remove_match.
  rewrite (@search_here fl_i re_a_strip (lit "A: " ++ b)
    (MState (rev (lit "A: ")) b [(1, lit "A")])); [reflexivity|].
  unfold match_at, re_a_strip, start_at.
  change (lit "A: " ++ b) with (lit "A:" ++ 32%N :: b).
  rewrite a_marker. now apply spaces_then_text.
Qed.

(** X13. A flashcard written as "Q: front" on one line and "A: back" on
    the next is read back by the text grammar as exactly one card with
    that front and that back -- for a front and a back that have no line
    break and no white space at either end. *)
Theorem flashcard_qa_round_trip (f b : jstring) :
  tight f = true -> one_line f = true ->
  tight b = true -> one_line b = true ->
  parseTextFlashcards (qa_card f b) = [{| front := f; back := b |}].
Proof.
  intros Hf Hof Hb Hob.
  set (qf := lit "Q: " ++ f). set (ab := lit "A: " ++ b).
  assert (El : qa_card f b = qf ++ LF :: ab).
  { unfold qa_card, qf. now rewrite <- !app_assoc. }
  assert (Hoq : one_line qf = true) by (apply one_line_app; auto).
  assert (Hoa : one_line ab = true) by (apply one_line_app; auto).
  assert (Htq : tight qf = true).
  { apply (@tight_prefixed 81%N [58%N; 32%N] f); auto. }
  assert (Hlines : section_lines (qf ++ LF :: ab) = [qf; ab]).
  { unfold section_lines. rewrite split_lines_two by auto.
    cbn [filter]. rewrite !nonblank_ink.
    replace (ink qf) with true by reflexivity.
    now replace (ink ab) with true by reflexivity. }
  assert (Hcard : primary_card (qf ++ LF :: ab)
                  = Some {| front := f; back := b |}).
  { unfold primary_card. rewrite Hlines. cbn [length Nat.leb scan_lines].
    rewrite (trim_tight _ Htq). unfold qf at 1. rewrite q_test.
    unfold qf. rewrite (q_strip f Hf). cbn [scan_front].
    unfold ab at 1. rewrite a_test. unfold ab. rewrite (a_strip b Hb).
    cbn [scan_back].
    destruct (tight_head _ Hf) as (c & f' & Ef & _).
    destruct (tight_head _ Hb) as (c' & b' & Eb & _).
    rewrite (trim_tight _ Hf), (trim_tight _ Hb).
    rewrite Ef at 1. rewrite Eb at 1. reflexivity. }
  unfold parseTextFlashcards. rewrite El.
  change re_blank_line with sep.
  rewrite split_two_lines by (auto; discriminate).
  cbn [collect]. now rewrite Hcard.
Qed.

Lemma flashcard_qa_witness :
  parseTextFlashcards (qa_card (lit "What is 2 + 2?") (lit "4"))
  = [{| front := lit "What is 2 + 2?"; back := lit "4" |}].
Proof. apply flashcard_qa_round_trip; reflexivity. Defined.

End FlashcardsMoreFacts.

(* ================================================================== *)
(** * More properties of the quiz grammar *)
(* ================================================================== *)

Module QuizMoreFacts.

Import Fences Formats FenceFacts RunFacts Quiz QuizLines StrFacts.

(** ** The loop over the lines of a section *)

Lemma last_any_default {A} (l : list A) : forall x a b,
  last (x :: l) a = last (x :: l) b.
Proof.
  induction l as [|y l IH]; intros x a b; [reflexivity|].
  change (last (x :: y :: l) a) with (last (y :: l) a).
  change (last (x :: y :: l) b) with (last (y :: l) b). apply IH.
Qed.

Lemma last_cons_seed {A} (l : list A) x d : last (x :: l) d = last l x.
Proof.
  destruct l as [|y l]; [reflexivity|].
  change (last (x :: y :: l) d) with (last (y :: l) d). apply last_any_default.
Qed.

(** The loop from any state: options are appended in order, a question
    line and an explanation line replace what was stored. *)
Lemma fold_fields lines : forall st,
  q_options (fold_left line_step lines st)
  = q_options st ++ map option_text (filter (has_kind KOption) lines)
  /\ q_question (fold_left line_step lines st)
     = last (map question_text (filter (has_kind KQuestion) lines)) (q_question st)
  /\ q_explanation (fold_left line_step lines st)
     = last (map explanation_text (filter (has_kind KExplanation) lines))
         (q_explanation st).
Proof.
  induction lines as [|l lines IH]; intros st.
  - simpl. now rewrite app_nil_r.
  - cbn [fold_left filter]. destruct (IH (line_step st l)) as (Ho & Hq & He).
    rewrite Ho, Hq, He. clear Ho Hq He IH.
    unfold has_kind, line_step.
    destruct (classify (trim l)) eqn:E; cbn [kind_eqb map].
    + cbn [q_options q_question q_explanation].
      repeat split; auto. now rewrite last_cons_seed.
    + cbn [q_options q_question q_explanation].
      repeat split; auto. now rewrite <- app_assoc.
    + destruct (letter_index (answer_text (trim l)));
        cbn [q_options q_question q_explanation]; repeat split; auto.
    + cbn [q_options q_question q_explanation].
      repeat split; auto. now rewrite last_cons_seed.
    + repeat split; auto.
Qed.

(** X14. What a quiz section yields, in closed form: it yields a question
    exactly when it has two non-blank lines or more, the text of its last
    question line is not empty and it has two option lines or more; the
    question then carries the text of the last question line, the texts
    of all option lines in their order, the last resolved answer (0 when
    none) and the text of the last explanation line. *)
Theorem quiz_section_closed_form (section : jstring) :
  parse_section section = section_question (section_lines section).
Proof.
  unfold parse_section, section_question, emit.
  set (lines := section_lines section).
  destruct (fold_fields lines init) as (Ho & Hq & He).
  rewrite Ho, Hq, He, QuizFacts.fold_answer.
  cbn [init q_options q_question q_explanation q_correctAnswer app].
  destruct (length lines) as [|[|n]]; reflexivity.
Qed.

(** ** The unanchored alternative of the question pattern *)

Lemma search_from_reach fl r : forall pre b a st,
  match_at fl r (rev pre ++ b) a = Some st ->
  exists res, search_from fl r b (pre ++ a) = Some res.
Proof.
  induction pre as [|c pre IH]; intros b a st H.
  - cbn [rev app] in *. destruct a; simpl; rewrite H; eauto.
  - cbn [app search_from]. destruct (match_at fl r b (c :: pre ++ a)); eauto.
    apply (IH (c :: b) a st). cbn [rev] in H. now rewrite <- app_assoc in H.
Qed.

Lemma digit_not_star d : is_digit d = true -> cs_mem true c_star d = false.
Proof.
  unfold is_digit, in_range. intros H. apply andb_prop in H as [H1 H2].
  apply N.leb_le in H1. apply N.leb_le in H2.
  unfold c_star. cbn [cs_mem]. change (canon (ch "*")) with 42%N.
  unfold canon, upcase, is_lower, in_range.
  destruct (97 <=? d)%N eqn:E; cbn [andb].
  - apply N.leb_le in E. lia.
  - apply N.eqb_neq. lia.
Qed.

(** The second alternative matches at a digit followed by a full stop. *)
Lemma numbered_here b d post :
  is_digit d = true ->
  exists st,
    match_at fl_i re_question b (d :: ch "." :: post) = Some st.
Proof.
  intros Hd. unfold match_at, re_question, re_question_with, start_at.
  cbn [ralt rmatch].
  match goal with
  | |- exists st, match ?X with Some x => Some x | None => ?Y end = Some st =>
      assert (HY : exists st, Y = Some st); [| destruct X; eauto]
  end.
  match goal with
  | |- exists st, match ?X with Some x => Some x | None => ?Y end = Some st =>
      assert (HX : exists st, X = Some st);
        [| destruct HX as (st & ->); eauto]
  end.
  exists (MState (ch "." :: d :: b) post []).
  cbn [rseq rmatch opt before after caps].
  rewrite greedy_stop by now apply digit_not_star.
  cbn [plus rmatch before after caps].
  change (d :: ch "." :: post) with ([d] ++ ch "." :: post).
  apply greedy_run.
  - cbn [forallb cs_mem]. now rewrite Hd.
  - reflexivity.
  - simpl. lia.
  - reflexivity.
Qed.

Lemma digit_dot_classified line pre d post :
  line = pre ++ d :: ch "." :: post -> is_digit d = true ->
  classify line = KQuestion.
Proof.
  intros -> Hd. unfold classify, test, search.
  destruct (@numbered_here (rev pre) d post Hd) as (st & H).
  rewrite <- (app_nil_r (rev pre)) in H.
  destruct (search_from_reach _ _ _ _ _ H) as (res & ->). reflexivity.
Qed.

(** X15. The second alternative of the question pattern is not anchored:
    a line that has, anywhere, a digit directly followed by a full stop
    takes the question branch.  Such a line replaces the question and is
    never stored as an option, an answer or an explanation. *)
Theorem digit_dot_line_is_question (st : question) (raw pre post : jstring)
    (d : char) :
  trim raw = pre ++ d :: ch "." :: post -> is_digit d = true ->
  line_step st raw
  = {| q_question := question_text raw;
       q_options := q_options st;
       q_correctAnswer := q_correctAnswer st;
       q_explanation := q_explanation st |}.
Proof.
  intros E Hd. unfold line_step.
  now rewrite (digit_dot_classified _ _ _ E Hd).
Qed.

Lemma digit_dot_witness :
  line_step init (lit "B) 3.5 metres")
  = {| q_question := lit "B) 5 metres";
       q_options := [];
       q_correctAnswer := (-1)%Z;
       q_explanation := [] |}.
Proof.
  apply (@digit_dot_line_is_question init (lit "B) 3.5 metres")
           (lit "B) ") (lit "5 metres") (ch "3")); reflexivity.
Defined.

End QuizMoreFacts.

(* ================================================================== *)
(** * Outlines that never step back get the right parents *)
(* ================================================================== *)

Module StepwiseOutlineFacts.

Import MindMap MindMapLayout StepwiseOutline StrFacts.

Lemma latest_snoc d ns n :
  latest d (ns ++ [n])
  = if Nat.eqb (depth n) d then Some (id n) else latest d ns.
Proof.
  unfold latest. rewrite rev_app_distr. simpl.
  now destruct (Nat.eqb (depth n) d).
Qed.

Lemma nearest_parent_old ns n k :
  k < length ns -> nearest_parent (ns ++ [n]) k = nearest_parent ns k.
Proof.
  intros H. unfold nearest_parent.
  rewrite nth_error_app1 by exact H.
  rewrite firstn_app. replace (k - length ns) with 0 by lia.
  simpl. now rewrite app_nil_r.
Qed.

Lemma nearest_parent_new ns n d :
  depth n = S d -> nearest_parent (ns ++ [n]) (length ns) = latest d ns.
Proof.
  intros H. unfold nearest_parent, latest.
  rewrite nth_error_app2, Nat.sub_diag by lia. simpl. rewrite H.
  rewrite firstn_app, firstn_all, Nat.sub_diag. simpl. now rewrite app_nil_r.
Qed.

Lemma sources_into_snoc es e i :
  sources_into (es ++ [e]) i
  = sources_into es i ++ (if Str.eqb (target e) i then [source e] else []).
Proof.
  unfold sources_into. rewrite filter_app, map_app. simpl.
  now destruct (Str.eqb (target e) i).
Qed.

Lemma sources_none es i :
  (forall e, In e es -> target e <> i) -> sources_into es i = [].
Proof.
  unfold sources_into. induction es as [|e es IH]; intros H; simpl; auto.
  rewrite QuizJsonFacts.eqb_neq by (apply H; now left).
  apply IH. intros e' He'. apply H. now right.
Qed.

(** The new node's id is not the target of an old edge nor the id of an
    old node. *)
Lemma new_id_unused st :
  Inv st ->
  (forall e, In e (st_edges st) -> target e <> node_id (nodeId st))
  /\ (forall n, In n (st_nodes st) -> id n <> node_id (nodeId st)).
Proof.
  intros [Hids Hed _ _]. pose proof (MindMapFacts.fresh_id st Hids) as Hf.
  split.
  - intros e He E. apply Hed in He as [_ He]. now rewrite E in He.
  - intros n Hn E. apply Hf. rewrite <- E. unfold ids. now apply in_map.
Qed.

(** Adding a node and, below the root, its edge from [p]. *)
Lemma Going_extend st n p stack level :
  Inv st ->
  id n = node_id (nodeId st) -> depth n = level ->
  (st_nodes st = [] -> st_edges st = []) ->
  (st_nodes st <> [] ->
   (forall k n, nth_error (st_nodes st) k = Some n ->
      depth n = 0 -> sources_into (st_edges st) (id n) = [])
   /\ (forall k n d, nth_error (st_nodes st) k = Some n -> depth n = S d ->
       exists p, nearest_parent (st_nodes st) k = Some p
                 /\ sources_into (st_edges st) (id n) = [p])) ->
  length stack = S level ->
  (forall d, d <= level ->
     exists x, nth_error stack d = Some (Some x)
               /\ latest d (st_nodes st ++ [n]) = Some x) ->
  (forall l, level = S l -> latest l (st_nodes st) = Some p) ->
  Going {| st_nodes := st_nodes st ++ [n];
           st_edges := match level with
                       | 0 => st_edges st
                       | S _ => st_edges st
                                ++ [{| edge_id := edge_name (length (st_edges st));
                                       source := p; target := id n |}]
                       end;
           nodeId := S (nodeId st);
           nodeStack := stack;
           currentLevel := level |}.
Proof.
  intros HI Hid Hdepth Hempty Hold Hlen Hstack Hp.
  destruct (new_id_unused HI) as [Hfe Hfn].
  assert (Hold' : forall k n0, nth_error (st_nodes st) k = Some n0 ->
            (depth n0 = 0 -> sources_into (st_edges st) (id n0) = [])
            /\ (forall d, depth n0 = S d ->
                exists p, nearest_parent (st_nodes st) k = Some p
                          /\ sources_into (st_edges st) (id n0) = [p])).
  { intros k n0 Hk.
    assert (Hne : st_nodes st <> []) by (intros E; rewrite E in Hk; now destruct k).
    destruct (Hold Hne) as [H1 H2]. split; eauto. }
  assert (Hnew : sources_into (st_edges st) (id n) = []).
  { apply sources_none. intros e He. rewrite Hid. now apply Hfe. }
  assert (Hkeep : forall n0, In n0 (st_nodes st) ->
            forall e, target e = id n ->
            sources_into (st_edges st ++ [e]) (id n0)
            = sources_into (st_edges st) (id n0)).
  { intros n0 Hn0 e He. rewrite sources_into_snoc, He.
    rewrite QuizJsonFacts.eqb_neq, app_nil_r; auto.
    rewrite Hid. intros E. now apply (Hfn n0 Hn0). }
  split; cbn [st_nodes st_edges nodeStack currentLevel].
  - intros E. now apply app_eq_nil in E as [_ [=]].
  - exact Hlen.
  - exact Hstack.
  - intros k n0 Hk Hd0.
    assert (Hlt : k < length (st_nodes st ++ [n])) by (apply nth_error_Some; congruence).
    rewrite length_app in Hlt. simpl in Hlt.
    destruct (Nat.eq_dec k (length (st_nodes st))) as [-> | Hne].
    + rewrite nth_error_app2, Nat.sub_diag in Hk by lia. injection Hk as <-.
      replace level with 0 by congruence. exact Hnew.
    + rewrite nth_error_app1 in Hk by lia.
      destruct (Hold' k n0 Hk) as [H1 _].
      destruct level; [auto|].
      rewrite Hkeep; auto. eapply nth_error_In; eauto.
  - intros k n0 d Hk Hd.
    assert (Hlt : k < length (st_nodes st ++ [n])) by (apply nth_error_Some; congruence).
    rewrite length_app in Hlt. simpl in Hlt.
    destruct (Nat.eq_dec k (length (st_nodes st))) as [-> | Hne].
    + rewrite nth_error_app2, Nat.sub_diag in Hk by lia. injection Hk as <-.
      rewrite (nearest_parent_new _ _ Hd).
      assert (El : level = S d) by congruence.
      exists p. split; [now apply Hp|].
      rewrite El, sources_into_snoc, Hnew. cbn [target source app].
      now rewrite QuizFacts.eqb_refl.
    + rewrite nth_error_app1 in Hk by lia.
      rewrite nearest_parent_old by lia.
      destruct (Hold' k n0 Hk) as [_ H2]. destruct (H2 d Hd) as (q & Hq & Hs).
      exists q. split; auto.
      destruct level; [auto|].
      rewrite Hkeep; auto. eapply nth_error_In; eauto.
Qed.


Lemma step_kept st line index :
  kept line = true ->
  step st line index
  = let i := node_id (nodeId st) in
    let stack := track (level_of line) i st in
    {| st_nodes := st_nodes st
                   ++ [mk_node i (clean_text line) (level_of line) index];
       st_edges := parent_edge (level_of line) i stack (st_edges st);
       nodeId := S (nodeId st);
       nodeStack := stack;
       currentLevel := level_of line |}.
Proof. unfold kept, step. now intros ->. Qed.

Lemma step_skipped st line index : kept line = false -> step st line index = st.
Proof. unfold kept, step. now intros ->. Qed.

Lemma latest_is_id d ns x : latest d ns = Some x -> exists n, In n ns /\ id n = x.
Proof.
  unfold latest. destruct (find _ (rev ns)) as [n|] eqn:E; [|discriminate].
  intros [= <-]. apply find_some in E as [E _]. apply in_rev in E. eauto.
Qed.

Lemma node_id_truthy n : truthy (node_id n) = true.
Proof. reflexivity. Qed.

(** One line that gives a node, once the stack is known to be right. *)
Lemma Going_tracked st line index :
  Inv st -> kept line = true ->
  (st_nodes st = [] -> st_edges st = []) ->
  (st_nodes st <> [] ->
   (forall k n, nth_error (st_nodes st) k = Some n ->
      depth n = 0 -> sources_into (st_edges st) (id n) = [])
   /\ (forall k n d, nth_error (st_nodes st) k = Some n -> depth n = S d ->
       exists p, nearest_parent (st_nodes st) k = Some p
                 /\ sources_into (st_edges st) (id n) = [p])) ->
  let i := node_id (nodeId st) in
  let n := mk_node i (clean_text line) (level_of line) index in
  let stack := track (level_of line) i st in
  length stack = S (level_of line) ->
  (forall d, d <= level_of line ->
     exists x, nth_error stack d = Some (Some x)
               /\ latest d (st_nodes st ++ [n]) = Some x) ->
  Going (step st line index).
Proof.
  intros HI Hk Hempty Hold i n stack Hlen Hstack.
  rewrite (@step_kept st line index Hk). cbv zeta. fold i. fold stack. fold n.
  assert (Hd : depth n = level_of line) by apply MindMapLayoutFacts.depth_mk_node.
  destruct (level_of line) as [|l] eqn:El.
  - cbn [parent_edge]. apply (@Going_extend st n [] stack 0); auto.
    intros l [=].
  - destruct (Hstack l) as (x & Hx & Hl); [lia|].
    rewrite latest_snoc, Hd in Hl.
    replace (Nat.eqb (S l) l) with false in Hl
      by (symmetry; apply Nat.eqb_neq; lia).
    assert (Hget : stack_get l stack = Some x).
    { unfold stack_get. rewrite Hx.
      destruct (latest_is_id _ _ Hl) as (n0 & Hn0 & <-).
      destruct HI as [Hids _ _ _].
      assert (Hin : In (id n0) (ids st)) by (unfold ids; now apply in_map).
      rewrite Hids in Hin. apply in_map_iff in Hin as (j & <- & _).
      reflexivity. }
    cbn [parent_edge]. rewrite Hget.
    apply (@Going_extend st n x stack (S l)); auto.
    intros l' [= <-]. exact Hl.
Qed.

Lemma Going_step st line index :
  Inv st -> kept line = true ->
  (Fresh st /\ level_of line = 0)
  \/ (Going st /\ (level_of line = currentLevel st
                  \/ level_of line = S (currentLevel st))) ->
  Going (step st line index).
Proof.
  intros HI Hk [[(Hn & He & Hs & Hc) Hl] | [[Hn Hlen Hst Hr Hp] Hl]].
  - apply Going_tracked; auto.
    + intros H. now rewrite Hn in H.
    + unfold track. rewrite Hl, Hc, Hs. reflexivity.
    + intros d Hd. rewrite Hl in Hd. assert (d = 0) by lia. subst d.
      exists (node_id (nodeId st)). unfold track. rewrite Hl, Hc, Hs, Hn.
      split; reflexivity.
  - assert (Hdepth : forall d, d <= currentLevel st -> d <> level_of line ->
              forall n, depth n = level_of line ->
              exists x, nth_error (nodeStack st) d = Some (Some x)
                        /\ latest d (st_nodes st ++ [n]) = Some x).
    { intros d Hd Hne n Hdn. destruct (Hst d Hd) as (x & Hx & Hlx).
      exists x. split; auto. rewrite latest_snoc, Hdn.
      now replace (Nat.eqb (level_of line) d) with false
        by (symmetry; apply Nat.eqb_neq; lia). }
    assert (Hself : forall n, depth n = level_of line ->
              latest (level_of line) (st_nodes st ++ [n]) = Some (id n)).
    { intros n Hdn. now rewrite latest_snoc, Hdn, Nat.eqb_refl. }
    apply Going_tracked; auto; try (intros H; now elim Hn).
    + unfold track. destruct Hl as [Hl | Hl]; rewrite Hl.
      * rewrite !Nat.ltb_irrefl. unfold assign. rewrite Hlen.
        replace (Nat.ltb (currentLevel st) (S (currentLevel st))) with true
          by (symmetry; apply Nat.ltb_lt; lia).
        rewrite length_app, length_firstn. cbn [length].
        rewrite length_skipn. lia.
      * replace (Nat.ltb (currentLevel st) (S (currentLevel st))) with true
          by (symmetry; apply Nat.ltb_lt; lia).
        unfold push. rewrite length_app. simpl. lia.
    + intros d Hd.
      set (n := mk_node (node_id (nodeId st)) (clean_text line)
                  (level_of line) index).
      assert (Hdn : depth n = level_of line)
        by apply MindMapLayoutFacts.depth_mk_node.
      destruct (Nat.eq_dec d (level_of line)) as [-> | Hne].
      * exists (node_id (nodeId st)). split; [|now apply Hself].
        unfold track. destruct Hl as [Hl | Hl]; rewrite Hl.
        -- rewrite !Nat.ltb_irrefl. unfold assign. rewrite Hlen.
           replace (Nat.ltb (currentLevel st) (S (currentLevel st))) with true
             by (symmetry; apply Nat.ltb_lt; lia).
           rewrite nth_error_app2 by (rewrite length_firstn; lia).
           rewrite length_firstn.
           replace (currentLevel st - Nat.min (currentLevel st) (length (nodeStack st)))
             with 0 by lia.
           reflexivity.
        -- replace (Nat.ltb (currentLevel st) (S (currentLevel st))) with true
             by (symmetry; apply Nat.ltb_lt; lia).
           unfold push. rewrite nth_error_app2 by lia.
           rewrite Hlen, Nat.sub_diag. reflexivity.
      * destruct (Hdepth d) with (n := n) as (x & Hx & Hlx); auto; [lia|].
        exists x. split; auto.
        unfold track. destruct Hl as [Hl | Hl]; rewrite Hl.
        -- rewrite !Nat.ltb_irrefl. unfold assign. rewrite Hlen.
           replace (Nat.ltb (currentLevel st) (S (currentLevel st))) with true
             by (symmetry; apply Nat.ltb_lt; lia).
           rewrite nth_error_app1 by (rewrite length_firstn; lia).
           rewrite nth_error_firstn.
           replace (Nat.ltb d (currentLevel st)) with true
             by (symmetry; apply Nat.ltb_lt; lia).
           exact Hx.
        -- replace (Nat.ltb (currentLevel st) (S (currentLevel st))) with true
             by (symmetry; apply Nat.ltb_lt; lia).
           unfold push. rewrite nth_error_app1 by lia. exact Hx.
Qed.

Lemma Going_forEach lines : forall st index,
  Inv st -> Fresh st \/ Going st ->
  admissible st (map level_of (filter kept lines)) = true ->
  Going (forEach st lines index).
Proof.
  induction lines as [|l lines IH]; intros st index HI Hst Hadm.
  - cbn [forEach]. destruct Hst as [(Hn & _) | Hg]; auto.
    unfold admissible in Hadm. rewrite Hn in Hadm. discriminate.
  - cbn [forEach filter] in *. destruct (kept l) eqn:Hk.
    + assert (Hg : Going (step st l index)).
      { apply Going_step; auto. unfold admissible in Hadm. cbn [map] in Hadm.
        destruct Hst as [Hf | Hg].
        - left. split; auto. destruct Hf as (Hn & _). rewrite Hn in Hadm.
          cbn [stepwise] in Hadm. apply andb_prop in Hadm as [H _].
          now apply Nat.eqb_eq.
        - right. split; auto. destruct (st_nodes st) eqn:En.
          + now destruct Hg as [Hne _ _ _ _].
          + cbn [stepwise_from] in Hadm. apply andb_prop in Hadm as [H _].
            apply orb_prop in H as [H | H]; apply Nat.eqb_eq in H; auto. }
      apply IH; auto.
      * now apply MindMapFacts.Inv_step.
      * unfold admissible in *. cbn [map] in Hadm.
        rewrite (@step_kept st l index Hk). cbv zeta. cbn [st_nodes currentLevel].
        destruct (st_nodes st ++ _) eqn:E.
        { now apply app_eq_nil in E as [_ [=]]. }
        destruct (st_nodes st).
        -- cbn [stepwise] in Hadm. apply andb_prop in Hadm as [H0 H].
           apply Nat.eqb_eq in H0. now rewrite H0.
        -- cbn [stepwise_from] in Hadm. now apply andb_prop in Hadm as [_ H].
    + rewrite (@step_skipped st l index Hk). now apply IH.
Qed.

Lemma Fresh_init : Fresh init.
Proof. now repeat split. Qed.

(** X16. An outline whose first labelled line is at depth 0 and in which
    no labelled line steps back to a smaller depth or skips a depth gets
    the edges the data model asks for: a node of depth 0 has no incoming
    edge, and every other node has exactly one, from the nearest node
    before it that is one level up. *)
Theorem stepwise_outline_parents (text : jstring) :
  stepwise (levels_of text) = true ->
  parent_invariant (parseTextMindMap text) = true.
Proof.
  intros H.
  pose proof (@Going_forEach (filter nonblank (split_lines text)) init 0
                MindMapFacts.Inv_init (or_introl Fresh_init) H)
    as [Hn _ _ Hr Hp].
  unfold parent_invariant, parseTextMindMap.
  set (st := forEach init (filter nonblank (split_lines text)) 0) in *.
  assert (E : match st_nodes st with
              | [] => [default_node]
              | _ :: _ => st_nodes st
              end = st_nodes st)
    by (destruct (st_nodes st); [now elim Hn | reflexivity]).
  rewrite E. cbn [nodes]. apply forallb_forall. intros k Hk. apply in_seq in Hk.
  unfold parent_ok, parents_of, incoming. cbn [nodes edges].
  destruct (nth_error (st_nodes st) k) as [n|] eqn:Ek.
  2:{ apply nth_error_None in Ek. lia. }
  fold (sources_into (st_edges st) (id n)).
  destruct (depth n) as [|d] eqn:Ed.
  - now rewrite (Hr k n Ek Ed).
  - destruct (Hp k n d Ek Ed) as (p & -> & ->).
    cbn [list_eqb]. now rewrite QuizFacts.eqb_refl.
Qed.

Lemma stepwise_outline_witness :
  parent_invariant
    (parseTextMindMap
       (join [LF] [lit "Plants"; lit "  - Trees"; lit "  - Ferns";
                   lit "    - Tree ferns"])) = true.
Proof. apply stepwise_outline_parents. reflexivity. Defined.

End StepwiseOutlineFacts.

(* ================================================================== *)
(** * The timeline grammar on an entry that starts with a year *)
(* ================================================================== *)

Module TimelineYearFacts.

Import Fences Formats FenceFacts RunFacts Timeline StrFacts TimelineMoreFacts YearEntry.

(** A counted repetition over exactly that many accepted code units. *)
Lemma greedy_exact p : forall d n b a cp k,
  forallb p d = true -> length d = n ->
  greedy p n (Some n) b (d ++ a) cp k = k (MState (rev d ++ b) a cp).
Proof.
  induction d as [|c d IH]; intros n b a cp k Hd Hn; simpl in Hn; subst n.
  - now destruct a.
  - simpl in Hd. apply andb_prop in Hd as [Hc Hd].
    cbn [greedy app option_map Nat.pred length]. rewrite Hc.
    rewrite (IH (length d) (c :: b) a cp k Hd eq_refl).
    cbn [rev]. rewrite <- app_assoc. cbn [app].
    now destruct (k _).
Qed.

Lemma digit_facts c : is_digit c = true ->
  (c =? 91)%N = false /\ (c =? LF)%N = false.
Proof.
  unfold is_digit, in_range. intros H. apply andb_prop in H as [H1 H2].
  apply N.leb_le in H1. apply N.leb_le in H2.
  split; apply N.eqb_neq; unfold LF; lia.
Qed.

Lemma year_shape y : is_year y = true ->
  exists a b c d, y = [a; b; c; d] /\ is_digit a = true.
Proof.
  unfold is_year. intros H. apply andb_prop in H as [Hd Hl].
  apply Nat.eqb_eq in Hl.
  destruct y as [|a [|b [|c [|d [|e y]]]]]; try discriminate.
  exists a, b, c, d. split; auto. simpl in Hd. now apply andb_prop in Hd as [Hd _].
Qed.

Lemma year_not_backend y rest :
  is_year y = true -> search noflags re_backend (y ++ rest) = None.
Proof.
  intros H. destruct (year_shape _ H) as (a & b & c & d & -> & Ha).
  unfold re_backend. cbn [rseq]. rewrite ReFacts.search_anchored by reflexivity.
  unfold match_at, start_at. cbn [rmatch at_bol before after app rchar].
  cbn [cs_mem icase noflags]. change (ch "[") with 91%N.
  rewrite (N.eqb_sym 91 a).
  now destruct (digit_facts _ Ha) as [-> _].
Qed.

Lemma year_date y rest :
  is_year y = true ->
  search noflags re_date (y ++ rest)
  = Some ([], MState (rev y) rest [(1, y)]).
Proof.
  intros H. unfold re_date. rewrite ReFacts.search_anchored by reflexivity.
  unfold is_year in H. apply andb_prop in H as [Hd Hl]. apply Nat.eqb_eq in Hl.
  unfold match_at, start_at.
  cbn [rmatch at_bol before after caps ralt rep].
  rewrite <- Hl at 1 2.
  rewrite greedy_exact by auto.
  rewrite (@group_close 1 [] (y ++ rest) [] y rest []).
  now rewrite app_nil_r.
Qed.


Lemma is_prefix_app y rest : is_prefix y (y ++ rest) = true.
Proof.
  induction y as [|c y IH]; [reflexivity|].
  cbn [app is_prefix]. now rewrite N.eqb_refl.
Qed.

Lemma skipn_length_app {A} (l r : list A) : skipn (length l) (l ++ r) = r.
Proof. induction l as [|x l IH]; [reflexivity | exact IH]. Qed.

Lemma remove_first_prefix y rest : y <> [] -> remove_first y (y ++ rest) = rest.
Proof.
  destruct y as [|c y]; [easy|]. intros _.
  cbn [app remove_first].
  change (c :: y ++ rest) with ((c :: y) ++ rest).
  now rewrite is_prefix_app, skipn_length_app.
Qed.

Lemma separators_stripped title :
  plain_start title = true ->
  remove_match noflags re_separators (lit ": " ++ title) = title.
Proof.
  intros H. unfold remove_match, re_separators.
  rewrite ReFacts.search_anchored by reflexivity.
  unfold match_at, start_at. cbn [rmatch at_bol before after caps plus].
  change (lit ": " ++ title) with ([58%N; 32%N] ++ title).
  rewrite (@greedy_run _ [58%N; 32%N] 1 [] title [] Some
             (MState (rev [58%N; 32%N]) title [])); auto.
  - destruct title as [|h t]; [discriminate|]. unfold plain_start in H.
    cbn [cunion cs_mem icase noflags].
    change (ch ":") with 58%N. change (ch "-") with 45%N.
    rewrite (N.eqb_sym 58 h), (N.eqb_sym 45 h).
    now rewrite <- orb_assoc in H.
  - simpl. lia.
Qed.

(** X17. A timeline entry that starts with a four-digit year, written
    "year: title" and followed by one description line, is read back as
    exactly one event with that year as date, that title and that
    description -- for a title that does not start with a colon or a
    hyphen, and a title and a description that have no line break and no
    white space at either end. *)
Theorem timeline_year_round_trip (y t desc : jstring) :
  is_year y = true ->
  tight t = true -> one_line t = true -> plain_start t = true ->
  tight desc = true -> one_line desc = true ->
  parseTextTimeline (year_entry y t desc)
  = [{| date := y; title := t; description := desc |}].
Proof.
  intros Hy Ht Hot Hp Htd Hod.
  destruct (year_shape _ Hy) as (a & b & c & d & Ey & Ha).
  assert (Hny : y <> []) by (rewrite Ey; discriminate).
  assert (Hoy : one_line y = true).
  { unfold is_year in Hy. apply andb_prop in Hy as [Hd _].
    unfold one_line. rewrite forallb_forall in *. intros x Hx.
    apply negb_true_iff. now destruct (digit_facts _ (Hd x Hx)). }
  set (l0 := y ++ lit ": " ++ t).
  assert (El : year_entry y t desc = l0 ++ LF :: desc).
  { unfold year_entry, l0. now rewrite <- !app_assoc. }
  assert (Hol0 : one_line l0 = true).
  { unfold l0. apply one_line_app; auto. }
  assert (Hink0 : ink l0 = true).
  { unfold l0. rewrite Ey. cbn [app ink existsb].
    unfold is_digit, in_range in Ha. apply andb_prop in Ha as [H1 H2].
    apply N.leb_le in H1. apply N.leb_le in H2.
    replace (is_space a) with false; [reflexivity|].
    symmetry. unfold is_space, in_range.
    repeat (apply orb_false_intro);
      try (apply N.eqb_neq; lia);
      apply andb_false_iff; (left; apply N.leb_gt; lia) || (right; apply N.leb_gt; lia). }
  assert (Hinkd : ink desc = true) by now apply tight_ink.
  assert (Hlines : block_lines (l0 ++ LF :: desc) = [l0; desc]).
  { unfold block_lines. rewrite split_lines_two by auto.
    cbn [filter]. now rewrite !nonblank_ink, Hink0, Hinkd. }
  assert (Hev : block_event (l0 ++ LF :: desc)
                = Some {| date := y; title := t; description := desc |}).
  { unfold block_event. rewrite Hlines. unfold block_fields, l0.
    rewrite year_not_backend, year_date by auto.
    unfold group, matched. cbn [snd fst caps capture Nat.eqb before pos length].
    rewrite Nat.sub_0_r, firstn_all, rev_involutive.
    rewrite remove_first_prefix by auto.
    rewrite separators_stripped by auto.
    unfold rest_description. cbn [join].
    rewrite (trim_tight _ Htd), (trim_tight _ Ht).
    destruct t as [|t0 t']; [discriminate|]. rewrite Ey. reflexivity. }
  unfold parseTextTimeline, block_events. rewrite El.
  change re_blank_line with sep.
  rewrite split_two_lines; auto.
  2:{ unfold l0. rewrite Ey. discriminate. }
  cbn [filter]. rewrite nonblank_ink.
  replace (ink (l0 ++ LF :: desc)) with true.
  2:{ symmetry. unfold ink in *. rewrite existsb_app, Hink0. reflexivity. }
  cbn [collect]. now rewrite Hev.
Qed.

Lemma timeline_year_witness :
  parseTextTimeline
    (year_entry (lit "1969") (lit "Moon Landing")
       (lit "Humans first walk on the Moon."))
  = [{| date := lit "1969"; title := lit "Moon Landing";
        description := lit "Humans first walk on the Moon." |}].
Proof. apply timeline_year_round_trip; reflexivity. Defined.

End TimelineYearFacts.

(* ================================================================== *)
(** * The sections of a numbered quiz *)
(* ================================================================== *)

Module QuizSectionsFacts.

Import Quiz QuizSections StrFacts.

(** A lookahead consumes nothing. *)
Lemma ahead_zero_width fl r b a st :
  match_at fl (RAhead r) b a = Some st -> pos st = length b.
Proof.
  unfold match_at. cbn [rmatch].
  destruct (rmatch fl r (start_at b a) Some); [|discriminate].
  now intros [= <-].
Qed.

(** Where the numbered lookahead matches, a digit follows. *)
Lemma numbered_at_digit b c a st :
  match_at fl_m re_numbered b (c :: a) = Some st -> is_digit c = true.
Proof.
  unfold match_at, re_numbered. cbn [rmatch rseq].
  destruct (at_bol fl_m (start_at b (c :: a))); [|discriminate].
  cbn [plus start_at before after caps greedy option_map cs_mem rmatch].
  destruct (is_digit c); [reflexivity | discriminate].
Qed.

Lemma split_go_step fl r b c a cur :
  forall st, match_at fl (RAhead r) b (c :: a) = Some st ->
  split_go fl (RAhead r) b (c :: a) cur 0
  = match cur with
    | [] => split_go fl (RAhead r) (c :: b) a [c] 0
    | _ :: _ => rev cur :: split_go fl (RAhead r) (c :: b) a [c] 0
    end.
Proof.
  intros st E. cbn [split_go]. rewrite E.
  rewrite (@ahead_zero_width _ _ _ _ _ E).
  replace (Nat.min (length b) (length b + length (c :: a)) - length b) with 0
    by lia.
  reflexivity.
Qed.

Lemma split_go_pass fl r b c a cur :
  match_at fl r b (c :: a) = None ->
  split_go fl r b (c :: a) cur 0 = split_go fl r (c :: b) a (c :: cur) 0.
Proof. intros E. cbn [split_go]. now rewrite E. Qed.

(** Splitting at a lookahead loses no text. *)
Lemma split_go_ahead_concat fl r : forall a b cur,
  concat (split_go fl (RAhead r) b a cur 0) = rev cur ++ a.
Proof.
  induction a as [|c a IH]; intros b cur.
  - simpl. now rewrite !app_nil_r.
  - destruct (match_at fl (RAhead r) b (c :: a)) as [st|] eqn:E.
    + rewrite (@split_go_step _ _ _ _ _ cur _ E). destruct cur as [|x cur].
      * now rewrite IH.
      * cbn [concat]. now rewrite IH.
    + rewrite (@split_go_pass _ _ _ _ _ cur E), IH. cbn [rev].
      now rewrite <- app_assoc.
Qed.

(** The pieces: the first continues [cur], every later one starts at a
    match. *)
Lemma split_go_numbered_pieces : forall a b cur,
  cur <> [] \/ a <> [] ->
  exists x rest,
    split_go fl_m re_numbered b a cur 0 = (rev cur ++ x) :: rest
    /\ rev cur ++ x <> []
    /\ Forall (fun s => starts_with_digit s = true) rest.
Proof.
  induction a as [|c a IH]; intros b cur Hne.
  - exists [], []. simpl. rewrite app_nil_r. repeat split; auto.
    destruct Hne as [H | H]; [|easy]. intros E. apply H.
    now rewrite <- (rev_involutive cur), E.
  - unfold re_numbered in *.
    destruct (match_at fl_m (RAhead (rseq [RBol; plus CDigit; rchar (ch ".")]))
                b (c :: a)) as [st|] eqn:E.
    + rewrite (@split_go_step _ _ _ _ _ cur _ E).
      destruct (IH (c :: b) [c]) as (x & rest & -> & Hx & Hrest);
        [left; discriminate|].
      pose proof (@numbered_at_digit _ _ _ _ E) as Hd.
      destruct cur as [|y cur].
      * exists (c :: x), rest. repeat split; auto; discriminate.
      * exists [], ((rev [c] ++ x) :: rest). rewrite app_nil_r.
        split; [reflexivity|]. split.
        -- intros E'. apply (f_equal (@rev _)) in E'.
           rewrite rev_involutive in E'. discriminate.
        -- constructor; auto.
    + rewrite (@split_go_pass _ _ _ _ _ cur E).
      destruct (IH (c :: b) (c :: cur)) as (x & rest & -> & Hx & Hrest);
        [left; discriminate|].
      exists (c :: x), rest. cbn [rev] in *. rewrite <- app_assoc in *.
      repeat split; auto.
Qed.

(** X18. Splitting a quiz text at the numbered lines loses no text: the
    sections put together again are the text; when the text is not empty
    no section is empty and every section after the first starts with a
    digit.  So when this split gives two sections or more, they are the
    sections the quiz grammar reads, number and all. *)
Theorem numbered_sections_keep_text (text : jstring) :
  concat (numbered_sections text) = text
  /\ (text <> [] ->
      Forall (fun s => s <> []) (numbered_sections text)
      /\ Forall (fun s => starts_with_digit s = true)
           (tl (numbered_sections text)))
  /\ (length (numbered_sections text) <> 1 ->
      sections_of text = numbered_sections text).
Proof.
  unfold numbered_sections. repeat split.
  - destruct text as [|c text]; [reflexivity|].
    unfold split. unfold re_numbered. apply split_go_ahead_concat.
  - destruct text as [|c text]; [easy|]. unfold split.
    destruct (@split_go_numbered_pieces (c :: text) [] [])
      as (x & rest & -> & Hx & Hrest); [right; discriminate|].
    constructor; auto.
    eapply Forall_impl; [|exact Hrest]. intros s Hs ->. discriminate.
  - destruct text as [|c text]; [easy|]. unfold split.
    destruct (@split_go_numbered_pieces (c :: text) [] [])
      as (x & rest & -> & Hx & Hrest); [right; discriminate|].
    exact Hrest.
  - intros H. unfold sections_of.
    apply Nat.eqb_neq in H. now rewrite H.
Qed.

Lemma numbered_sections_witness :
  sections_of (join [LF] [lit "1. One?"; lit "A) a"; lit "2. Two?"; lit "A) b"])
  = [lit "1. One?" ++ [LF] ++ lit "A) a" ++ [LF];
     lit "2. Two?" ++ [LF] ++ lit "A) b"].
Proof.
  destruct (numbered_sections_keep_text
              (join [LF] [lit "1. One?"; lit "A) a"; lit "2. Two?"; lit "A) b"]))
    as (_ & _ & H).
  rewrite H; [reflexivity | vm_compute; lia].
Defined.

End QuizSectionsFacts.

(* ================================================================== *)
(** * When the timeline's first pass comes out empty *)
(* ================================================================== *)

Module BareDatesFacts.

Import Timeline BareDates StrFacts ReFacts.

(** The second group of the bracket form holds at least one code unit. *)
Lemma backend_title_truthy l0 bf :
  search noflags re_backend l0 = Some bf -> truthy (group 2 bf) = true.
Proof.
  destruct bf as [b0 st]. unfold search. intros H.
  apply search_from_match in H as (a0 & H).
  unfold match_at, re_backend in H.
  change [RBol; rchar (ch "["); RGroup 1 (plus (CNot (CChar (ch "]"))));
          rchar (ch "]"); rchar (ch ":"); star CSpace; RGroup 2 (plus CDot)]
    with ([RBol; rchar (ch "["); RGroup 1 (plus (CNot (CChar (ch "]"))));
           rchar (ch "]"); rchar (ch ":"); star CSpace]
          ++ [RGroup 2 (plus CDot)]) in H.
  apply rseq_last in H as (st' & H).
  cbn [rmatch plus] in H.
  apply greedy_consumed in H as (d & a' & _ & Hd & H).
  injection H as <-.
  unfold group, close_group, pos. cbn [snd caps capture Nat.eqb before].
  rewrite length_app, length_rev.
  replace (length d + length (before st') - length (before st'))
    with (length (rev d)) by (rewrite length_rev; lia).
  rewrite TimelineMoreFacts.firstn_length_app, rev_involutive.
  destruct d; [simpl in Hd; lia | reflexivity].
Qed.

(** A text with ink has a line with ink. *)
Lemma split_char_ink : forall s cur,
  ink (rev cur ++ s) = true ->
  existsb ink (split_char LF cur s) = true.
Proof.
  induction s as [|c s IH]; intros cur H.
  - simpl. rewrite app_nil_r in H. now rewrite H.
  - cbn [split_char]. destruct (c =? LF)%N eqn:E.
    + apply N.eqb_eq in E. subst c. cbn [existsb].
      unfold ink in H. rewrite existsb_app in H. cbn [existsb] in H.
      apply orb_prop in H as [H | H].
      * unfold ink at 1. now rewrite H.
      * replace (negb (is_space LF)) with false in H by reflexivity.
        cbn [orb] in H. rewrite (IH [] H). apply orb_true_r.
    + apply IH. cbn [rev]. now rewrite <- app_assoc.
Qed.

Lemma block_lines_nonempty block :
  nonblank block = true -> block_lines block <> [].
Proof.
  rewrite nonblank_ink. intros H.
  pose proof (split_char_ink block [] H) as He.
  apply existsb_exists in He as (l & Hl & Hi).
  unfold block_lines, split_lines. intros E.
  assert (Hin : In l (filter nonblank (split_char LF [] block))).
  { apply filter_In. split; auto. now rewrite nonblank_ink. }
  now rewrite E in Hin.
Qed.

(** A block gives no event exactly when its first line is a bare
    date. *)
Lemma block_event_none block :
  nonblank block = true ->
  block_event block = None <-> bare_date_block block = true.
Proof.
  intros Hb. pose proof (block_lines_nonempty _ Hb) as Hne.
  unfold block_event, bare_date_block, block_fields, bare_date_line.
  destruct (block_lines block) as [|l0 rest] eqn:El; [easy|].
  destruct (search noflags re_backend l0) as [bf|] eqn:Eb.
  - rewrite (backend_title_truthy _ Eb). split; discriminate.
  - destruct (search noflags re_date l0) as [dm|] eqn:Ed.
    + destruct (truthy (trim _)); split; easy.
    + rewrite (TimelineFacts.first_line_truthy _ El). split; discriminate.
Qed.

Lemma collect_nil blocks :
  collect blocks = [] <-> forall b, In b blocks -> block_event b = None.
Proof.
  induction blocks as [|b blocks IH]; simpl.
  - split; [intros _ b [] | reflexivity].
  - destruct (block_event b) eqn:E.
    + split; [discriminate|]. intros H. specialize (H b (or_introl eq_refl)).
      congruence.
    + rewrite IH. split.
      * intros H b' [<- | Hb']; auto.
      * intros H b' Hb'. apply H. now right.
Qed.

(** X19. The first pass of the timeline grammar comes out empty exactly
    when every non-blank block starts with a bare date: a first line in
    the bracket form always gives an event, and so does a first line
    without a date.  Only then is the bullet pass run; otherwise the
    result is the events of the first pass. *)
Theorem bullet_pass_needs_bare_dates (text : jstring) :
  (block_events text = [] <-> forallb bare_date_block (blocks_of text) = true)
  /\ (forallb bare_date_block (blocks_of text) = false ->
      parseTextTimeline text = block_events text).
Proof.
  assert (Hiff : block_events text = []
                 <-> forallb bare_date_block (blocks_of text) = true).
  { unfold block_events. fold (blocks_of text).
    rewrite collect_nil, forallb_forall. split; intros H b Hb.
    - apply block_event_none; auto.
      unfold blocks_of in Hb. now apply filter_In in Hb as [_ Hb].
    - apply block_event_none; auto.
      unfold blocks_of in Hb. now apply filter_In in Hb as [_ Hb]. }
  split; [exact Hiff|].
  intros H. unfold parseTextTimeline.
  destruct (block_events text) eqn:E; [|reflexivity].
  destruct Hiff as [Hiff _]. rewrite Hiff in H by reflexivity. discriminate.
Qed.

Lemma bullet_pass_witness :
  parseTextTimeline (join [LF] [lit "# 1969"; lit "- Moon Landing"])
  = block_events (join [LF] [lit "# 1969"; lit "- Moon Landing"]).
Proof.
  destruct (bullet_pass_needs_bare_dates
              (join [LF] [lit "# 1969"; lit "- Moon Landing"])) as (_ & H).
  apply H. reflexivity.
Defined.

End BareDatesFacts.

(* ================================================================== *)
(** * The flashcard grammar on a numbered item *)
(* ================================================================== *)

Module NumberedCardFacts.

Import Fences Formats FenceFacts RunFacts Flashcards StrFacts ReFacts
       TimelineMoreFacts FlashcardsMoreFacts NumberedCard.

Lemma q_marker_fails c rest tail k :
  cs_mem true (CChar 81%N) c = false ->
  rmatch fl_i (re_q_with tail) (MState [] (c :: rest) []) k = None.
Proof.
  intros H. unfold re_q_with. cbn [rseq rmatch at_bol before].
  change (rlit "Q") with (rchar 81%N).
  change (rlit "Question") with (RSeq (rchar 81%N) (rlit "uestion")).
  cbn [rmatch rchar after before caps icase fl_i]. now rewrite H.
Qed.

Lemma q_test_fails c rest :
  cs_mem true (CChar 81%N) c = false -> test fl_i re_q (c :: rest) = false.
Proof.
  intros H. unfold test, re_q.
  change (re_q_with REps)
    with (RSeq RBol (rseq [RGroup 1 (RAlt (rlit "Q") (rlit "Question"));
                           rchar (ch ":"); REps])).
  rewrite search_anchored by reflexivity.
  change (RSeq RBol (rseq [RGroup 1 (RAlt (rlit "Q") (rlit "Question"));
                           rchar (ch ":"); REps]))
    with (re_q_with REps).
  unfold match_at, start_at. now rewrite q_marker_fails.
Qed.

Lemma digit_not_q c : is_digit c = true -> cs_mem true (CChar 81%N) c = false.
Proof.
  unfold is_digit, in_range. intros H. apply andb_prop in H as [H1 H2].
  apply N.leb_le in H1. apply N.leb_le in H2.
  cbn [cs_mem]. change (canon 81%N) with 81%N.
  unfold canon, upcase, is_lower, in_range.
  destruct (97 <=? c)%N eqn:E; cbn [andb].
  - apply N.leb_le in E. lia.
  - apply N.eqb_neq. lia.
Qed.

Lemma other_not_q c :
  ((c =? 81)%N || (c =? 113)%N) = false -> cs_mem true (CChar 81%N) c = false.
Proof.
  intros H. apply orb_false_elim in H as [H1 H2].
  apply N.eqb_neq in H1. apply N.eqb_neq in H2.
  cbn [cs_mem]. change (canon 81%N) with 81%N.
  unfold canon, upcase, is_lower, in_range.
  destruct ((97 <=? c)%N && (c <=? 122)%N) eqn:E.
  - apply andb_prop in E as [E1 E2]. apply N.leb_le in E1. apply N.leb_le in E2.
    apply N.eqb_neq. lia.
  - apply N.eqb_neq. lia.
Qed.

Lemma digit_not_space c : is_digit c = true -> is_space c = false.
Proof.
  unfold is_digit, in_range. intros H. apply andb_prop in H as [H1 H2].
  apply N.leb_le in H1. apply N.leb_le in H2.
  unfold is_space, in_range.
  repeat (apply orb_false_intro);
    try (apply N.eqb_neq; lia);
    apply andb_false_iff; (left; apply N.leb_gt; lia) || (right; apply N.leb_gt; lia).
Qed.

Lemma numbering_stripped num front :
  is_number num = true -> tight front = true ->
  remove_match noflags re_numbering (num ++ lit ". " ++ front) = front.
Proof.
  intros Hn Hf. unfold is_number in Hn. apply andb_prop in Hn as [Hne Hd].
  unfold remove_match, re_numbering. cbn [rseq].
  rewrite search_anchored by reflexivity.
  unfold match_at, start_at. cbn [rmatch at_bol before after caps plus].
  change (lit ". " ++ front) with (46%N :: 32%N :: front).
  rewrite (@greedy_run _ num 1 [] (46%N :: 32%N :: front) [] _
             (MState (32%N :: 46%N :: rev num ++ []) front [])); auto.
  - destruct num; [discriminate | simpl; lia].
  - change (rchar (ch ".")) with (rchar 46%N). rewrite rmatch_char.
    now apply spaces_then_text.
Qed.

(** X20. A flashcard written as a numbered item, "n. front" on one line
    and the back on the next, is read by the fallback pass as exactly one
    card with that front and that back: the Q:/A: pass finds no marker
    (the back must not start with the letter Q), and the fallback strips
    the number.  Front and back have no line break and no white space at
    either end. *)
Theorem flashcard_numbered_round_trip (num f b : jstring) :
  is_number num = true ->
  tight f = true -> one_line f = true ->
  tight b = true -> one_line b = true -> not_q_start b = true ->
  parseTextFlashcards (numbered_card num f b) = [{| front := f; back := b |}].
Proof.
  intros Hn Hf Hof Hb Hob Hq.
  pose proof Hn as Hn'. unfold is_number in Hn'.
  apply andb_prop in Hn' as [Hne Hd].
  destruct num as [|n0 num]; [discriminate|].
  simpl in Hd. apply andb_prop in Hd as [Hd0 Hd].
  set (l0 := (n0 :: num) ++ lit ". " ++ f).
  assert (El : numbered_card (n0 :: num) f b = l0 ++ LF :: b).
  { unfold numbered_card, l0. now rewrite <- !app_assoc. }
  assert (Hon : one_line (n0 :: num) = true).
  { unfold one_line. apply forallb_forall. intros x Hx.
    assert (Hdx : is_digit x = true).
    { destruct Hx as [<- | Hx]; auto. rewrite forallb_forall in Hd. auto. }
    apply negb_true_iff. unfold is_digit, in_range in Hdx.
    apply andb_prop in Hdx as [H1 H2]. apply N.leb_le in H1.
    apply N.eqb_neq. unfold LF. lia. }
  assert (Hol0 : one_line l0 = true) by (unfold l0; apply one_line_app; auto).
  assert (Htl0 : tight l0 = true).
  { unfold l0. cbn [app]. rewrite app_assoc.
    apply tight_prefixed; auto. now apply digit_not_space. }
  assert (Hlines : section_lines (l0 ++ LF :: b) = [l0; b]).
  { unfold section_lines. rewrite split_lines_two by auto.
    cbn [filter]. now rewrite !nonblank_ink, !tight_ink. }
  destruct (tight_head _ Hb) as (b0 & b' & Eb & _).
  assert (Hprimary : primary_card (l0 ++ LF :: b) = None).
  { unfold primary_card. rewrite Hlines. cbn [length Nat.leb scan_lines].
    rewrite (trim_tight _ Htl0), (trim_tight _ Hb).
    unfold l0 at 1. cbn [app]. rewrite q_test_fails by now apply digit_not_q.
    rewrite Eb at 1. rewrite q_test_fails; [reflexivity|].
    apply other_not_q. rewrite Eb in Hq. now apply negb_true_iff in Hq. }
  assert (Hfallback : fallback_card (l0 ++ LF :: b)
                      = Some {| front := f; back := b |}).
  { unfold fallback_card. rewrite Hlines. cbn [length Nat.leb join].
    unfold l0. now rewrite numbering_stripped. }
  unfold parseTextFlashcards. rewrite El.
  change re_blank_line with sep.
  rewrite split_two_lines; auto; [|discriminate].
  cbn [collect]. now rewrite Hprimary, Hfallback.
Qed.

Lemma flashcard_numbered_witness :
  parseTextFlashcards
    (numbered_card (lit "12") (lit "Capital of France") (lit "Paris"))
  = [{| front := lit "Capital of France"; back := lit "Paris" |}].
Proof. apply flashcard_numbered_round_trip; reflexivity. Defined.

End NumberedCardFacts.

(* ================================================================== *)
(** * Indentation and label of an outline line *)
(* ================================================================== *)

Module OutlineLineFacts.

Import MindMap OutlineLine StrFacts ReFacts.

Lemma leading_space_split s : s = leading_space s ++ dropWhile is_space s.
Proof.
  induction s as [|c s IH]; [reflexivity|]. simpl.
  destruct (is_space c); [simpl; now rewrite <- IH | reflexivity].
Qed.

(** A greedy star before a continuation that cannot fail takes the whole
    run. *)
Lemma greedy_star_run f : forall a b cp,
  greedy is_space 0 None b a cp (fun st => Some (f st))
  = Some (f (MState (rev (leading_space a) ++ b) (dropWhile is_space a) cp)).
Proof.
  induction a as [|c a IH]; intros b cp; [reflexivity|].
  cbn [greedy option_map Nat.pred leading_space dropWhile].
  destruct (is_space c); [|reflexivity].
  rewrite IH. cbn [rev]. now rewrite <- app_assoc.
Qed.

(** X21. The indentation of an outline line is the number of white-space
    code units it starts with -- a tab counts as one, like a blank -- and
    its depth is half of that, rounded down. *)
Theorem indent_counts_leading_space (line : jstring) :
  indent_of line = length (leading_space line)
  /\ level_of line = length (leading_space line) / 2.
Proof.
  assert (H : indent_of line = length (leading_space line)).
  { unfold indent_of, re_indent. rewrite search_anchored by reflexivity.
    unfold match_at, start_at. cbn [rmatch at_bol before after caps star].
    cbn [cs_mem].
    rewrite (greedy_star_run
               (close_group 1 {| before := []; after := line; caps := [] |})).
    unfold close_group, pos. cbn [snd caps capture Nat.eqb before length].
    rewrite app_nil_r, Nat.sub_0_r, firstn_all, rev_involutive. reflexivity. }
  split; [exact H|]. unfold level_of. now rewrite H.
Qed.

Lemma bullet_class_mem c :
  cs_mem false (cunion [CChar (ch "-"); CChar (ch "*"); CChar 226%N;
                        CChar 8364%N; CChar 162%N]) c
  = in_bullet_class c.
Proof.
  unfold in_bullet_class. cbn [cunion cs_mem].
  change (ch "-") with 45%N. change (ch "*") with 42%N.
  rewrite (N.eqb_sym 45 c), (N.eqb_sym 42 c), (N.eqb_sym 226 c),
    (N.eqb_sym 8364 c), (N.eqb_sym 162 c).
  now rewrite !orb_assoc.
Qed.

(** X22. The label of an outline line, by its first code unit after
    trimming: when that is [-], [*] or one of U+00E2, U+20AC, U+00A2, the
    label is the rest of the line without the white space it starts with;
    otherwise the label is the whole trimmed line.  The bullet U+2022 is
    not in the class, so it stays in the label. *)
Theorem clean_text_cases (line : jstring) (c : char) (rest : jstring) :
  trim line = c :: rest ->
  clean_text line
  = if in_bullet_class c then dropWhile is_space rest else c :: rest.
Proof.
  intros E. unfold clean_text, remove_match, re_bullet. rewrite E.
  cbn [rseq]. rewrite search_anchored by reflexivity.
  unfold match_at, start_at. cbn [rmatch at_bol before after caps star].
  cbn [icase noflags]. rewrite bullet_class_mem.
  destruct (in_bullet_class c); [|reflexivity].
  cbn [cs_mem].
  rewrite (greedy_star_run (fun st => st)). reflexivity.
Qed.

Lemma clean_text_witness :
  clean_text (lit "  - Trees") = lit "Trees"
  /\ clean_text (8226%N :: lit " Trees") = 8226%N :: lit " Trees".
Proof.
  split.
  - apply (@clean_text_cases (lit "  - Trees") (ch "-") (lit " Trees")).
    reflexivity.
  - apply (@clean_text_cases (8226%N :: lit " Trees") 8226%N (lit " Trees")).
    reflexivity.
Defined.

End OutlineLineFacts.
